(** * Crosshare: the puzzle index builder, the comment form, the
    notification digest and the grid evaluator

    A shallow embedding of
    - [getPuzzlesForPage], [queueEmailForUser] and [queueEmails]
      (app/lib/serverOnly),
    - the comment form and the list of comments of
      app/components/Comments.tsx, and the preview of
      app/components/Markdown.tsx,
    - the moderation of comments of the admin page,
    - the totals of app/scripts/generateWeeklyEmail.ts,
    - the fill/completion evaluator and publish-time validation of the
      grid model (lib/gridBase, lib/viewableGrid, reducers/reducer),
      modelled from the specification,
    followed by the properties established for them. *)

From Stdlib Require Import ZArith Lia Ascii String.
From Stdlib Require OrderedTypeEx.
From stdpp Require Import base option list gmap strings pretty sorting.

Set Default Proof Using "Type".

(* ===================================================================== *)
(** * Part I: definitions                                                 *)
(* ===================================================================== *)

(** ** Firestore timestamps

    [admin.firestore.Timestamp]: seconds since the epoch and a
    nanosecond fraction.  [a > b] on two timestamps goes through
    [valueOf()], which orders them chronologically; [toMillis] drops
    the sub-millisecond part. *)
Module AdminTimestamp.

Record T : Type := mk { seconds : Z; nanoseconds : Z }.

Definition toMillis (ts : T) : Z :=
  (seconds ts * 1000 + nanoseconds ts / 1000000)%Z.

Definition fromMillis (milliseconds : Z) : T :=
  let s := (milliseconds / 1000)%Z in
  mk s ((milliseconds - s * 1000) * 1000000)%Z.

(** [toDate()], as the milliseconds of the date: the sub-millisecond
    part is rounded, with [Math.round], where [toMillis] drops it. *)
Definition toDate (ts : T) : Z :=
  (seconds ts * 1000 + (nanoseconds ts + 500000) / 1000000)%Z.

(** [a > b] *)
Definition gt (a b : T) : bool :=
  (seconds b <? seconds a)%Z
  || ((seconds a =? seconds b)%Z && (nanoseconds b <? nanoseconds a)%Z).

End AdminTimestamp.

Abbreviation Timestamp := AdminTimestamp.T.

(** ** io-ts decoding

    A stored document either has the shape its codec asks for, and then
    decodes to a value of the codec's type, or it has not. *)
Inductive Either (E A : Type) : Type :=
| Left (e : E)
| Right (a : A).
Arguments Left {E A} e.
Arguments Right {E A} a.

Definition isRight {E A} (v : Either E A) : bool :=
  match v with Right _ => true | Left _ => false end.

Inductive DocumentData (A : Type) : Type :=
| Shaped (a : A)
| Misshaped.
Arguments Shaped {A} a.
Arguments Misshaped {A}.

(** What [PathReporter.report] prints; its text plays no role here. *)
Inductive Errors : Type := ValidationErrors.

Definition decode {A} (data : DocumentData A) : Either Errors A :=
  match data with
  | Shaped a => Right a
  | Misshaped => Left ValidationErrors
  end.

(** ** JavaScript arrays *)
Module Js.

(** [arr.includes(x)] *)
Definition includes (x : string) (arr : list string) : bool :=
  bool_decide (x ∈ arr).

(** [arr.indexOf(x)]: the first position of [x], or -1. *)
Fixpoint indexOf (x : string) (arr : list string) : Z :=
  match arr with
  | [] => (-1)%Z
  | y :: rest =>
      if decide (y = x) then 0%Z
      else let r := indexOf x rest in
           if (r <? 0)%Z then (-1)%Z else (r + 1)%Z
  end.

(** [arr[k]] for an integer [k]: [undefined] out of range. *)
Definition at_ {A} (arr : list A) (k : Z) : option A :=
  if (k <? 0)%Z then None else arr !! Z.to_nat k.

Definition defined {A} (v : option A) : bool :=
  match v with Some _ => true | None => false end.

(** [arr.splice(k, 1)] for a position [k >= 0]: nothing is removed
    when [k] is past the end. *)
Definition splice1 {A} (k : nat) (arr : list A) : list A := delete k arr.

(** [Array.from(arr.entries())] *)
Definition entries {A} (arr : list A) : list (nat * A) := imap pair arr.

(** Relative index of [slice]: negative counts from the end, and the
    result is clamped to the array. *)
Definition relative (len : nat) (k : Z) : nat :=
  if (k <? 0)%Z then Z.to_nat (Z.max (Z.of_nat len + k) 0)
  else Nat.min (Z.to_nat k) len.

(** [arr.slice(start, end)] for integer arguments. *)
Definition slice {A} (arr : list A) (start end_ : Z) : list A :=
  let from := relative (length arr) start in
  let to := relative (length arr) end_ in
  take (to - from) (drop from arr).

(** [arr.sort(cmp)]: the sort is stable, and [a] stays in front of [b]
    when [cmp a b <= 0]. *)
Fixpoint insert_by {A} (cmp : A → A → Z) (x : A) (sorted : list A)
    : list A :=
  match sorted with
  | [] => [x]
  | y :: rest =>
      if (cmp x y <=? 0)%Z then x :: y :: rest
      else y :: insert_by cmp x rest
  end.

Definition sort {A} (cmp : A → A → Z) (arr : list A) : list A :=
  foldr (insert_by cmp) [] arr.

(** [Array.from(new Set(vals))]: the first occurrence of each value, in
    order. *)
Fixpoint fromSet (vals seen : list string) : list string :=
  match vals with
  | [] => []
  | v :: rest =>
      if includes v seen then fromSet rest seen
      else v :: fromSet rest (v :: seen)
  end.

(** The comparison of [arr.sort()] without a comparator, on strings:
    the order of their UTF-16 code units.  A string is here the bytes
    of its UTF-8 encoding.  On these, the order of the code units is
    the order of the bytes but for the characters from U+E000 to
    U+FFFF, whose first byte is 238 or 239: they come after the
    characters beyond U+FFFF, whose first byte is from 240 to 244, and
    which are two code units with the first one below U+E000.  So the
    bytes 238 and 239 are ranked as 254 and 255, which no UTF-8
    encoding holds. *)
Definition rank (c : ascii) : ascii :=
  if Ascii.eqb c "238" then "254"%char
  else if Ascii.eqb c "239" then "255"%char
  else if Ascii.eqb c "254" then "238"%char
  else if Ascii.eqb c "255" then "239"%char
  else c.

Fixpoint ranked (s : string) : string :=
  match s with
  | EmptyString => EmptyString
  | String c rest => String (rank c) (ranked rest)
  end.

Definition defaultCompare (a b : string) : Z :=
  match String.compare (ranked a) (ranked b) with
  | Lt => (-1)%Z
  | Eq => 0%Z
  | Gt => 1%Z
  end.

(** *** Objects used as records

    An object that starts as the literal [{}] and is used as a record
    of values by key has its own properties, which are kept here in the
    order in which they were created, and besides them the properties
    that it inherits from [Object.prototype]. *)

(** The names of the properties of [Object.prototype].  Their values
    are functions, and [Object.prototype] itself for [__proto__]: all
    of them are truthy, and none is an array or a number. *)
Definition inheritedNames : list string :=
  ["constructor"; "__defineGetter__"; "__defineSetter__"; "hasOwnProperty";
   "__lookupGetter__"; "__lookupSetter__"; "isPrototypeOf";
   "propertyIsEnumerable"; "toString"; "valueOf"; "__proto__";
   "toLocaleString"].

Definition inherited (key : string) : bool :=
  bool_decide (key ∈ inheritedNames).

(** An array index: the decimal numeral, without a leading zero, of a
    number below 2^32 - 1. *)
Definition isDigit (c : ascii) : bool :=
  ((48 <=? N_of_ascii c) && (N_of_ascii c <=? 57))%N.

Fixpoint decimal (numeral : string) (acc : N) : option N :=
  match numeral with
  | EmptyString => Some acc
  | String c rest =>
      if isDigit c then decimal rest (acc * 10 + (N_of_ascii c - 48))%N
      else None
  end.

Definition arrayIndex (key : string) : option N :=
  match key with
  | EmptyString => None
  | String c rest =>
      if Ascii.eqb c "0" && negb (String.eqb rest EmptyString) then None
      else
        match decimal key 0 with
        | Some k => if (k <? 4294967295)%N then Some k else None
        | None => None
        end
  end.

(** The whole numbers that a [number] holds exactly are those of at
    most 2^53 in absolute value.  [x + y] on such numbers is their sum
    if that is such a number again; a sum beyond them is rounded,
    which is not followed here. *)
Definition exact (x : Z) : bool := (Z.abs x <=? 2 ^ 53)%Z.

Definition plus (x y : Z) : option Z :=
  if exact x && exact y && exact (x + y) then Some (x + y)%Z else None.

(** [Object.entries(obj)], and the order of [Object.values(obj)] and
    [Object.keys(obj)], for the own properties [props] of [obj]: the
    keys that are array indices come first, in ascending order, and
    then the other keys in the order in which they were created. *)
Definition ownEntries {V} (props : list (string * V)) : list (string * V) :=
  sort (λ a b, Z.of_N (default 0%N (arrayIndex a.1))
               - Z.of_N (default 0%N (arrayIndex b.1)))%Z
       (List.filter (λ e, defined (arrayIndex e.1)) props)
  ++ List.filter (λ e, negb (defined (arrayIndex e.1))) props.

End Js.

(** ** Documents *)

(** The fields of a puzzle document ([DBPuzzleT]) that the index builder
    reads: publish time [p], the private flag [pv] and the private-until
    time [pvu]. *)
Module DBPuzzle.
Record T : Type := mk {
  p : Timestamp;
  pv : option bool;
  pvu : option Timestamp;
}.
End DBPuzzle.
Abbreviation DBPuzzleT := DBPuzzle.T.

(** [PuzzleIndexV]: timestamps [t] and ids [i], and the optional lists of
    private ids [pv], of private-until ids [pvui] and of the times [pvut]
    at which the latter become public. *)
Module PuzzleIndex.
Record T : Type := mk {
  t : list Timestamp;
  i : list string;
  pv : option (list string);
  pvui : option (list string);
  pvut : option (list Timestamp);
}.
End PuzzleIndex.
Abbreviation PuzzleIndexT := PuzzleIndex.T.

(** [AccountPrefsV]: the categories of mail a user unsubscribed from. *)
Record AccountPrefsT : Type := mkPrefs {
  unsubs : option (list string);
}.

(** What [getUser] returns of a user. *)
Record UserRecord : Type := mkUser {
  email : option string;
}.

(** [NotificationV]: a union over the kind of notification.  All carry
    the document id, the user [u] they are for, and the flags [r] (read)
    and [e] (emailed). *)
Module NotificationBase.
Record T : Type := mk {
  id : string;
  u : string;
  r : bool;
  e : bool;
}.
End NotificationBase.
Abbreviation NotificationBaseT := NotificationBase.T.

Inductive NotificationT : Type :=
| CommentNotification (b : NotificationBaseT) (p pn cn : string)
| ReplyNotification (b : NotificationBaseT) (p pn cn : string)
| NewPuzzleNotification (b : NotificationBaseT) (p pn an : string)
| FeaturedNotification (b : NotificationBaseT) (p pn : string)
    (as_ : option string).

Definition base (n : NotificationT) : NotificationBaseT :=
  match n with
  | CommentNotification b _ _ _ | ReplyNotification b _ _ _
  | NewPuzzleNotification b _ _ _ | FeaturedNotification b _ _ _ => b
  end.

Definition markRead (n : NotificationT) : NotificationT :=
  let upd b :=
    NotificationBase.mk (NotificationBase.id b) (NotificationBase.u b) true
                        (NotificationBase.e b) in
  match n with
  | CommentNotification b p pn cn => CommentNotification (upd b) p pn cn
  | ReplyNotification b p pn cn => ReplyNotification (upd b) p pn cn
  | NewPuzzleNotification b p pn an => NewPuzzleNotification (upd b) p pn an
  | FeaturedNotification b p pn a => FeaturedNotification (upd b) p pn a
  end.

(** A document of the [mail] collection. *)
Module Mail.
Record T : Type := mk {
  to : list string;
  subject : string;
  text : string;
  html : string;
}.
End Mail.
Abbreviation MailT := Mail.T.

(** ** The database *)

Inductive QueryValue : Type :=
| QString (s : string)
| QBoolean (b : bool).

(** [db.collection('c').where(field, '==', value).orderBy('p', 'desc')],
    optionally [.endBefore(ts)]. *)
Record Query : Type := mkQuery {
  whereField : string;
  whereValue : QueryValue;
  endBefore : option Timestamp;
}.

Inductive Error : Type :=
| FailedToValidateIndex (indexDocId : string)
| MissingFromPvut (pid : string)
| Oob
| MalformedContent
| NotFound (path : string)
| NotAFunction (property : string).

(** The store: the index documents of collection [i], the puzzle
    documents of collection [c], the answer of
    [mapEachResult(q, DBPuzzleV, ...)] of lib/dbUtils to a query over [c]
    (a list of decoded puzzles with their document ids, or a rejection),
    the [prefs], [mail] and [n] (notification) collections and the user
    accounts. *)
Record Firestore : Type := mkFirestore {
  coll_i : gmap string (DocumentData PuzzleIndexT);
  coll_c : gmap string (DocumentData DBPuzzleT);
  mapEachResult : Query → Either Error (list (DBPuzzleT * string));
  coll_prefs : gmap string (DocumentData AccountPrefsT);
  users : gmap string UserRecord;
  coll_mail : list MailT;
  coll_n : gmap string NotificationT;
}.

Definition with_coll_i (f : gmap string (DocumentData PuzzleIndexT) →
                            gmap string (DocumentData PuzzleIndexT))
    (db : Firestore) : Firestore :=
  mkFirestore (f (coll_i db)) (coll_c db) (mapEachResult db)
              (coll_prefs db) (users db) (coll_mail db) (coll_n db).

Definition with_coll_mail (f : list MailT → list MailT)
    (db : Firestore) : Firestore :=
  mkFirestore (coll_i db) (coll_c db) (mapEachResult db)
              (coll_prefs db) (users db) (f (coll_mail db)) (coll_n db).

Definition with_coll_n (f : gmap string NotificationT →
                            gmap string NotificationT)
    (db : Firestore) : Firestore :=
  mkFirestore (coll_i db) (coll_c db) (mapEachResult db)
              (coll_prefs db) (users db) (coll_mail db) (f (coll_n db)).

(** ** A state and exception monad over the database *)
Inductive Outcome (A : Type) : Type :=
| Returns (a : A)
| Throws (e : Error).
Arguments Returns {A} a.
Arguments Throws {A} e.

Definition Fire (A : Type) : Type := Firestore → Outcome A * Firestore.

Definition ret {A} (a : A) : Fire A := λ db, (Returns a, db).
Definition throw {A} (e : Error) : Fire A := λ db, (Throws e, db).
Definition bind {A B} (m : Fire A) (k : A → Fire B) : Fire B :=
  λ db, match m db with
        | (Returns a, db') => k a db'
        | (Throws e, db') => (Throws e, db')
        end.
Definition lift {A} (o : Outcome A) : Fire A := λ db, (o, db).

Notation "'let*' x := m 'in' k" := (bind m (λ x, k))
  (at level 10, x name, m at level 100, k at level 200).

(** [db.collection('i').doc(id).get()] *)
Definition get_i (id : string) : Fire (option (DocumentData PuzzleIndexT)) :=
  λ db, (Returns (coll_i db !! id), db).

(** [db.collection('i').doc(id).set(index)] *)
Definition set_i (id : string) (index : PuzzleIndexT) : Fire unit :=
  λ db, (Returns (), with_coll_i (insert id (Shaped index)) db).

(** [db.collection('c').doc(id).get()] *)
Definition get_c (id : string) : Fire (option (DocumentData DBPuzzleT)) :=
  λ db, (Returns (coll_c db !! id), db).

(** [await mapEachResult(q, DBPuzzleV, ...)] *)
Definition run_query (q : Query) : Fire (list (DBPuzzleT * string)) :=
  λ db, match mapEachResult db q with
        | Right rows => (Returns rows, db)
        | Left err => (Throws err, db)
        end.

(** ** The index builder: [getPuzzlesForPage] *)
Section IndexBuilder.

(** [PuzzleResult] and [puzzleFromDB] come from lib/types. *)
Context {Puzzle : Type} (puzzleFromDB : DBPuzzleT → Puzzle).

(** [{ ...puzzleFromDB(x), id }] *)
Definition PuzzleResult : Type := Puzzle * string.

Definition emptyIndex : PuzzleIndexT := PuzzleIndex.mk [] [] None None None.

(** Lines 408-422: load the index document, or start an empty index. *)
Definition loadIndex (indexDocId : string) : Fire PuzzleIndexT :=
  let* indexDoc := get_i indexDocId in
  let* index :=
    match indexDoc with
    | Some data =>
        match decode data with
        | Right validated => ret (Some validated)
        | Left _ => throw (FailedToValidateIndex indexDocId)
        end
    | None => ret None
    end in
  match index with
  | Some index => ret index
  | None => ret emptyIndex
  end.

(** Lines 424-433: the query for puzzles newer than the newest indexed. *)
Definition buildQuery (queryField : string) (queryValue : QueryValue)
    (index : PuzzleIndexT) : Query :=
  let q := mkQuery queryField queryValue None in
  if bool_decide (length (PuzzleIndex.i index) ≠ 0) then
    match PuzzleIndex.t index !! 0 with
    | Some mostRecentTimestamp =>
        mkQuery queryField queryValue (Some mostRecentTimestamp)
    | None => q
    end
  else q.

(** Line 438: [.filter((a) => !index?.i.includes(a.id))] *)
Definition notIndexed (index : PuzzleIndexT)
    (rows : list (DBPuzzleT * string)) : list (DBPuzzleT * string) :=
  filter (λ a, Js.includes a.2 (PuzzleIndex.i index) = false) rows.

(** Lines 444-455: one round of the loop that adds a puzzle. *)
Definition addPuzzle (index : PuzzleIndexT) (p : DBPuzzleT * string)
    : PuzzleIndexT :=
  let index :=
    PuzzleIndex.mk
      (AdminTimestamp.fromMillis (AdminTimestamp.toMillis (DBPuzzle.p p.1))
         :: PuzzleIndex.t index)
      (p.2 :: PuzzleIndex.i index)
      (PuzzleIndex.pv index) (PuzzleIndex.pvui index)
      (PuzzleIndex.pvut index) in
  let index :=
    match DBPuzzle.pv p.1 with
    | Some true =>
        PuzzleIndex.mk (PuzzleIndex.t index) (PuzzleIndex.i index)
          (Some (default [] (PuzzleIndex.pv index) ++ [p.2]))
          (PuzzleIndex.pvui index) (PuzzleIndex.pvut index)
    | _ => index
    end in
  match DBPuzzle.pvu p.1 with
  | Some pvu =>
      PuzzleIndex.mk (PuzzleIndex.t index) (PuzzleIndex.i index)
        (PuzzleIndex.pv index)
        (Some (p.2 :: default [] (PuzzleIndex.pvui index)))
        (Some (AdminTimestamp.fromMillis (AdminTimestamp.toMillis pvu)
                 :: default [] (PuzzleIndex.pvut index)))
  | None => index
  end.

(** Lines 440-458: new puzzles go to the front of the index, which is
    then written back.  [newPuzzles.reverse()] reverses in place, so the
    reversed array is what the rest of the function sees. *)
Definition updateIndex (indexDocId : string) (index : PuzzleIndexT)
    (newPuzzles : list (DBPuzzleT * string))
    : Fire (PuzzleIndexT * list (DBPuzzleT * string)) :=
  if bool_decide (length newPuzzles ≠ 0) then
    let newPuzzles := reverse newPuzzles in
    let index := foldl addPuzzle index newPuzzles in
    let* _ := set_i indexDocId index in
    ret (index, newPuzzles)
  else ret (index, newPuzzles).

(** [index.pv?.includes(pid)] and the like. *)
Definition optIncludes (pid : string) (arr : option (list string)) : bool :=
  match arr with
  | Some arr => Js.includes pid arr
  | None => false
  end.

(** Lines 466-483: one round of the loop that filters private puzzles.
    [now] is what [AdminTimestamp.now()] reads; the readings of one call
    are taken to be the same. *)
Definition filterEntry (index : PuzzleIndexT) (now : Timestamp)
    (idsAndTimes : list (string * Timestamp)) (entry : nat * string)
    : Outcome (list (string * Timestamp)) :=
  let '(i, pid) := entry in
  if optIncludes pid (PuzzleIndex.pv index) then
    Returns (Js.splice1 i idsAndTimes)
  else if optIncludes pid (PuzzleIndex.pvui index)
          && Js.defined (PuzzleIndex.pvut index) then
    let pvidx := Js.indexOf pid (default [] (PuzzleIndex.pvui index)) in
    match Js.at_ (default [] (PuzzleIndex.pvut index)) pvidx with
    | None => Throws (MissingFromPvut pid)
    | Some goLiveTime =>
        if AdminTimestamp.gt goLiveTime now then
          Returns (Js.splice1 i idsAndTimes)
        else
          (* Replace publish time w/ privateUntil for sorting purposes *)
          Returns (alter (λ valAt, (valAt.1, goLiveTime)) i idsAndTimes)
    end
  else Returns idsAndTimes.

Fixpoint filterLoop (index : PuzzleIndexT) (now : Timestamp)
    (copy : list (nat * string)) (idsAndTimes : list (string * Timestamp))
    : Outcome (list (string * Timestamp)) :=
  match copy with
  | [] => Returns idsAndTimes
  | entry :: rest =>
      match filterEntry index now idsAndTimes entry with
      | Returns idsAndTimes => filterLoop index now rest idsAndTimes
      | Throws err => Throws err
      end
  end.

(** Lines 460-484: the working list of ids and times. *)
Definition filterPrivate (index : PuzzleIndexT) (now : Timestamp)
    : Outcome (list (string * Timestamp)) :=
  let idsAndTimes := zip (PuzzleIndex.i index) (PuzzleIndex.t index) in
  let copy := reverse (Js.entries (PuzzleIndex.i index)) in
  filterLoop index now copy idsAndTimes.

(** Line 486 *)
Definition sortByTime (idsAndTimes : list (string * Timestamp))
    : list (string * Timestamp) :=
  Js.sort (λ a b, AdminTimestamp.toMillis b.2 - AdminTimestamp.toMillis a.2)%Z
          idsAndTimes.

(** Lines 488-491 *)
Definition pageEntries (idsAndTimes : list (string * Timestamp))
    (page page_size : Z) : list string :=
  let start := (page * page_size)%Z in
  (Js.slice idsAndTimes start (start + page_size)%Z).*1.

(** [newPuzzles.find((x) => x.id === puzzleId)] *)
Definition findNew (newPuzzles : list (DBPuzzleT * string))
    (puzzleId : string) : option (DBPuzzleT * string) :=
  snd <$> list_find (λ x, x.2 = puzzleId) newPuzzles.

(** Lines 496-515: read the puzzles of the page; a document that is
    missing or does not decode is passed over. *)
Fixpoint assemblePage (newPuzzles : list (DBPuzzleT * string))
    (entriesForPage : list string) (puzzles : list PuzzleResult)
    : Fire (list PuzzleResult) :=
  match entriesForPage with
  | [] => ret puzzles
  | puzzleId :: rest =>
      match findNew newPuzzles puzzleId with
      | Some alreadyHave =>
          assemblePage newPuzzles rest
            (puzzles ++ [(puzzleFromDB alreadyHave.1, alreadyHave.2)])
      | None =>
          let* dbres := get_c puzzleId in
          match dbres with
          | None => assemblePage newPuzzles rest puzzles
          | Some data =>
              match decode data with
              | Right validated =>
                  assemblePage newPuzzles rest
                    (puzzles ++ [(puzzleFromDB validated, puzzleId)])
              | Left _ => assemblePage newPuzzles rest puzzles
              end
          end
      end
  end.

Definition getPuzzlesForPage (indexDocId queryField : string)
    (queryValue : QueryValue) (page page_size : Z) (now : Timestamp)
    : Fire (list PuzzleResult * nat) :=
  let* index := loadIndex indexDocId in
  let q := buildQuery queryField queryValue index in
  let* rows := run_query q in
  let newPuzzles := notIndexed index rows in
  let* updated := updateIndex indexDocId index newPuzzles in
  let index := updated.1 in
  let newPuzzles := updated.2 in
  let* idsAndTimes := lift (filterPrivate index now) in
  let idsAndTimes := sortByTime idsAndTimes in
  let entriesForPage := pageEntries idsAndTimes page page_size in
  let* puzzles := assemblePage newPuzzles entriesForPage [] in
  ret (puzzles, length idsAndTimes).

(** *** Notions used to state what the index builder does *)

(** The index that is stored under [indexDocId], or the empty index
    when nothing is stored there. *)
Definition persistedIndex (db : Firestore) (indexDocId : string)
    : PuzzleIndexT :=
  match coll_i db !! indexDocId with
  | Some (Shaped index) => index
  | _ => emptyIndex
  end.

(** The puzzles that a call would add to the index: what the query
    answers, less what is indexed already. *)
Definition newDocuments (db : Firestore) (indexDocId queryField : string)
    (queryValue : QueryValue) : list (DBPuzzleT * string) :=
  match coll_i db !! indexDocId with
  | Some Misshaped => []
  | _ =>
      let index := persistedIndex db indexDocId in
      match mapEachResult db (buildQuery queryField queryValue index) with
      | Right rows => notIndexed index rows
      | Left _ => []
      end
  end.

(** The index after the update step has added [newPuzzles], and the
    store after it: the index is written back when there is something
    new. *)
Definition updatedIndex (index : PuzzleIndexT)
    (newPuzzles : list (DBPuzzleT * string)) : PuzzleIndexT :=
  foldl addPuzzle index (reverse newPuzzles).

Definition storeAfter (db : Firestore) (indexDocId : string)
    (newPuzzles : list (DBPuzzleT * string)) : Firestore :=
  match newPuzzles with
  | [] => db
  | _ :: _ =>
      with_coll_i
        (insert indexDocId
           (Shaped (updatedIndex (persistedIndex db indexDocId) newPuzzles)))
        db
  end.

(** The go-live time that the index holds for a private-until puzzle:
    the entry of [pvut] at the first position of the id in [pvui]. *)
Definition goLive (index : PuzzleIndexT) (pid : string) : option Timestamp :=
  match PuzzleIndex.pvui index, PuzzleIndex.pvut index with
  | Some pvui, Some pvut =>
      if Js.includes pid pvui then Js.at_ pvut (Js.indexOf pid pvui)
      else None
  | _, _ => None
  end.

(** An id that is listed as private-until, with go-live times around,
    but has no go-live time of its own: the filter throws on it. *)
Definition orphan (index : PuzzleIndexT) (pid : string) : bool :=
  negb (optIncludes pid (PuzzleIndex.pv index))
  && match PuzzleIndex.pvut index with
     | Some pvut =>
         optIncludes pid (PuzzleIndex.pvui index)
         && negb (Js.defined (Js.at_ pvut
              (Js.indexOf pid (default [] (PuzzleIndex.pvui index)))))
     | None => false
     end.

(** What becomes of one pair of the working list. *)
Definition keep (index : PuzzleIndexT) (now : Timestamp)
    (entry : string * Timestamp) : option (string * Timestamp) :=
  if optIncludes entry.1 (PuzzleIndex.pv index) then None
  else
    match goLive index entry.1 with
    | Some goLiveTime =>
        if AdminTimestamp.gt goLiveTime now then None
        else Some (entry.1, goLiveTime)
    | None => Some entry
    end.

(** What the page shows for an id: the puzzle just discovered, or the
    stored document if there is one and it decodes. *)
Definition fetch (db : Firestore) (newPuzzles : list (DBPuzzleT * string))
    (puzzleId : string) : option PuzzleResult :=
  match findNew newPuzzles puzzleId with
  | Some alreadyHave => Some (puzzleFromDB alreadyHave.1, alreadyHave.2)
  | None =>
      match coll_c db !! puzzleId with
      | Some (Shaped validated) => Some (puzzleFromDB validated, puzzleId)
      | _ => None
      end
  end.

(** An id of the page that the page can show. *)
Definition readable (db : Firestore)
    (newPuzzles : list (DBPuzzleT * string)) (puzzleId : string) : bool :=
  match findNew newPuzzles puzzleId with
  | Some _ => true
  | None =>
      match coll_c db !! puzzleId with
      | Some (Shaped _) => true
      | _ => false
      end
  end.

(** The order of the sorted working list: no entry is followed by one
    with a later time, in milliseconds. *)
Definition newestFirst (a b : string * Timestamp) : Prop :=
  (AdminTimestamp.toMillis b.2 ≤ AdminTimestamp.toMillis a.2)%Z.

Definition getPuzzlesForConstructorPage (userId : string)
    (page page_size : Z) (now : Timestamp) : Fire (list PuzzleResult * nat) :=
  getPuzzlesForPage userId "a" (QString userId) page page_size now.

Definition getPuzzlesForFeatured (page page_size : Z) (now : Timestamp)
    : Fire (list PuzzleResult * nat) :=
  getPuzzlesForPage "featured" "f" (QBoolean true) page page_size now.

End IndexBuilder.

(** ** Sample stores for the index builder *)
Module Sample.

Definition ms : Z → Timestamp := AdminTimestamp.fromMillis.

Definition puzzleAt (millis : Z) : DBPuzzleT :=
  DBPuzzle.mk (ms millis) None None.

Definition store (index : option (DocumentData PuzzleIndexT))
    (puzzles : list (string * DocumentData DBPuzzleT))
    (answer : list (DBPuzzleT * string)) : Firestore :=
  mkFirestore (from_option (λ doc, {[ "featured" := doc ]}) ∅ index)
              (list_to_map puzzles) (λ _, Right answer) ∅ ∅ [] ∅.

Definition puzzlesABC : list (string * DocumentData DBPuzzleT) :=
  [("A", Shaped (puzzleAt 100)); ("B", Shaped (puzzleAt 90));
   ("C", Shaped (puzzleAt 110))].

(** The index [ts=100,id=A],[ts=90,id=B], and a query that discovers
    the new document [ts=110,id=C]. *)
Definition indexAB : PuzzleIndexT :=
  PuzzleIndex.mk [ms 100; ms 90] ["A"; "B"] None None None.

Definition discoversC : Firestore :=
  store (Some (Shaped indexAB)) puzzlesABC [(puzzleAt 110, "C")].

(** An index document of the wrong shape, and the same store without
    an index document. *)
Definition misshapedIndex : Firestore :=
  store (Some Misshaped) puzzlesABC [].

Definition noIndex : Firestore := store None puzzlesABC [].

(** Puzzle [A] is private until time 200; nothing is new. *)
Definition indexGoLive : PuzzleIndexT :=
  PuzzleIndex.mk [ms 100; ms 90] ["A"; "B"] None (Some ["A"])
                 (Some [ms 200]).

Definition goesLive : Firestore :=
  store (Some (Shaped indexGoLive)) puzzlesABC [].

(** [B] is private for good, [A] until 200 and [D] until 50; the
    document of [D] is missing and that of [E] does not decode. *)
Definition indexMixed : PuzzleIndexT :=
  PuzzleIndex.mk [ms 100; ms 90; ms 80; ms 70; ms 60]
                 ["A"; "B"; "D"; "E"; "C"]
                 (Some ["B"]) (Some ["A"; "D"]) (Some [ms 200; ms 50]).

Definition mixed : Firestore :=
  store (Some (Shaped indexMixed))
        [("A", Shaped (puzzleAt 100)); ("B", Shaped (puzzleAt 90));
         ("C", Shaped (puzzleAt 60)); ("E", Misshaped)]
        [].

End Sample.

(** ** The notification digest: [queueEmailForUser] *)

Definition nl : string := String "010"%char EmptyString.
Definition dq : string := String "034"%char EmptyString.

(** Lines 585-594 *)
Definition joinStringsWithAnd (vals : list string) : string :=
  let dedup := Js.sort Js.defaultCompare (Js.fromSet vals []) in
  match dedup with
  | [only] => only
  | [first; second] => first +:+ " and " +:+ second
  | _ =>
      String.concat ", " (Js.slice dedup 0 (-1))
      +:+ " and "
      +:+ String.concat "," (Js.slice dedup (-1) (Z.of_nat (length dedup)))
  end.

(** Lines 596-599 *)
Definition emailLink (linkTo : string) : string :=
  "https://crosshare.org/" +:+ linkTo
  +:+ "#utm_source=crosshare&utm_medium=email&utm_campaign=notifications".

Definition puzzleLink (puzzleId : string) : string :=
  emailLink ("crosswords/" +:+ puzzleId).

(** Lines 601-613 *)
Fixpoint safeForHtml (str : string) : string :=
  match str with
  | EmptyString => EmptyString
  | String c rest =>
      (if Ascii.eqb c "&"%char then "&amp;"
       else if Ascii.eqb c "<"%char then "&lt;"
       else if Ascii.eqb c ">"%char then "&gt;"
       else String c EmptyString) +:+ safeForHtml rest
  end.

Definition isCommentNotification (n : NotificationT) : bool :=
  match n with CommentNotification _ _ _ _ => true | _ => false end.
Definition isReplyNotification (n : NotificationT) : bool :=
  match n with ReplyNotification _ _ _ _ => true | _ => false end.
Definition isNewPuzzleNotification (n : NotificationT) : bool :=
  match n with NewPuzzleNotification _ _ _ _ => true | _ => false end.
Definition isFeaturedNotification (n : NotificationT) : bool :=
  match n with FeaturedNotification _ _ _ _ => true | _ => false end.

(** The fields [p] (puzzle id), [pn] (puzzle name), [cn] (commenter name),
    [an] (author name) and [as] of a notification that has them. *)
Definition n_p (n : NotificationT) : string :=
  match n with
  | CommentNotification _ p _ _ | ReplyNotification _ p _ _
  | NewPuzzleNotification _ p _ _ | FeaturedNotification _ p _ _ => p
  end.
Definition n_pn (n : NotificationT) : string :=
  match n with
  | CommentNotification _ _ pn _ | ReplyNotification _ _ pn _
  | NewPuzzleNotification _ _ pn _ | FeaturedNotification _ _ pn _ => pn
  end.
Definition n_cn (n : NotificationT) : string :=
  match n with
  | CommentNotification _ _ _ cn | ReplyNotification _ _ _ cn => cn
  | _ => EmptyString
  end.
Definition n_an (n : NotificationT) : string :=
  match n with
  | NewPuzzleNotification _ _ _ an => an
  | _ => EmptyString
  end.
Definition n_as (n : NotificationT) : option string :=
  match n with
  | FeaturedNotification _ _ _ a => a
  | _ => None
  end.

(** [(rv[x.p] = rv[x.p] || []).push(x)] on a record [rv] that started
    as [{}].  Where [rv] has the key as its own, the value is pushed to
    the array there.  Where it has not, [rv[key]] is what [rv]
    inherits: for the name of a property of [Object.prototype] this
    is a function (or an object), which is truthy and has no [push],
    so that the call throws a [TypeError]; for any other name it is
    [undefined], and the key is created with a new array. *)
Fixpoint pushTo (key : string) (x : NotificationT)
    (rv : list (string * list NotificationT))
    : Outcome (list (string * list NotificationT)) :=
  match rv with
  | [] =>
      if Js.inherited key then Throws (NotAFunction "push")
      else Returns [(key, [x])]
  | (k, xs) :: rest =>
      if decide (k = key) then Returns ((k, xs ++ [x]) :: rest)
      else
        match pushTo key x rest with
        | Returns rest => Returns ((k, xs) :: rest)
        | Throws err => Throws err
        end
  end.

(** [xs.reduce((rv, x) => { (rv[key(x)] = rv[key(x)] || []).push(x);
    return rv; }, rv)] *)
Fixpoint reduceBy (key : NotificationT → string) (xs : list NotificationT)
    (rv : list (string * list NotificationT))
    : Outcome (list (string * list NotificationT)) :=
  match xs with
  | [] => Returns rv
  | x :: rest =>
      match pushTo (key x) x rv with
      | Returns rv => reduceBy key rest rv
      | Throws err => Throws err
      end
  end.

Definition byPuzzle (xs : list NotificationT)
    : Outcome (list (string * list NotificationT)) :=
  reduceBy n_p xs [].

(** [Object.values(byPuzzle).map((a) => a[0].pn)], which throws ['oob'] on
    an empty group. *)
Fixpoint firstNames (groups : list (string * list NotificationT))
    : Outcome (list string) :=
  match groups with
  | [] => Returns []
  | (_, []) :: _ => Throws Oob
  | (_, first :: _) :: rest =>
      match firstNames rest with
      | Returns names => Returns (n_pn first :: names)
      | Throws err => Throws err
      end
  end.

(** [a || b] on strings *)
Definition orElse (a b : string) : string :=
  if decide (a = EmptyString) then b else a.

(** The message under construction: [markdown], [subject] and [read]. *)
Record Draft : Type := mkDraft {
  markdown : string;
  draftSubject : option string;
  read : list NotificationT;
}.

Definition unsubscribed (prefs : option AccountPrefsT) (category : string)
    : bool :=
  match prefs with
  | Some prefs =>
      match unsubs prefs with
      | Some arr => Js.includes category arr
      | None => false
      end
  | None => false
  end.

(** Lines 645-684 and 686-727: comments and replies are listed by puzzle.
    The two blocks differ in their texts only; the subject is set when
    there is none yet, which is always so when the comments block runs. *)
Definition threadSection (isKind : NotificationT → bool)
    (subjectPrefix heading verb fallback : string)
    (sorted : list NotificationT) (d : Draft) : Outcome Draft :=
  let comments := List.filter isKind sorted in
  match byPuzzle comments with
  | Throws err => Throws err
  | Returns commentsByPuzzle =>
      if bool_decide (length comments ≠ 0) then
        match
          (match draftSubject d with
           | Some s => Returns (Some s)
           | None =>
               match firstNames (Js.ownEntries commentsByPuzzle) with
               | Returns names =>
                   Returns (Some (subjectPrefix
                                  +:+ joinStringsWithAnd
                                        (Js.slice names 0 3)))
               | Throws err => Throws err
               end
           end)
        with
        | Throws err => Throws err
        | Returns subject =>
            let d := mkDraft (markdown d +:+ heading +:+ nl +:+ nl) subject
                             (read d) in
            let d :=
              foldl (λ d group,
                       let nameDisplay :=
                         joinStringsWithAnd (n_cn <$> group.2) in
                       mkDraft
                         (markdown d +:+ "* " +:+ nameDisplay +:+ verb
                          +:+ "["
                          +:+ orElse (default EmptyString
                                              (n_pn <$> head group.2))
                                     fallback
                          +:+ "](" +:+ puzzleLink group.1 +:+ ")" +:+ nl)
                         (draftSubject d) (read d ++ group.2))
                    d (Js.ownEntries commentsByPuzzle) in
            Returns (mkDraft (markdown d +:+ nl +:+ nl) (draftSubject d)
                             (read d))
        end
      else Returns d
  end.

(** Lines 731-749 *)
Definition newPuzzlesSection (sorted : list NotificationT) (d : Draft)
    : Draft :=
  let nps := List.filter isNewPuzzleNotification sorted in
  if bool_decide (length nps ≠ 0) then
    let plural := if bool_decide (1 < length nps) then "s" else EmptyString in
    let constructorPlural :=
      if bool_decide (1 < length nps) then "constructors"
      else "a constructor" in
    let subject :=
      match draftSubject d with
      | Some s => Some s
      | None =>
          Some ("Crosshare: new puzzle" +:+ plural +:+ " by "
                +:+ joinStringsWithAnd (Js.slice (n_an <$> nps) 0 3))
      end in
    let d := mkDraft (markdown d +:+ "### New puzzle" +:+ plural +:+ " by "
                      +:+ constructorPlural +:+ " you follow:" +:+ nl +:+ nl)
                     subject (read d) in
    let d :=
      foldl (λ d p,
               mkDraft (markdown d +:+ "* " +:+ n_an p +:+ " published ["
                        +:+ n_pn p +:+ "](" +:+ puzzleLink (n_p p) +:+ ")"
                        +:+ nl)
                       (draftSubject d) (read d ++ [p]))
            d nps in
    mkDraft (markdown d +:+ nl +:+ nl) (draftSubject d) (read d)
  else d.

(** Lines 752-770 *)
Definition featuredSection (sorted : list NotificationT) (d : Draft)
    : Draft :=
  let fs := List.filter isFeaturedNotification sorted in
  if bool_decide (length fs ≠ 0) then
    let plural := if bool_decide (1 < length fs) then "s" else EmptyString in
    let subject :=
      match draftSubject d with
      | Some s => Some s
      | None => Some ("Crosshare featured your puzzle" +:+ plural +:+ "!")
      end in
    let d := mkDraft (markdown d +:+ "### Crosshare has featured your puzzle"
                      +:+ plural +:+ ":" +:+ nl +:+ nl)
                     subject (read d) in
    let d :=
      foldl (λ d p,
               mkDraft (markdown d +:+ "* [" +:+ n_pn p +:+ "]("
                        +:+ puzzleLink (n_p p) +:+ ") was featured"
                        +:+ match n_as p with
                            | Some a =>
                                if decide (a = EmptyString) then EmptyString
                                else " as " +:+ a
                            | None => EmptyString
                            end
                        +:+ nl)
                       (draftSubject d) (read d ++ [p]))
            d fs in
    mkDraft (markdown d +:+ nl +:+ nl) (draftSubject d) (read d)
  else d.

(** [db.doc(`prefs/${userId}`).get()] *)
Definition get_prefs (userId : string)
    : Fire (option (DocumentData AccountPrefsT)) :=
  λ db, (Returns (coll_prefs db !! userId), db).

(** [getUser(userId)] *)
Definition getUser (userId : string) : Fire (option UserRecord) :=
  λ db, (Returns (users db !! userId), db).

(** Lines 567-583: [sendEmail] adds a document to the [mail] collection. *)
Definition sendEmail (toAddress subject text html : string) : Fire unit :=
  λ db, (Returns (),
         with_coll_mail (λ mail, mail ++ [Mail.mk [toAddress] subject text html])
                        db).

(** [Promise.all(read.map((n) => db.doc(`n/${n.id}`).update({ r: true })))]:
    every update is issued; an update of a document that does not exist
    is rejected, and so is the whole. *)
Definition markAllRead (read : list NotificationT) : Fire unit :=
  λ db,
    let db' :=
      with_coll_n (λ coll,
        foldl (λ coll n, alter markRead (NotificationBase.id (base n)) coll)
              coll read) db in
    match list_find (λ n, coll_n db !! NotificationBase.id (base n) = None)
                    read with
    | Some (_, n) =>
        (Throws (NotFound ("n/" +:+ NotificationBase.id (base n))), db')
    | None => (Returns (), db')
    end.

Section Digest.

(** [String.prototype.localeCompare] and SimpleMarkdown's
    [defaultHtmlOutput(defaultBlockParse(...))] are the platform's. *)
Context (localeCompare : string → string → Z)
        (markdownToHtml : string → string).

Definition queueEmailForUser (userId : string)
    (notifications : list NotificationT) : Fire unit :=
  let sorted :=
    Js.sort (λ n1 n2, localeCompare (NotificationBase.id (base n1))
                                    (NotificationBase.id (base n2)))
            notifications in
  let* prefsRes := get_prefs userId in
  let prefs : option AccountPrefsT :=
    match prefsRes with
    | Some data =>
        match decode data with
        | Right validated => Some validated
        | Left _ => None
        end
    | None => None
    end in
  if unsubscribed prefs "all" then ret ()
  else
    let* user := getUser userId in
    match user ≫= email with
    | None => ret ()
    | Some toAddress =>
        if decide (toAddress = EmptyString) then ret ()
        else
          let d := mkDraft EmptyString None [] in
          let* d :=
            (if unsubscribed prefs "comments" then ret d
             else
               let* d :=
                 lift (threadSection isCommentNotification
                         "Crosshare: new comments on "
                         "### Comments on your puzzles:"
                         " commented on " "your puzzle" sorted d) in
               lift (threadSection isReplyNotification
                       "Crosshare: new replies to your comments on "
                       "### Replies to your comments:"
                       " replied to your comments on " "a puzzle"
                       sorted d)) in
          let d :=
            if unsubscribed prefs "newpuzzles" then d
            else newPuzzlesSection sorted d in
          let d :=
            if unsubscribed prefs "featured" then d
            else featuredSection sorted d in
          if decide (markdown d = EmptyString) then ret ()
          else
            let text :=
              markdown d +:+ "---" +:+ nl +:+ nl
              +:+ "Crosshare notifications are sent at most once per day. To manage your notification preferences visit [your Account page]("
              +:+ emailLink "account" +:+ ")" in
            let subject :=
              orElse (default EmptyString (draftSubject d))
                     "Crosshare Notifications" in
            let html :=
              "<!DOCTYPE html>" +:+ nl +:+ "<html>" +:+ nl +:+ "<head>"
              +:+ nl +:+ "<meta http-equiv=" +:+ dq +:+ "Content-Type"
              +:+ dq +:+ " content=" +:+ dq
              +:+ "text/html charset=UTF-8" +:+ dq +:+ " />" +:+ nl
              +:+ "<title>" +:+ safeForHtml subject +:+ "</title>" +:+ nl
              +:+ "</head>" +:+ nl +:+ "<body>" +:+ nl
              +:+ markdownToHtml text +:+ nl +:+ "</body>" +:+ nl
              +:+ "</html>" in
            let* _ := sendEmail toAddress subject text html in
            markAllRead (read d)
    end.

End Digest.

(** A user with three unread notifications, who unsubscribed from the
    given categories. *)
Module DigestSample.

Definition unread (id : string) : NotificationBaseT :=
  NotificationBase.mk id "u1" false false.

Definition notifications : list NotificationT :=
  [CommentNotification (unread "n2") "p1" "Puzzle One" "Bob";
   NewPuzzleNotification (unread "n1") "p2" "Puzzle Two" "Alice";
   CommentNotification (unread "n3") "p1" "Puzzle One" "Al"].

Definition store (categories : list string) : Firestore :=
  mkFirestore ∅ ∅ (λ _, Right [])
    {[ "u1" := Shaped (mkPrefs (Some categories)) ]}
    {[ "u1" := mkUser (Some "solver@example.org") ]}
    []
    (list_to_map ((λ n, (NotificationBase.id (base n), n))
                    <$> notifications)).

(** The same notifications, and a reply on a puzzle whose id is
    ['constructor']. *)
Definition clashing : list NotificationT :=
  notifications
  ++ [ReplyNotification (unread "n5") "constructor" "Puzzle Three" "Eve"].

End DigestSample.

(** ** The comment form (app/components/Comments.tsx) *)
Module Comments.

Definition COMMENT_LENGTH_LIMIT : nat := 280.

(** The text of a comment is a JavaScript string: a sequence of UTF-16
    code units. *)
Definition JsString : Type := list N.

(** The code units that [trim] strips: white space and line
    terminators. *)
Definition isWhiteSpace (c : N) : bool :=
  ((9 <=? c) && (c <=? 13) || (c =? 32) || (c =? 160) || (c =? 5760)
   || (8192 <=? c) && (c <=? 8202) || (c =? 8232) || (c =? 8233)
   || (c =? 8239) || (c =? 8287) || (c =? 12288) || (c =? 65279))%N.

Fixpoint trimStart (s : JsString) : JsString :=
  match s with
  | [] => []
  | c :: rest => if isWhiteSpace c then trimStart rest else s
  end.

Definition trimEnd (s : JsString) : JsString :=
  reverse (trimStart (reverse s)).

(** [s.trim()] *)
Definition trim (s : JsString) : JsString := trimEnd (trimStart s).

(** [input.substring(0, COMMENT_LENGTH_LIMIT)] *)
Definition sanitize (input : JsString) : JsString :=
  take COMMENT_LENGTH_LIMIT input.

(** The props that [submitComment] reads. *)
Record CommentFormProps : Type := mkProps {
  displayName : string;
  username : option string;
  user_uid : string;
  solveTime : Z;
  didCheat : bool;
  puzzleId : string;
  replyToId : option string;
}.

(** [CommentForModerationT], a document of the moderation queue [cfm]. *)
Record CommentForModerationT : Type := mkComment {
  c : JsString;
  a : string;
  n : string;
  t : Z;
  ch : bool;
  p : Timestamp;
  pid : string;
  rt : option string;
  un : option string;
}.

Record LocalComment : Type := mkLocal {
  id : string;
  commentText_ : JsString;
  authorId : string;
  authorUsername : option string;
  authorDisplayName : string;
  authorSolveTime : Z;
  authorCheated : bool;
  publishTime : Z;
}.

(** The state of the form, the uploads that [submitComment] has issued
    and that are still under way, and the [cfm] collection. *)
Record FormState : Type := mkForm {
  commentText : JsString;
  submittedComment : option LocalComment;
  pending : list CommentForModerationT;
  cfm : list (string * CommentForModerationT);
}.

Definition initialForm : FormState := mkForm [] None [] [].

(** What happens to the form: the text area changes, the form is
    submitted at time [now], or the upload number [k] among those under
    way completes and its document is given the id [ref]. *)
Inductive FormEvent : Type :=
| Change (value : JsString)
| Submit (now : Timestamp)
| Uploaded (k : nat) (ref : string).

(** Lines 270-295: [submitComment], up to [db.collection('cfm').add]. *)
Definition submitComment (props : CommentFormProps) (now : Timestamp)
    (st : FormState) : FormState :=
  let textToSubmit := trim (commentText st) in
  if bool_decide (length textToSubmit = 0) then st
  else
    let comment :=
      mkComment textToSubmit (user_uid props) (displayName props)
                (solveTime props) (didCheat props) now (puzzleId props)
                (replyToId props)
                (match username props with
                 | Some name =>
                     if decide (name = EmptyString) then None else Some name
                 | None => None
                 end) in
    mkForm (commentText st) (submittedComment st) (pending st ++ [comment])
           (cfm st).

(** Lines 292-319: the upload completes: the comment is in [cfm] under
    the id [ref], and the form is replaced by the view of the comment.
    The copy kept in the browser's local storage is left out. *)
Definition uploadDone (k : nat) (ref : string) (st : FormState) : FormState :=
  match pending st !! k with
  | None => st
  | Some comment =>
      mkForm (commentText st)
             (Some (mkLocal ref (c comment) (a comment) (un comment)
                            (n comment) (t comment) (ch comment)
                            (AdminTimestamp.toMillis (p comment))))
             (delete k (pending st))
             (cfm st ++ [(ref, comment)])
  end.

(** One event.  Once [submittedComment] is set the form is no longer
    shown, so that it is neither changed nor submitted any more. *)
Definition step (st : FormState) (ev : CommentFormProps * FormEvent)
    : FormState :=
  match ev.2 with
  | Change value =>
      match submittedComment st with
      | Some _ => st
      | None =>
          mkForm (sanitize value) (submittedComment st) (pending st) (cfm st)
      end
  | Submit now =>
      match submittedComment st with
      | Some _ => st
      | None => submitComment ev.1 now st
      end
  | Uploaded k ref => uploadDone k ref st
  end.

Definition run (evs : list (CommentFormProps * FormEvent)) : FormState :=
  foldl step initialForm evs.




(** A form in which the text [ hi ] was typed and submitted, twice in a
    row, before the uploads completed. *)
Definition sampleProps : CommentFormProps :=
  mkProps "Mike" None "uid1" 42 false "puzzle1" None.

Definition sampleEvents : list (CommentFormProps * FormEvent) :=
  [(sampleProps, Change [32; 104; 105; 32]%N);
   (sampleProps, Submit (AdminTimestamp.fromMillis 1000));
   (sampleProps, Submit (AdminTimestamp.fromMillis 1001));
   (sampleProps, Uploaded 0 "ref1");
   (sampleProps, Uploaded 0 "ref2")].

End Comments.

(** ** The grid model and its evaluator

    The grid model (lib/gridBase, lib/viewableGrid) and the reducer that
    validates a puzzle for publishing (reducers/reducer) are known here
    through their callers and tests only.  They are modelled from
    sections 3 and 4 of the specification. *)
Module GridModel.

(** Modelled from the spec: the cell of a grid (lib/gridBase is
    missing), one of Letter(ch), Block and Empty; a rebus cell holds a
    letter value of more than one character. *)
Inductive Cell : Type :=
| Letter (ch : string)
| Block
| Empty.

(** Modelled from the spec: the symmetry categories of section 6. *)
Inductive Symmetry : Type :=
| NoSymmetry
| Rotational
| MirrorHorizontal
| MirrorVertical
| DiagonalNWSE
| DiagonalNESW.

(** Modelled from the spec: the grid of section 3 (lib/gridBase is
    missing): a W x H matrix of cells in row-major order with the
    symmetry declared for it. *)
Record Grid : Type := mkGrid {
  width : nat;
  height : nat;
  cells : list Cell;
  symmetry : Symmetry;
}.

Inductive Direction : Type := Across | Down.

#[global] Instance Direction_eq_dec : EqDecision Direction.
Proof. solve_decision. Defined.

#[global] Instance Direction_countable : Countable Direction.
Proof.
  refine (inj_countable' (λ d, match d with Across => false | Down => true end)
                         (λ b : bool, if b then Down else Across) _).
  by intros [].
Defined.

(** Modelled from the spec: the entry of section 3 (lib/gridBase is
    missing): direction, starting cell, length, ordered cell indices and
    label number. *)
Record Entry : Type := mkEntry {
  direction : Direction;
  start : nat;
  len : nat;
  cellIndices : list nat;
  labelNumber : nat;
}.

(** Modelled from the spec: the clue mapping of section 3, from
    (direction, label number) to clue text. *)
Definition Clues : Type := gmap (Direction * nat) string.

Inductive GridError : Type :=
| InvalidDimension
| InvalidCell
| EditNotAllowed.

(** A cell holds a letter when it is a Letter (or rebus) with a
    non-empty value. *)
Definition holdsLetter (cell : option Cell) : bool :=
  match cell with
  | Some (Letter ch) => bool_decide (ch ≠ EmptyString)
  | _ => false
  end.

Definition letterOf (cell : option Cell) : string :=
  match cell with
  | Some (Letter ch) => ch
  | _ => EmptyString
  end.

(** The letters of the cells, one after the other. *)
Definition concatLetters (letters : list string) : string :=
  foldr String.append EmptyString letters.

(** Modelled from the spec: [isEntryComplete] of section 4.3
    (lib/viewableGrid is missing): true iff every cell index in the
    entry holds a non-empty Letter/rebus value. *)
Definition isEntryComplete (entry : Entry) (grid : Grid) : bool :=
  forallb (λ idx, holdsLetter (cells grid !! idx)) (cellIndices entry).

(** Modelled from the spec: [completedWord] of section 4.3
    (lib/viewableGrid is missing): the concatenated letters if the entry
    is complete, else null. *)
Definition completedWord (entry : Entry) (grid : Grid) : option string :=
  if isEntryComplete entry grid then
    Some (concatLetters
            ((λ idx, letterOf (cells grid !! idx)) <$> cellIndices entry))
  else None.

(** Modelled from the spec: [setLetter] of section 4.1 (lib/gridBase is
    missing): fails with InvalidCell if the target cell is a Block (or
    not a cell of the grid), and returns a new grid otherwise. *)
Definition setLetter (grid : Grid) (cellIndex : nat) (letter : string)
    : GridError + Grid :=
  match cells grid !! cellIndex with
  | None | Some Block => inl InvalidCell
  | Some _ =>
      inr (mkGrid (width grid) (height grid)
                  (<[cellIndex := Letter letter]> (cells grid))
                  (symmetry grid))
  end.

(** A cell that [setLetter] accepts. *)
Definition fillable (grid : Grid) (cellIndex : nat) : bool :=
  match cells grid !! cellIndex with
  | None | Some Block => false
  | Some _ => true
  end.

(** Filling cells one after the other. *)
Fixpoint fill (grid : Grid) (idxs : list nat) (letters : list string)
    : GridError + Grid :=
  match idxs, letters with
  | idx :: idxs, letter :: letters =>
      match setLetter grid idx letter with
      | inr grid => fill grid idxs letters
      | inl err => inl err
      end
  | _, _ => inr grid
  end.

(** A cell an entry can run through: inside the grid and not a Block. *)
Definition open (grid : Grid) (row col : nat) : bool :=
  bool_decide (row < height grid) && bool_decide (col < width grid)
  && match cells grid !! (row * width grid + col) with
     | Some Block | None => false
     | Some _ => true
     end.

(** The cells of the maximal run that starts at (row, col) and goes by
    (drow, dcol); [fuel] bounds its length. *)
Fixpoint runFrom (grid : Grid) (fuel row col drow dcol : nat) : list nat :=
  match fuel with
  | 0 => []
  | S fuel =>
      if open grid row col then
        (row * width grid + col)
          :: runFrom grid fuel (row + drow) (col + dcol) drow dcol
      else []
  end.

Definition startsAcross (grid : Grid) (row col : nat) : bool :=
  open grid row col
  && (bool_decide (col = 0) || negb (open grid row (col - 1)))
  && open grid row (col + 1).

Definition startsDown (grid : Grid) (row col : nat) : bool :=
  open grid row col
  && (bool_decide (row = 0) || negb (open grid (row - 1) col))
  && open grid (row + 1) col.

Definition entryFrom (grid : Grid) (dir : Direction) (row col label : nat)
    : Entry :=
  let run :=
    match dir with
    | Across => runFrom grid (width grid) row col 0 1
    | Down => runFrom grid (height grid) row col 1 0
    end in
  mkEntry dir (row * width grid + col) (length run) run label.

(** The row-major scan of section 4.2, with the shared label counter. *)
Fixpoint scan (grid : Grid) (idxs : list nat) (label : nat) : list Entry :=
  match idxs with
  | [] => []
  | idx :: rest =>
      let row := idx / width grid in
      let col := idx mod width grid in
      let across := startsAcross grid row col in
      let down := startsDown grid row col in
      if across || down then
        (if across then [entryFrom grid Across row col label] else [])
        ++ (if down then [entryFrom grid Down row col label] else [])
        ++ scan grid rest (S label)
      else scan grid rest label
  end.

(** Modelled from the spec: entry derivation of section 4.2
    (lib/gridBase is missing): a cell starts an Across (Down) entry when
    it is not a Block, has a Block or the edge to its left (above) and a
    non-Block cell to its right (below); labels count the cells that
    start an entry, in row-major order; Across comes before Down at equal
    label. *)
Definition deriveEntries (grid : Grid) : list Entry :=
  scan grid (seq 0 (width grid * height grid)) 1.

(** The cell that the declared symmetry pairs with (row, col). *)
Definition partner (grid : Grid) (row col : nat) : nat * nat :=
  match symmetry grid with
  | NoSymmetry => (row, col)
  | Rotational => (height grid - 1 - row, width grid - 1 - col)
  | MirrorHorizontal => (row, width grid - 1 - col)
  | MirrorVertical => (height grid - 1 - row, col)
  | DiagonalNWSE => (col, row)
  | DiagonalNESW => (width grid - 1 - col, height grid - 1 - row)
  end.

(** Modelled from the spec: check (c) of section 4.3: the declared
    symmetry holds of the current Block layout. *)
Definition symmetryHolds (grid : Grid) : bool :=
  forallb (λ idx,
             let row := idx / width grid in
             let col := idx mod width grid in
             let '(prow, pcol) := partner grid row col in
             bool_decide (open grid row col = open grid prow pcol))
          (seq 0 (width grid * height grid)).

Inductive Issue : Type :=
| IssueError (message : string)
| IssueWarning (message : string).

Definition isError (issue : Issue) : bool :=
  match issue with IssueError _ => true | IssueWarning _ => false end.

(** An entry has a clue when the mapping holds a non-empty text for its
    (direction, label number). *)
Definition hasClue (clues : Clues) (entry : Entry) : bool :=
  match clues !! (direction entry, labelNumber entry) with
  | Some clue => bool_decide (clue ≠ EmptyString)
  | None => false
  end.

Definition missingClue (entry : Entry) : Issue :=
  IssueError
    (match direction entry with Across => "Across" | Down => "Down" end
     +:+ " entry " +:+ pretty (labelNumber entry) +:+ " is missing a clue").

(** A 3x3 grid with a Block in its first cell, declared rotationally
    symmetric although it is not, and clues for all its entries. *)
Definition sampleGrid : Grid :=
  mkGrid 3 3 [Block; Empty; Empty; Empty; Empty; Empty;
              Empty; Empty; Letter "A"] Rotational.

Definition sampleClues : Clues :=
  list_to_map [((Across, 1), "one across"); ((Down, 1), "one down");
               ((Down, 2), "two down"); ((Across, 3), "three across");
               ((Down, 3), "three down"); ((Across, 4), "four across")].

Section Validation.

(** Check (b) of section 4.3, the minimum size and connectivity
    heuristics, which the specification names but does not define:
    the warnings they give for a grid. *)
Context (heuristics : Grid → list string).

(** Modelled from the spec: [validateForPublish] of section 4.3
    (reducers/reducer is missing): (a) each entry without a non-empty
    clue is an error; (b) the size and connectivity heuristics give
    warnings; (c) a declared symmetry that does not hold is a
    warning. *)
Definition validateForPublish (grid : Grid) (clues : Clues) : list Issue :=
  (missingClue <$> List.filter (λ entry, negb (hasClue clues entry))
                               (deriveEntries grid))
  ++ (IssueWarning <$> heuristics grid)
  ++ (if symmetryHolds grid then []
      else [IssueWarning "grid does not have the declared symmetry"]).

Definition errors (issues : list Issue) : list Issue :=
  List.filter isError issues.

Definition warnings (issues : list Issue) : list Issue :=
  List.filter (λ issue, negb (isError issue)) issues.

(** Publishing is blocked exactly when there are errors. *)
Definition canPublish (grid : Grid) (clues : Clues) : bool :=
  match errors (validateForPublish grid clues) with
  | [] => true
  | _ :: _ => false
  end.

End Validation.

End GridModel.

(** ** Further notions of the index builder *)

(** The private-until ids of an index all have a go-live time: [pvut] is
    at least as long as [pvui]. *)
Definition aligned (index : PuzzleIndexT) : Prop :=
  length (default [] (PuzzleIndex.pvui index))
  ≤ length (default [] (PuzzleIndex.pvut index)).

(** The query was answered. *)
Definition is_Some_right {E A} (v : Either E A) : Prop :=
  match v with Right _ => True | Left _ => False end.

(** The pages [0 .. n-1] of a working list, one after the other. *)
Definition firstPages (idsAndTimes : list (string * Timestamp))
    (page_size : Z) (n : nat) : list string :=
  concat ((λ page, pageEntries idsAndTimes (Z.of_nat page) page_size)
            <$> seq 0 n).

(** ** Further notions of the notification digest *)

(** The preferences that [queueEmailForUser] works with: those of the
    stored document if it decodes. *)
Definition storedPrefs (db : Firestore) (userId : string)
    : option AccountPrefsT :=
  match coll_prefs db !! userId with
  | Some (Shaped prefs) => Some prefs
  | _ => None
  end.

(** A notification of a kind that the user has not unsubscribed from. *)
Definition wanted (prefs : option AccountPrefsT) (n : NotificationT) : bool :=
  match n with
  | CommentNotification _ _ _ _ | ReplyNotification _ _ _ _ =>
      negb (unsubscribed prefs "comments")
  | NewPuzzleNotification _ _ _ _ => negb (unsubscribed prefs "newpuzzles")
  | FeaturedNotification _ _ _ _ => negb (unsubscribed prefs "featured")
  end.

(** A notification of a comment or of a reply whose puzzle id is the
    name of a property that the record of the notifications by puzzle
    inherits: the [reduce] of its block throws on it. *)
Definition clashes (n : NotificationT) : bool :=
  (isCommentNotification n || isReplyNotification n)
  && Js.inherited (n_p n).

(** The message that lines 640-770 build from the sorted notifications. *)
Definition digestDraft (prefs : option AccountPrefsT)
    (sorted : list NotificationT) : Outcome Draft :=
  let d := mkDraft EmptyString None [] in
  match
    (if unsubscribed prefs "comments" then Returns d
     else
       match threadSection isCommentNotification
               "Crosshare: new comments on "
               "### Comments on your puzzles:"
               " commented on " "your puzzle" sorted d with
       | Returns d =>
           threadSection isReplyNotification
             "Crosshare: new replies to your comments on "
             "### Replies to your comments:"
             " replied to your comments on " "a puzzle" sorted d
       | Throws err => Throws err
       end)
  with
  | Throws err => Throws err
  | Returns d =>
      let d :=
        if unsubscribed prefs "newpuzzles" then d
        else newPuzzlesSection sorted d in
      Returns (if unsubscribed prefs "featured" then d
               else featuredSection sorted d)
  end.

(** The ids of the notifications of a list. *)
Definition idsOf (ns : list NotificationT) : list string :=
  (λ n, NotificationBase.id (base n)) <$> ns.

(** What a block of the message does to the draft: nothing when there
    is no notification of its kind; otherwise the text is not empty
    afterwards and the notifications of the kind are added to [read]. *)
Definition extends (isKind : NotificationT → bool)
    (sorted : list NotificationT) (d d' : Draft) : Prop :=
  (List.filter isKind sorted = [] → d' = d)
  ∧ (List.filter isKind sorted ≠ [] → markdown d' ≠ EmptyString)
  ∧ ∀ n, n ∈ read d' ↔ n ∈ read d ∨ (n ∈ sorted ∧ isKind n = true).

(** The draft tells of the notifications of the kinds [covered] so far:
    they are the ones to mark as read, and the text is empty exactly
    when there is none. *)
Definition tells (sorted : list NotificationT)
    (covered : NotificationT → bool) (d : Draft) : Prop :=
  (∀ n, n ∈ read d ↔ n ∈ sorted ∧ covered n = true)
  ∧ (markdown d = EmptyString ↔ ∀ n, n ∈ sorted → covered n = false).

(** ** Further sample stores *)
Module SampleMore.

(** The index [A,B], and a query that discovers the document [C], which
    is marked private. *)
Definition discoversPrivateC : Firestore :=
  Sample.store (Some (Shaped Sample.indexAB)) Sample.puzzlesABC
               [(DBPuzzle.mk (Sample.ms 110) (Some true) None, "C")].

(** Puzzle [A] is listed as private-until, but the list of go-live
    times is empty. *)
Definition misaligned : Firestore :=
  Sample.store
    (Some (Shaped (PuzzleIndex.mk [Sample.ms 100; Sample.ms 90] ["A"; "B"]
                                  None (Some ["A"]) (Some []))))
    Sample.puzzlesABC [].

(** A working list of three entries. *)
Definition workingList : list (string * Timestamp) :=
  [("C", Sample.ms 110); ("A", Sample.ms 100); ("B", Sample.ms 90)].

End SampleMore.

(** ** Further notions of the notification digest: texts *)

(** The character [c] occurs in [str]. *)
Fixpoint occurs (c : ascii) (str : string) : bool :=
  match str with
  | EmptyString => false
  | String c' rest => Ascii.eqb c c' || occurs c rest
  end.

(** One of the characters that [safeForHtml] replaces occurs in [str]. *)
Definition hasTag (str : string) : bool :=
  occurs "&" str || occurs "<" str || occurs ">" str.

(** ** The preview of a text (app/components/Markdown.tsx) *)
Module Markdown.

(** The [content] of a node of SimpleMarkdown's syntax tree: absent, or
    the nodes below it, or a text, or a value of another kind. *)
Inductive Content (node : Type) : Type :=
| NoContent
| Nodes (nodes : list node)
| Text (text : Comments.JsString)
| Other.
Arguments NoContent {node}.
Arguments Nodes {node} nodes.
Arguments Text {node} text.
Arguments Other {node}.

(** A node: its [type], its [content], and its other properties (such
    as [pre], [items], [target] or [level]), which the spread
    [{ ...ast, content }] carries over as they are. *)
#[warnings="-register-all"]
Inductive SingleASTNode : Type :=
| Node (type_ : string) (content : Content SingleASTNode)
       (others : list (string * Content SingleASTNode)).

(** ['...'] *)
Definition ellipsis : Comments.JsString := [46; 46; 46]%N.

(** [chopSingle] and [chop], for an integer [max].  The empty text is
    falsy, and is returned by the first test of [chopSingle]. *)
Fixpoint chopSingle (ast : SingleASTNode) (max : Z) : SingleASTNode * Z :=
  match ast with
  | Node type_ content others =>
      match content with
      | NoContent | Text [] => (ast, max)
      | Nodes nodes =>
          let chopped :=
            (fix chop (ast : list SingleASTNode) (remaining : Z)
               : list SingleASTNode * Z :=
               match ast with
               | [] => ([], remaining)
               | node :: rest =>
                   let res := chopSingle node remaining in
                   if (res.2 <=? 0)%Z then ([res.1], res.2)
                   else let out := chop rest res.2 in (res.1 :: out.1, out.2)
               end) nodes max in
          (Node type_ (Nodes chopped.1) others, chopped.2)
      | Text text =>
          let newContent := Js.slice text 0 max in
          let newContentLength := length newContent in
          let newContent :=
            if decide (newContentLength ≠ length text)
            then newContent ++ ellipsis else newContent in
          (Node type_ (Text newContent) others,
           (max - Z.of_nat newContentLength)%Z)
      | Other => (ast, max)
      end
  end.

Fixpoint chop (ast : list SingleASTNode) (remaining : Z)
    : list SingleASTNode * Z :=
  match ast with
  | [] => ([], remaining)
  | node :: rest =>
      let res := chopSingle node remaining in
      if (res.2 <=? 0)%Z then ([res.1], res.2)
      else let out := chop rest res.2 in (res.1 :: out.1, out.2)
  end.

(** [chopTo]: no [chars], or [0], leaves the tree as it is. *)
Definition chopTo (ast : list SingleASTNode) (chars : option Z)
    : list SingleASTNode :=
  match chars with
  | None => ast
  | Some chars => if decide (chars = 0%Z) then ast else (chop ast chars).1
  end.

(** The texts that the preview counts and cuts: those that are reached
    from the top through [content], in the order of the tree.  A text
    in another property of a node is none of them. *)
Fixpoint textsIn (ast : SingleASTNode) : list Comments.JsString :=
  match ast with
  | Node _ content _ =>
      match content with
      | Nodes nodes =>
          (fix texts (ast : list SingleASTNode) : list Comments.JsString :=
             match ast with
             | [] => []
             | node :: rest => textsIn node ++ texts rest
             end) nodes
      | Text text => [text]
      | NoContent | Other => []
      end
  end.

Fixpoint texts (ast : list SingleASTNode) : list Comments.JsString :=
  match ast with
  | [] => []
  | node :: rest => textsIn node ++ texts rest
  end.

(** The number of code units of these texts. *)
Fixpoint textLength (ast : SingleASTNode) : nat :=
  match ast with
  | Node _ content _ =>
      match content with
      | Nodes nodes =>
          (fix total (ast : list SingleASTNode) : nat :=
             match ast with
             | [] => 0
             | node :: rest => textLength node + total rest
             end) nodes
      | Text text => length text
      | NoContent | Other => 0
      end
  end.

Fixpoint totalLength (ast : list SingleASTNode) : nat :=
  match ast with
  | [] => 0
  | node :: rest => textLength node + totalLength rest
  end.

(** What is kept of a text when [max] code units remain: all of it if
    it is not longer, and else its first [max] code units and the
    ellipsis. *)
Definition cut (max : nat) (text : Comments.JsString) : Comments.JsString :=
  if decide (max < length text) then take max text ++ ellipsis else text.

(** What a cut leaves of the texts [all]: the texts [before] the one
    with which [max] code units are reached, and what [max] leaves of
    that one; the texts after it are gone. *)
Definition cutAt (max : nat) (all kept : list Comments.JsString) : Prop :=
  ∃ before text after,
    all = before ++ text :: after
    ∧ length (concat before) < max ≤ length (concat before) + length text
    ∧ kept = before ++ [cut (max - length (concat before)) text].

(** A text of five code units between two line breaks, in a paragraph. *)
Definition sample : list SingleASTNode :=
  [Node "paragraph"
     (Nodes [Node "br" NoContent [];
             Node "text" (Text [104; 101; 108; 108; 111]%N) [];
             Node "br" NoContent []])
     []].

(** The word [hello] with a clue, after the text [oh ]: the text before
    the word is in the property [pre]. *)
Definition sampleClued : list SingleASTNode :=
  [Node "cluedWord" (Text [104; 101; 108; 108; 111]%N)
        [("pre", Nodes [Node "text" (Text [111; 104; 32]%N) []])]].

End Markdown.

(** ** The list of comments (app/components/Comments.tsx, lines 441-561) *)
Module CommentList.

Import Comments.

(** [CommentOrLocalComment]: the fields that are shown, the replies if
    there are any, and whether the comment has the key [isLocal]. *)
#[warnings="-register-all"]
Inductive CommentOrLocalComment : Type :=
| Shown (isLocal : bool) (fields : LocalComment)
        (replies : option (list CommentOrLocalComment)).

Definition commentId (comment : CommentOrLocalComment) : string :=
  match comment with Shown _ fields _ => id fields end.

(** Lines 441-445 *)
Definition isComment (comment : CommentOrLocalComment) : bool :=
  match comment with Shown isLocal _ _ => negb isLocal end.

(** Lines 447-466: [findCommentById], first for one comment of the
    list: the comment itself, or else the first find among the replies
    of a comment that is not local. *)
Fixpoint findIn (id : string) (comment : CommentOrLocalComment)
    : option CommentOrLocalComment :=
  match comment with
  | Shown isLocal fields replies =>
      if decide (Comments.id fields = id) then Some comment
      else if isLocal then None
      else
        match replies with
        | None => None
        | Some replies =>
            (fix findCommentById (comments : list CommentOrLocalComment)
               (id : string) {struct comments}
               : option CommentOrLocalComment :=
               match comments with
               | [] => None
               | comment :: rest =>
                   match findIn id comment with
                   | Some res => Some res
                   | None => findCommentById rest id
                   end
               end) replies id
        end
  end.

Fixpoint findCommentById (comments : list CommentOrLocalComment)
    (id : string) : option CommentOrLocalComment :=
  match comments with
  | [] => None
  | comment :: rest =>
      match findIn id comment with
      | Some res => Some res
      | None => findCommentById rest id
      end
  end.

(** Lines 540-544: [parent.replies.push(localComment)], or
    [parent.replies = [localComment]], for the [parent] that
    [findCommentById(rebuiltComments, id)] returns: the comment is
    changed in place, where the search finds it. *)
Definition pushReply (localComment : CommentOrLocalComment)
    (parent : CommentOrLocalComment) : CommentOrLocalComment :=
  match parent with
  | Shown isLocal fields replies =>
      Shown isLocal fields
            (Some (match replies with
                   | Some replies => replies ++ [localComment]
                   | None => [localComment]
                   end))
  end.

Fixpoint replyIn (id : string) (localComment : CommentOrLocalComment)
    (comment : CommentOrLocalComment) : option CommentOrLocalComment :=
  match comment with
  | Shown isLocal fields replies =>
      if decide (Comments.id fields = id)
      then Some (pushReply localComment comment)
      else if isLocal then None
      else
        match replies with
        | None => None
        | Some replies =>
            Shown isLocal fields ∘ Some <$>
              (fix replyTo (comments : list CommentOrLocalComment)
                 (id : string) (localComment : CommentOrLocalComment)
                 {struct comments}
                 : option (list CommentOrLocalComment) :=
                 match comments with
                 | [] => None
                 | comment :: rest =>
                     match replyIn id localComment comment with
                     | Some comment => Some (comment :: rest)
                     | None => cons comment <$> replyTo rest id localComment
                     end
                 end) replies id localComment
        end
  end.

Fixpoint replyTo (comments : list CommentOrLocalComment) (id : string)
    (localComment : CommentOrLocalComment)
    : option (list CommentOrLocalComment) :=
  match comments with
  | [] => None
  | comment :: rest =>
      match replyIn id localComment comment with
      | Some comment => Some (comment :: rest)
      | None => cons comment <$> replyTo rest id localComment
      end
  end.

(** [CommentForModerationWithIdT]: the id [i] and the comment. *)
Definition CommentForModerationWithIdT : Type :=
  string * CommentForModerationT.

(** What [localStorage] holds under ['comments/' + puzzleId]: it cannot
    be read; there is no item (or an empty one); the item is not JSON;
    it is JSON of another shape; or it is an array of comments. *)
Inductive Storage : Type :=
| Unreadable
| NoItem
| NotJson
| WrongShape
| Held (comments : list CommentForModerationWithIdT).

(** Lines 132-155: [commentsFromStorage]; [JSON.parse] throws on an
    item that is not JSON, and nothing catches it. *)
Definition commentsFromStorage (storage : Storage)
    : option (list CommentForModerationWithIdT) :=
  match storage with
  | Unreadable | NoItem | WrongShape => Some []
  | NotJson => None
  | Held comments => Some comments
  end.

(** Lines 308-318 (the form, once the comment is uploaded under the id
    [c.1]): the comment is added to what the storage holds.  Where the
    storage cannot be read it cannot be written either, and a failing
    [JSON.parse] ends the callback before the write. *)
Definition remember (storage : Storage) (c : CommentForModerationWithIdT)
    : Storage :=
  match storage with
  | Unreadable => Unreadable
  | NotJson => NotJson
  | NoItem | WrongShape => Held [c]
  | Held comments => Held (comments ++ [c])
  end.

(** Lines 517-527 *)
Definition localComment (c : CommentForModerationWithIdT)
    : CommentOrLocalComment :=
  Shown true
        (mkLocal c.1 (Comments.c c.2) (a c.2) (un c.2) (n c.2) (t c.2)
                 (ch c.2) (AdminTimestamp.toMillis (p c.2)))
        None.

(** Lines 503-546: one round of the loop over the stored comments. *)
Definition mergeOne
    (st : list CommentOrLocalComment * list CommentForModerationWithIdT)
    (c : CommentForModerationWithIdT)
    : list CommentOrLocalComment * list CommentForModerationWithIdT :=
  let rebuiltComments := st.1 in
  let toKeepInStorage := st.2 in
  match findCommentById rebuiltComments c.1 with
  | Some moderatedVersion =>
      if isComment moderatedVersion then st
      else (rebuiltComments, toKeepInStorage ++ [c])
  | None =>
      let toKeepInStorage := toKeepInStorage ++ [c] in
      match rt c.2 with
      | None => (rebuiltComments ++ [localComment c], toKeepInStorage)
      | Some parentId =>
          match replyTo rebuiltComments parentId (localComment c) with
          | None => (rebuiltComments, toKeepInStorage)
          | Some rebuiltComments => (rebuiltComments, toKeepInStorage)
          end
      end
  end.

(** Lines 499-561: the effect that merges the stored comments into the
    comments of the page: the comments to show and what the storage
    holds afterwards; [None] when [JSON.parse] has thrown. *)
Definition merge (comments : list CommentOrLocalComment)
    (storage : Storage) : option (list CommentOrLocalComment * Storage) :=
  match commentsFromStorage storage with
  | None => None
  | Some unmoderatedComments =>
      let st := foldl mergeOne (comments, []) unmoderatedComments in
      let toKeepInStorage := st.2 in
      Some (st.1,
            if decide (length toKeepInStorage ≠ length unmoderatedComments)
            then
              if decide (length toKeepInStorage = 0) then NoItem
              else Held toKeepInStorage
            else storage)
  end.

(** The ids that [findCommentById] comes by: those of the comments and,
    below a comment that is not local, those of its replies. *)
Fixpoint idsIn (comment : CommentOrLocalComment) : list string :=
  match comment with
  | Shown isLocal fields replies =>
      Comments.id fields ::
      (if isLocal then []
       else
         match replies with
         | None => []
         | Some replies =>
             (fix visibleIds (comments : list CommentOrLocalComment)
                : list string :=
                match comments with
                | [] => []
                | comment :: rest => idsIn comment ++ visibleIds rest
                end) replies
         end)
  end.

Fixpoint visibleIds (comments : list CommentOrLocalComment) : list string :=
  match comments with
  | [] => []
  | comment :: rest => idsIn comment ++ visibleIds rest
  end.

(** The comments that are not local, wherever they are, without their
    replies, in the order of the tree. *)
Fixpoint moderatedIn (comment : CommentOrLocalComment)
    : list LocalComment :=
  match comment with
  | Shown isLocal fields replies =>
      (if isLocal then [] else [fields]) ++
      match replies with
      | None => []
      | Some replies =>
          (fix moderated (comments : list CommentOrLocalComment)
             : list LocalComment :=
             match comments with
             | [] => []
             | comment :: rest => moderatedIn comment ++ moderated rest
             end) replies
      end
  end.

Fixpoint moderated (comments : list CommentOrLocalComment)
    : list LocalComment :=
  match comments with
  | [] => []
  | comment :: rest => moderatedIn comment ++ moderated rest
  end.

Definition shownFields (comment : CommentOrLocalComment) : LocalComment :=
  match comment with Shown _ fields _ => fields end.

(** What a search for [id] gives, among comments with the visible ids
    [ids] and the moderated comments [mods]. *)
Definition foundAmong (ids : list string) (mods : list LocalComment)
    (id : string) (res : option CommentOrLocalComment) : Prop :=
  match res with
  | Some res =>
      commentId res = id ∧ id ∈ ids
      ∧ (isComment res = true → shownFields res ∈ mods)
  | None => id ∉ ids
  end.

(** What holds in the loop of [merge] once the stored comments
    [processed] have been gone through. *)
Definition mergeInv (comments : list CommentOrLocalComment)
    (processed : list CommentForModerationWithIdT)
    (st : list CommentOrLocalComment * list CommentForModerationWithIdT)
    : Prop :=
  moderated st.1 = moderated comments
  ∧ visibleIds comments ⊆ visibleIds st.1
  ∧ sublist st.2 processed
  ∧ (∀ c, c ∈ processed → c ∉ st.2 →
          ∃ m, m ∈ moderated comments ∧ Comments.id m = c.1)
  ∧ (∀ c, c ∈ processed → rt c.2 = None → c.1 ∈ visibleIds st.1).

(** A moderated comment with a reply, and a store of two comments:
    one has been moderated since and is on the page, the other is a
    new top-level comment. *)
Definition sampleFields (id : string) : LocalComment :=
  mkLocal id [104; 105]%N "uid1" None "Mike" 42 false 1000.

Definition sampleComments : list CommentOrLocalComment :=
  [Shown false (sampleFields "c1")
         (Some [Shown false (sampleFields "c2") None])].

Definition sampleStored (id : string) : CommentForModerationWithIdT :=
  (id, mkComment [104; 105]%N "uid1" "Mike" 42 false
                 (AdminTimestamp.fromMillis 1000) "puzzle1" None None).

Definition sampleStorage : Storage :=
  Held [sampleStored "c2"; sampleStored "c3"].

End CommentList.

(** ** The moderation of comments (the admin page, pages/admin.tsx) *)
Module Admin.

Import Comments.

(** [CommentWithRepliesT]: a comment of a puzzle, under its id [i], with
    its replies [r] if it has any. *)
#[warnings="-register-all"]
Inductive CommentWithRepliesT : Type :=
| WithReplies (i : string) (body : CommentForModerationT)
              (r : option (list CommentWithRepliesT)).

Definition commentId (comment : CommentWithRepliesT) : string :=
  match comment with WithReplies i _ _ => i end.

(** Lines 162-178: [findCommentById] of the admin page. *)
Fixpoint findIn (id : string) (comment : CommentWithRepliesT)
    : option CommentWithRepliesT :=
  match comment with
  | WithReplies i body r =>
      if decide (i = id) then Some comment
      else
        match r with
        | None => None
        | Some r =>
            (fix findCommentById (comments : list CommentWithRepliesT)
               (id : string) {struct comments}
               : option CommentWithRepliesT :=
               match comments with
               | [] => None
               | comment :: rest =>
                   match findIn id comment with
                   | Some res => Some res
                   | None => findCommentById rest id
                   end
               end) r id
        end
  end.

Fixpoint findCommentById (comments : list CommentWithRepliesT)
    (id : string) : option CommentWithRepliesT :=
  match comments with
  | [] => None
  | comment :: rest =>
      match findIn id comment with
      | Some res => Some res
      | None => findCommentById rest id
      end
  end.

(** Lines 251-255: [parent.r.push(comment)], or [parent.r = [comment]],
    for the [parent] that [findCommentById(puzzle.cs, id)] returns: the
    comment is changed in place, where the search finds it. *)
Definition pushReply (comment : CommentWithRepliesT)
    (parent : CommentWithRepliesT) : CommentWithRepliesT :=
  match parent with
  | WithReplies i body r =>
      WithReplies i body
                  (Some (match r with
                         | Some r => r ++ [comment]
                         | None => [comment]
                         end))
  end.

Fixpoint replyIn (id : string) (comment : CommentWithRepliesT)
    (parent : CommentWithRepliesT) : option CommentWithRepliesT :=
  match parent with
  | WithReplies i body r =>
      if decide (i = id) then Some (pushReply comment parent)
      else
        match r with
        | None => None
        | Some r =>
            WithReplies i body ∘ Some <$>
              (fix replyTo (comments : list CommentWithRepliesT)
                 (id : string) (comment : CommentWithRepliesT)
                 {struct comments}
                 : option (list CommentWithRepliesT) :=
                 match comments with
                 | [] => None
                 | parent :: rest =>
                     match replyIn id comment parent with
                     | Some parent => Some (parent :: rest)
                     | None => cons parent <$> replyTo rest id comment
                     end
                 end) r id comment
        end
  end.

Fixpoint replyTo (comments : list CommentWithRepliesT) (id : string)
    (comment : CommentWithRepliesT) : option (list CommentWithRepliesT) :=
  match comments with
  | [] => None
  | parent :: rest =>
      match replyIn id comment parent with
      | Some parent => Some (parent :: rest)
      | None => cons parent <$> replyTo rest id comment
      end
  end.

(** The two collections that [moderateComments] works on: the puzzles
    [c], of which the field [cs] alone matters here, and the moderation
    queue [cfm]. *)
Record Store : Type := mkStore {
  c : gmap string (DocumentData (option (list CommentWithRepliesT)));
  cfm : gmap string CommentForModerationT;
}.

(** How [moderateComments] ends: it completes, or throws
    ['parent comment not found'].  [OnInheritedProperty] stands for a
    run that is not followed to its end: it has come to an approved
    comment whose puzzle id is the name of a property that the cache
    [puzzles], a plain object, inherits from [Object.prototype]; the
    code takes the function (or object) of that name for the cached
    puzzle and goes on with it. *)
Inductive Ending : Type :=
| Completed
| ParentCommentNotFound
| OnInheritedProperty.

(** The comment as it is put into [cs]. *)
Definition asComment (comment : string * CommentForModerationT)
    : CommentWithRepliesT :=
  WithReplies comment.1 comment.2 None.

(** What a round of the loop does for an approved comment: it merges
    the comment into the puzzles loaded so far, or throws, or leaves
    what is followed here. *)
Inductive Approval : Type :=
| Merged (puzzles : gmap string (list CommentWithRepliesT))
| ParentNotFound
| FromPrototype.

(** Lines 240-257: the comment goes to the end of the comments [cs] of
    its puzzle, or below its parent. *)
Definition mergeInto (puzzles : gmap string (list CommentWithRepliesT))
    (cs : list CommentWithRepliesT)
    (comment : string * CommentForModerationT) : Approval :=
  match rt comment.2 with
  | None => Merged (<[pid comment.2 := cs ++ [asComment comment]]> puzzles)
  | Some parentId =>
      match replyTo cs parentId (asComment comment) with
      | None => ParentNotFound
      | Some cs => Merged (<[pid comment.2 := cs]> puzzles)
      end
  end.

(** Lines 228-257: one round of the loop for a comment that is not
    marked for deletion.  [puzzles] holds the own properties of the
    cache, each puzzle with its [cs].  [puzzles[comment.pid]] is the
    cached puzzle if there is one; for the name of an inherited
    property it is the function of that name, which is truthy and is
    taken for the puzzle; otherwise it is [undefined], and the puzzle
    is loaded from its document, if that exists and decodes. *)
Definition approve (db : Store)
    (puzzles : gmap string (list CommentWithRepliesT))
    (comment : string * CommentForModerationT) : Approval :=
  match puzzles !! pid comment.2 with
  | Some fromCache => mergeInto puzzles fromCache comment
  | None =>
      if Js.inherited (pid comment.2) then FromPrototype
      else
        match c db !! pid comment.2 with
        | Some (Shaped cs) => mergeInto puzzles (default [] cs) comment
        | _ => Merged puzzles
        end
  end.

(** Lines 224-261: the loop over the comments to moderate.  The
    document of a comment in [cfm] is deleted at the end of its round,
    whether the comment is marked for deletion or not. *)
Fixpoint moderateLoop
    (commentsForModeration : list (string * CommentForModerationT))
    (commentIdsForDeletion : list string)
    (puzzles : gmap string (list CommentWithRepliesT)) (db : Store)
    : Ending * gmap string (list CommentWithRepliesT) * Store :=
  match commentsForModeration with
  | [] => (Completed, puzzles, db)
  | comment :: rest =>
      match
        (if Js.includes comment.1 commentIdsForDeletion then Merged puzzles
         else approve db puzzles comment)
      with
      | ParentNotFound => (ParentCommentNotFound, puzzles, db)
      | FromPrototype => (OnInheritedProperty, puzzles, db)
      | Merged puzzles =>
          moderateLoop rest commentIdsForDeletion puzzles
                       (mkStore (c db) (delete comment.1 (cfm db)))
      end
  end.

(** Lines 220-270: [moderateComments]: after the loop, the [cs] of
    every puzzle loaded is written to its document. *)
Definition moderateComments
    (commentsForModeration : option (list (string * CommentForModerationT)))
    (commentIdsForDeletion : list string) (db : Store) : Ending * Store :=
  match commentsForModeration with
  | None => (Completed, db)
  | Some commentsForModeration =>
      match moderateLoop commentsForModeration commentIdsForDeletion ∅ db with
      | (Completed, puzzles, db) =>
          (Completed,
           mkStore ((Shaped ∘ Some <$> puzzles) ∪ c db) (cfm db))
      | (ending, _, db) => (ending, db)
      end
  end.

(** The ids of the comments of a puzzle, replies included. *)
Fixpoint idsIn (comment : CommentWithRepliesT) : list string :=
  match comment with
  | WithReplies i _ r =>
      i :: match r with
           | None => []
           | Some r =>
               (fix commentIds (comments : list CommentWithRepliesT)
                  : list string :=
                  match comments with
                  | [] => []
                  | comment :: rest => idsIn comment ++ commentIds rest
                  end) r
           end
  end.

Fixpoint commentIds (comments : list CommentWithRepliesT) : list string :=
  match comments with
  | [] => []
  | comment :: rest => idsIn comment ++ commentIds rest
  end.

(** The ids of the comments of the puzzle [puzzleId] in the store. *)
Definition published (db : Store) (puzzleId : string) : list string :=
  match c db !! puzzleId with
  | Some (Shaped (Some cs)) => commentIds cs
  | _ => []
  end.

(** The comments of the queue that are approved for the puzzle
    [puzzleId], which can be loaded. *)
Definition approvedFor (db : Store)
    (commentsForModeration : list (string * CommentForModerationT))
    (commentIdsForDeletion : list string) (puzzleId id : string) : Prop :=
  (∃ cs, c db !! puzzleId = Some (Shaped cs))
  ∧ ∃ comment, comment ∈ commentsForModeration
               ∧ comment.1 = id ∧ pid comment.2 = puzzleId
               ∧ Js.includes comment.1 commentIdsForDeletion = false.

(** What holds of the puzzles loaded once the comments [processed] have
    been gone through. *)
Definition loaded (db : Store)
    (processed : list (string * CommentForModerationT))
    (commentIdsForDeletion : list string)
    (puzzles : gmap string (list CommentWithRepliesT)) : Prop :=
  (∀ puzzleId cs,
     puzzles !! puzzleId = Some cs →
     (∃ cs0, c db !! puzzleId = Some (Shaped cs0))
     ∧ ∀ id, id ∈ commentIds cs
             ↔ id ∈ published db puzzleId
               ∨ approvedFor db processed commentIdsForDeletion puzzleId id)
  ∧ ∀ puzzleId id,
      approvedFor db processed commentIdsForDeletion puzzleId id →
      is_Some (puzzles !! puzzleId).

(** A queue of three comments for the puzzle [p1], which has the
    comment [c1]: a reply to [c1], a comment marked for deletion, and a
    reply to a comment that is not there. *)
Definition sampleBody (parent : option string) : CommentForModerationT :=
  mkComment [104; 105]%N "uid1" "Mike" 42 false
            (AdminTimestamp.fromMillis 1000) "p1" parent None.

Definition sampleStore : Store :=
  mkStore {[ "p1" := Shaped (Some [WithReplies "c1" (sampleBody None) None]) ]}
          {[ "m1" := sampleBody (Some "c1"); "m2" := sampleBody None;
             "m3" := sampleBody (Some "c9") ]}.

Definition sampleQueue : list (string * CommentForModerationT) :=
  [("m1", sampleBody (Some "c1")); ("m2", sampleBody None)].

Definition sampleFailingQueue : list (string * CommentForModerationT) :=
  sampleQueue ++ [("m3", sampleBody (Some "c9"))].

End Admin.

(** ** The weekly email (app/scripts/generateWeeklyEmail.ts) *)
Module Weekly.

(** A JavaScript object used as a record of values by key: its own
    properties, in the order in which the keys were set. *)
Definition Obj (V : Type) : Type := list (string * V).

(** [a[k]] for a key that [a] has as its own. *)
Fixpoint getKey {V} (a : Obj V) (k : string) : option V :=
  match a with
  | [] => None
  | e :: rest => if decide (e.1 = k) then Some e.2 else getKey rest k
  end.

(** [a[k] = v] *)
Fixpoint setKey {V} (a : Obj V) (k : string) (v : V) : Obj V :=
  match a with
  | [] => [(k, v)]
  | e :: rest => if decide (e.1 = k) then (k, v) :: rest
                 else e :: setKey rest k v
  end.

(** Line 30: [a[k] = (a[k] || 0) + v], for counts that are whole
    numbers.  For a key that [a] has not as its own and that is the
    name of a property of [Object.prototype], [a[k]] is a function, and
    the sum is a text; like a sum that is not exact, this is not
    followed here. *)
Definition addOnto (a : Obj Z) (e : string * Z) : option (Obj Z) :=
  match getKey a e.1 with
  | Some count => setKey a e.1 <$> Js.plus count e.2
  | None =>
      if Js.inherited e.1 then None
      else setKey a e.1 <$> Js.plus 0 e.2
  end.

Fixpoint sumEntries (a : Obj Z) (entries : list (string * Z))
    : option (Obj Z) :=
  match entries with
  | [] => Some a
  | e :: rest =>
      match addOnto a e with
      | Some a => sumEntries a rest
      | None => None
      end
  end.

(** Lines 22-32 *)
Definition sumOnto (a : Obj Z) (b : option (Obj Z)) : option (Obj Z) :=
  match b with
  | None => Some a
  | Some b => sumEntries a (Js.ownEntries b)
  end.

(** Lines 34-42: [Object.assign(a, b)] *)
Definition replaceOnto {V} (a : Obj V) (b : option (Obj V)) : Obj V :=
  match b with
  | None => a
  | Some b => foldl (λ a e, setKey a e.1 e.2) a (Js.ownEntries b)
  end.

(** [DailyStatsT], of which the counts [c] and the titles [i] are
    read. *)
Record DailyStatsT : Type := mkStats {
  c : option (Obj Z);
  i : option (Obj (string * string * string));
}.

(** The collection [ds]: the document of the day that is a number of
    days before today, if there is one. *)
Definition DailyStats : Type := nat → option (DocumentData DailyStatsT).

(** Lines 50-65: the rounds of the loop that are left, with the day
    that [d] stands at.  A day without document ends the round before
    [d] is moved. *)
Fixpoint readDays (ds : DailyStats) (rounds daysAgo : nat)
    (totals : Obj Z * Obj (string * string * string))
    : option (Obj Z * Obj (string * string * string)) :=
  match rounds with
  | 0 => Some totals
  | S rounds =>
      match ds daysAgo with
      | None => readDays ds rounds daysAgo totals
      | Some data =>
          match decode data with
          | Right stats =>
              match sumOnto totals.1 (c stats) with
              | Some totalC =>
                  readDays ds rounds (S daysAgo)
                           (totalC, replaceOnto totals.2 (i stats))
              | None => None
              end
          | Left _ => readDays ds rounds (S daysAgo) totals
          end
      end
  end.

(** Lines 47-65: [totalC] and [allIs] after the loop of
    [topPuzzlesForWeek]. *)
Definition weekTotals (ds : DailyStats)
    : option (Obj Z * Obj (string * string * string)) :=
  readDays ds 7 0 ([], []).

(** The fields of [DBPuzzleT] that the script reads. *)
Record PuzzleT : Type := mkPuzzle {
  t : string;
  n : string;
  w : Z;
  h : Z;
  pv : option bool;
  pvu : option Timestamp;
}.

(** Lines 72-83: the puzzle of an entry of the totals, if its document
    exists and decodes. *)
Definition loadPuzzle (puzzles : gmap string (DocumentData PuzzleT))
    (entry : string * Z) : option (PuzzleT * string) :=
  match puzzles !! entry.1 with
  | Some (Shaped puzzle) => Some (puzzle, entry.1)
  | _ => None
  end.

(** Lines 87-98, at the time [now] in milliseconds. *)
Definition listable (now : Z) (p : option (PuzzleT * string)) : bool :=
  match p with
  | None => false
  | Some (puzzle, _) =>
      if bool_decide (pv puzzle = Some true) then false
      else
        match pvu puzzle with
        | Some until =>
            if (now <? AdminTimestamp.toDate until)%Z then false else true
        | None => true
        end
  end.

(** Lines 99-108; the filter has removed [null]. *)
Definition listing (p : option (PuzzleT * string))
    : option (string * string * bool) :=
  match p with
  | None => None
  | Some (puzzle, id) =>
      Some ("https://crosshare.org/crosswords/" +:+ id,
            t puzzle +:+ " by " +:+ n puzzle,
            (w puzzle <=? 8)%Z && (h puzzle <=? 8)%Z)
  end.

(** Lines 109-116: the callback of [reduce]. *)
Definition bySize (res : list (string * string) * list (string * string))
    (val : string * string * bool)
    : list (string * string) * list (string * string) :=
  if val.2 then (res.1, res.2 ++ [(val.1.1, val.1.2)])
  else (res.1 ++ [(val.1.1, val.1.2)], res.2).

(** Lines 66-117: [topPuzzlesForWeek] after the loop: the fifteen
    puzzles with the highest totals are loaded, those that may be
    listed are kept, and the minis are set apart. *)
Definition topPuzzles (totalC : Obj Z)
    (puzzles : gmap string (DocumentData PuzzleT)) (now : Z)
    : list (string * string) * list (string * string) :=
  let top := Js.slice (Js.sort (λ a b : string * Z, (b.2 - a.2)%Z) totalC)
                      0 15 in
  let loadedPuzzles := loadPuzzle puzzles <$> top in
  let vals := omap listing (List.filter (listable now) loadedPuzzles) in
  foldl bySize ([], []) vals.

Definition topPuzzlesForWeek (ds : DailyStats)
    (puzzles : gmap string (DocumentData PuzzleT)) (now : Z)
    : option (list (string * string) * list (string * string)) :=
  match weekTotals ds with
  | Some totals => Some (topPuzzles (Js.ownEntries totals.1) puzzles now)
  | None => None
  end.

(** The count of the puzzle [k] in the counts [b] of a day, in the
    document of a day, and over [n] days from the day [from] on. *)
Definition counted (b : option (Obj Z)) (k : string) : Z :=
  match b with
  | None => 0%Z
  | Some b =>
      foldr (λ e acc, if decide (e.1 = k) then (e.2 + acc)%Z else acc) 0%Z b
  end.

Definition dayCount (doc : option (DocumentData DailyStatsT)) (k : string)
    : Z :=
  match doc with
  | Some (Shaped stats) => counted (c stats) k
  | _ => 0%Z
  end.

Definition sumDays (ds : DailyStats) (k : string) (from n : nat) : Z :=
  foldr Z.add 0%Z ((λ day, dayCount (ds day) k) <$> seq from n).

(** The counts that the documents of [n] days from the day [from] on
    hold, for all puzzles. *)
Definition dayEntries (doc : option (DocumentData DailyStatsT)) : Obj Z :=
  match doc with
  | Some (Shaped stats) => default [] (c stats)
  | _ => []
  end.

Definition weekEntries (ds : DailyStats) (from n : nat) : Obj Z :=
  concat ((λ day, dayEntries (ds day)) <$> seq from n).

(** All the counts together. *)
Fixpoint total (entries : Obj Z) : Z :=
  match entries with
  | [] => 0%Z
  | e :: rest => (e.2 + total rest)%Z
  end.

(** Counts that the totals can be followed on: no puzzle id is the
    name of a property of [Object.prototype], no count is negative,
    and all the counts together are a number that is held exactly. *)
Definition countable (entries : Obj Z) : Prop :=
  Forall (λ e, Js.inherited e.1 = false ∧ (0 ≤ e.2)%Z) entries
  ∧ (total entries ≤ 2 ^ 53)%Z.

(** The totals are within [limit]. *)
Definition within (limit : Z) (a : Obj Z) : Prop :=
  ∀ k, (0 ≤ default 0 (getKey a k) ≤ limit)%Z.

(** Stats for yesterday and the day before, none for today. *)
Definition sampleStats (daysAgo : nat) : option (DocumentData DailyStatsT) :=
  match daysAgo with
  | 1 => Some (Shaped (mkStats (Some [("p1", 3%Z)]) None))
  | 2 => Some (Shaped (mkStats (Some [("p1", 2%Z); ("p2", 5%Z)]) None))
  | _ => None
  end.

(** Stats for today and yesterday, none for the day before. *)
Definition sampleStats' (daysAgo : nat) : option (DocumentData DailyStatsT) :=
  match daysAgo with
  | 0 => Some (Shaped (mkStats (Some [("p1", 3%Z)]) None))
  | 1 => Some (Shaped (mkStats (Some [("p1", 2%Z); ("p2", 5%Z)]) None))
  | _ => None
  end.

(** [p1] is public and [p2] is private. *)
Definition samplePuzzles : gmap string (DocumentData PuzzleT) :=
  {[ "p1" := Shaped (mkPuzzle "One" "Mike" 5 5 None None);
     "p2" := Shaped (mkPuzzle "Two" "Mike" 15 15 (Some true) None) ]}.

End Weekly.

(** ** The daily run of the notification digest: [queueEmails] *)

(** [update({ e: true })] on a notification. *)
Definition markEmailed (n : NotificationT) : NotificationT :=
  let upd b :=
    NotificationBase.mk (NotificationBase.id b) (NotificationBase.u b)
                        (NotificationBase.r b) true in
  match n with
  | CommentNotification b p pn cn => CommentNotification (upd b) p pn cn
  | ReplyNotification b p pn cn => ReplyNotification (upd b) p pn cn
  | NewPuzzleNotification b p pn an => NewPuzzleNotification (upd b) p pn an
  | FeaturedNotification b p pn a => FeaturedNotification (upd b) p pn a
  end.

(** [Promise.all(e[1].map((n) => db.doc(`n/${n.id}`).update({ e: true })))],
    as [markAllRead]. *)
Definition markAllEmailed (ns : list NotificationT) : Fire unit :=
  λ db,
    let db' :=
      with_coll_n (λ coll,
        foldl (λ coll n, alter markEmailed (NotificationBase.id (base n)) coll)
              coll ns) db in
    match list_find (λ n, coll_n db !! NotificationBase.id (base n) = None)
                    ns with
    | Some (_, n) =>
        (Throws (NotFound ("n/" +:+ NotificationBase.id (base n))), db')
    | None => (Returns (), db')
    end.

(** Lines 813-819: the unread notifications by user, the users in the
    order in which their first notification comes; the [reduce] throws
    on a user id that is the name of an inherited property. *)
Definition byUser (unread : list NotificationT)
    : Outcome (list (string * list NotificationT)) :=
  reduceBy (λ x, NotificationBase.u (base x)) unread [].

(** The users that have an unread notification, each once. *)
Definition usersOf (unread : list NotificationT) : list string :=
  Js.fromSet ((λ x, NotificationBase.u (base x)) <$> unread) [].

Section DailyRun.

Context (localeCompare : string → string → Z)
        (markdownToHtml : string → string).

(** Lines 822-826: the digest of one user, and then the flags [e] of
    the user's notifications, which [queueEmailForUser] has sorted in
    place. *)
Definition queueEmailsFor (e : string * list NotificationT) : Fire unit :=
  let* _ := queueEmailForUser localeCompare markdownToHtml e.1 e.2 in
  markAllEmailed
    (Js.sort (λ n1 n2, localeCompare (NotificationBase.id (base n1))
                                     (NotificationBase.id (base n2)))
             e.2).

(** Lines 821-827: [Promise.all] over the users: the digests of all
    users are gone through, here one after the other; the run is
    rejected if one of them is, with the first rejection. *)
Definition queueNext (acc : Outcome unit * Firestore)
    (e : string * list NotificationT) : Outcome unit * Firestore :=
  let res := queueEmailsFor e acc.2 in
  (match acc.1 with
   | Throws err => Throws err
   | Returns _ => res.1
   end, res.2).

Definition queueAll (entries : list (string * list NotificationT))
    : Fire unit :=
  λ db, foldl queueNext (Returns (), db) entries.

(** Lines 801-828: [queueEmails], for the answer [unread] of
    [mapEachResult] to the query for the notifications with [e] and [r]
    false that are due. *)
Definition queueEmails (unread : Either Error (list NotificationT))
    : Fire unit :=
  match unread with
  | Left err => throw err
  | Right unread =>
      let* unreadsByUserId := lift (byUser unread) in
      queueAll (Js.ownEntries unreadsByUserId)
  end.

End DailyRun.

(** The flag [e] of a document of the collection [n], if it exists. *)
Definition emailed (doc : option NotificationT) : option bool :=
  NotificationBase.e ∘ base <$> doc.

(** Two users: [u1] of the digest sample, and [u2], who has one
    notification and no address. *)
Module DailySample.

Definition other : NotificationT :=
  FeaturedNotification (NotificationBase.mk "n4" "u2" false false)
                       "p3" "Puzzle Three" None.

Definition unread : list NotificationT :=
  DigestSample.notifications ++ [other].

(** A notification for a user whose id is ['toString']. *)
Definition clashingUser : NotificationT :=
  FeaturedNotification (NotificationBase.mk "n6" "toString" false false)
                       "p3" "Puzzle Three" None.

Definition store : Firestore :=
  mkFirestore ∅ ∅ (λ _, Right [])
    {[ "u1" := Shaped (mkPrefs (Some ["newpuzzles"])) ]}
    {[ "u1" := mkUser (Some "solver@example.org"); "u2" := mkUser None ]}
    []
    (list_to_map ((λ n, (NotificationBase.id (base n), n)) <$> unread)).

End DailySample.

(* ===================================================================== *)
(** * Part II: properties                                                 *)
(* ===================================================================== *)

(** ** The index builder, step by step *)
Section IndexBuilderFacts.

Context {Puzzle : Type} (puzzleFromDB : DBPuzzleT → Puzzle).

Lemma loadIndex_run (db : Firestore) (indexDocId : string) :
  loadIndex indexDocId db =
    match coll_i db !! indexDocId with
    | Some Misshaped => (Throws (FailedToValidateIndex indexDocId), db)
    | _ => (Returns (persistedIndex db indexDocId), db)
    end.
Proof.
  unfold loadIndex, persistedIndex, bind, get_i, ret, throw.
  destruct (coll_i db !! indexDocId) as [[index|]|]; reflexivity.
Qed.

Lemma assemblePage_run (newPuzzles : list (DBPuzzleT * string))
    (entriesForPage : list string) (puzzles : list PuzzleResult)
    (db : Firestore) :
  assemblePage puzzleFromDB newPuzzles entriesForPage puzzles db =
    (Returns (puzzles ++ omap (fetch puzzleFromDB db newPuzzles) entriesForPage),
     db).
Proof.
  revert puzzles.
  induction entriesForPage as [|puzzleId rest IH]; intros puzzles; simpl.
  - by rewrite app_nil_r.
  - unfold fetch at 1.
    destruct (findNew newPuzzles puzzleId) as [alreadyHave|].
    + by rewrite IH, <- app_assoc.
    + unfold bind, get_c.
      destruct (coll_c db !! puzzleId) as [[validated|]|]; simpl;
        rewrite IH; by rewrite <- ?app_assoc.
Qed.

Lemma updateIndex_run (indexDocId : string) (index : PuzzleIndexT)
    (newPuzzles : list (DBPuzzleT * string)) (db : Firestore) :
  updateIndex indexDocId index newPuzzles db =
    match newPuzzles with
    | [] => (Returns (index, []), db)
    | _ :: _ =>
        (Returns (updatedIndex index newPuzzles, reverse newPuzzles),
         with_coll_i (insert indexDocId
                        (Shaped (updatedIndex index newPuzzles))) db)
    end.
Proof. by destruct newPuzzles. Qed.

(** The whole call, as one case distinction. *)
Lemma getPuzzlesForPage_run (indexDocId queryField : string)
    (queryValue : QueryValue) (page page_size : Z) (now : Timestamp)
    (db : Firestore) :
  getPuzzlesForPage puzzleFromDB indexDocId queryField queryValue
                    page page_size now db =
    match coll_i db !! indexDocId with
    | Some Misshaped => (Throws (FailedToValidateIndex indexDocId), db)
    | _ =>
        let index := persistedIndex db indexDocId in
        match mapEachResult db (buildQuery queryField queryValue index) with
        | Left err => (Throws err, db)
        | Right rows =>
            let newPuzzles := notIndexed index rows in
            let db' := storeAfter db indexDocId newPuzzles in
            match filterPrivate (updatedIndex index newPuzzles) now with
            | Throws err => (Throws err, db')
            | Returns idsAndTimes =>
                (Returns
                   (omap (fetch puzzleFromDB db' (reverse newPuzzles))
                         (pageEntries (sortByTime idsAndTimes)
                                      page page_size),
                    length (sortByTime idsAndTimes)),
                 db')
            end
        end
    end.
Proof.
  unfold getPuzzlesForPage.
  unfold bind at 1. rewrite loadIndex_run.
  destruct (coll_i db !! indexDocId) as [[stored|]|] eqn:Hdoc;
    try reflexivity;
    cbv zeta; unfold bind at 1, run_query;
    (destruct (mapEachResult db _) as [err|rows]; [reflexivity|]);
    unfold bind at 1; rewrite updateIndex_run;
    unfold storeAfter, updatedIndex;
    (destruct (notIndexed _ rows) as [|new1 new] eqn:Hnew;
     [ simpl fst; simpl snd; simpl reverse; simpl foldl
     | simpl fst; simpl snd ]);
    unfold bind at 1, lift;
    (destruct (filterPrivate _ now) as [idsAndTimes|err]; [|reflexivity]);
    unfold bind, ret; rewrite assemblePage_run; reflexivity.
Qed.

End IndexBuilderFacts.

(** ** The privacy filter *)
Section PrivacyFilter.

Context (index : PuzzleIndexT) (now : Timestamp).

Lemma splice1_past {A} (k : nat) (arr : list A) :
  length arr ≤ k → Js.splice1 k arr = arr.
Proof.
  unfold Js.splice1. revert k.
  induction arr as [|x arr IH]; intros [|k] Hk; simpl in *;
    try reflexivity; try lia.
  f_equal. apply IH. lia.
Qed.

Lemma alter_past {A} (f : A → A) (k : nat) (arr : list A) :
  length arr ≤ k → alter f k arr = arr.
Proof.
  revert k.
  induction arr as [|x arr IH]; intros [|k] Hk; simpl in *;
    try reflexivity; try lia.
  f_equal. apply IH. lia.
Qed.

(** One round of the loop either throws on an orphan or leaves the
    array to [splice], to the assignment or alone, as [keep] says. *)
Lemma filterEntry_cases (idsAndTimes : list (string * Timestamp))
    (k : nat) (pid : string) :
  filterEntry index now idsAndTimes (k, pid) =
    if orphan index pid then Throws (MissingFromPvut pid)
    else
      Returns
        (if optIncludes pid (PuzzleIndex.pv index) then
           Js.splice1 k idsAndTimes
         else
           match goLive index pid with
           | Some goLiveTime =>
               if AdminTimestamp.gt goLiveTime now then
                 Js.splice1 k idsAndTimes
               else alter (λ valAt, (valAt.1, goLiveTime)) k idsAndTimes
           | None => idsAndTimes
           end).
Proof.
  unfold filterEntry, orphan, goLive, optIncludes.
  destruct index as [t i [pv|] [pvui|] [pvut|]]; simpl;
    repeat match goal with
           | |- context [Js.includes ?x ?l] =>
               destruct (Js.includes x l) eqn:?; simpl
           | |- context [Js.at_ ?l ?k] =>
               destruct (Js.at_ l k) eqn:?; simpl
           | |- context [AdminTimestamp.gt ?a ?b] =>
               destruct (AdminTimestamp.gt a b) eqn:?; simpl
           end; reflexivity.
Qed.

Lemma filterEntry_at (pre post : list (string * Timestamp))
    (pid : string) (ts : Timestamp) :
  filterEntry index now (pre ++ (pid, ts) :: post) (length pre, pid) =
    if orphan index pid then Throws (MissingFromPvut pid)
    else Returns (pre ++ option_list (keep index now (pid, ts)) ++ post).
Proof.
  rewrite filterEntry_cases. destruct (orphan index pid); [reflexivity|].
  f_equal. unfold keep, Js.splice1. simpl.
  destruct (optIncludes pid (PuzzleIndex.pv index)).
  { by rewrite delete_middle. }
  destruct (goLive index pid) as [goLiveTime|]; [|reflexivity].
  destruct (AdminTimestamp.gt goLiveTime now).
  { by rewrite delete_middle. }
  rewrite <- (Nat.add_0_r (length pre)) at 1.
  by rewrite alter_app_r.
Qed.

Lemma filterEntry_past (idsAndTimes : list (string * Timestamp))
    (k : nat) (pid : string) :
  length idsAndTimes ≤ k →
  filterEntry index now idsAndTimes (k, pid) =
    if orphan index pid then Throws (MissingFromPvut pid)
    else Returns idsAndTimes.
Proof.
  intros Hk. rewrite filterEntry_cases.
  destruct (orphan index pid); [reflexivity|].
  repeat case_match; by rewrite ?splice1_past, ?alter_past.
Qed.

(** The loop over a stretch [ids] of the index that starts at position
    [length pre]: the pairs in front of the stretch and the pairs
    already dealt with behind it are left alone. *)
Lemma filterLoop_stretch (ids : list string) :
  ∀ (ts : list Timestamp) (pre post : list (string * Timestamp)),
    post = [] ∨ length ids ≤ length ts →
    filterLoop index now
      (reverse (imap (λ j pid, (length pre + j, pid)) ids))
      (pre ++ zip ids ts ++ post) =
    match last (List.filter (orphan index) ids) with
    | Some pid => Throws (MissingFromPvut pid)
    | None => Returns (pre ++ omap (keep index now) (zip ids ts) ++ post)
    end.
Proof.
  induction ids as [|pid ids IH] using rev_ind; intros ts pre post Hlen.
  { reflexivity. }
  rewrite imap_app, reverse_app. simpl imap.
  change (reverse [(length pre + (length ids + 0), pid)])
    with [(length pre + (length ids + 0), pid)].
  rewrite List.filter_app, Nat.add_0_r. simpl List.filter.
  cbn [app filterLoop].
  destruct (decide (length ids < length ts)) as [Hlt|Hge].
  - (* the pair at this position exists *)
    destruct (lookup_lt_is_Some_2 ts (length ids) Hlt) as [tx Htx].
    pose proof (take_drop_middle ts (length ids) tx Htx) as Hts.
    assert (length ids = length (take (length ids) ts)) as Hsame.
    { rewrite length_take. lia. }
    revert Hts Hsame.
    generalize (take (length ids) ts) (drop (S (length ids)) ts).
    intros ts1 ts2 <- Hsame. clear Htx Hlt Hlen.
    rewrite zip_with_app by done. simpl zip_with.
    assert (length (pre ++ zip ids ts1) = length pre + length ids) as Hpos.
    { rewrite length_app, length_zip_with. lia. }
    rewrite <- !(app_assoc _ [(pid, tx)]). simpl app.
    rewrite (app_assoc pre), <- Hpos, filterEntry_at.
    destruct (orphan index pid) eqn:Horph.
    + by rewrite last_snoc.
    + rewrite app_nil_r, <- app_assoc.
      rewrite IH by (right; lia).
      destruct (last (List.filter (orphan index) ids)); [reflexivity|].
      rewrite omap_app. simpl omap.
      destruct (keep index now (pid, tx)); simpl;
        by rewrite <- ?app_assoc.
  - (* the index is longer than the list of times *)
    assert (post = []) as -> by (destruct Hlen as [?|Hlen]; [done|];
      rewrite length_app in Hlen; simpl in Hlen; lia).
    rewrite zip_with_app_l.
    rewrite (drop_ge ts) by lia. rewrite zip_with_nil_r, !app_nil_r.
    rewrite take_ge by lia.
    rewrite filterEntry_past
      by (rewrite length_app, length_zip_with; lia).
    destruct (orphan index pid) eqn:Horph.
    + by rewrite last_snoc.
    + rewrite app_nil_r.
      specialize (IH ts pre [] (or_introl eq_refl)).
      rewrite !app_nil_r in IH. exact IH.
Qed.

(** The working list: the pairs of ids and times, each kept, retimed or
    dropped by [keep], unless the filter throws on an orphan. *)
Lemma filterPrivate_run :
  filterPrivate index now =
    match last (List.filter (orphan index) (PuzzleIndex.i index)) with
    | Some pid => Throws (MissingFromPvut pid)
    | None =>
        Returns (omap (keep index now)
                      (zip (PuzzleIndex.i index) (PuzzleIndex.t index)))
    end.
Proof.
  unfold filterPrivate, Js.entries.
  pose proof (filterLoop_stretch (PuzzleIndex.i index)
                (PuzzleIndex.t index) [] [] (or_introl eq_refl)) as H.
  simpl in H. rewrite !app_nil_r in H. exact H.
Qed.

End PrivacyFilter.

(** ** Sorting by time *)
Section Sorting.

Context {A : Type}.

Lemma insert_by_perm (cmp : A → A → Z) (x : A) (sorted : list A) :
  Js.insert_by cmp x sorted ≡ₚ x :: sorted.
Proof.
  induction sorted as [|y rest IH]; simpl; [done|].
  destruct (cmp x y <=? 0)%Z; [done|].
  rewrite IH. apply Permutation_swap.
Qed.

Lemma sort_perm (cmp : A → A → Z) (arr : list A) : Js.sort cmp arr ≡ₚ arr.
Proof.
  induction arr as [|x arr IH]; simpl; [done|].
  rewrite insert_by_perm. by f_equiv.
Qed.

Lemma sort_length (cmp : A → A → Z) (arr : list A) :
  length (Js.sort cmp arr) = length arr.
Proof. apply Permutation_length, sort_perm. Qed.

(** With a comparator [key b - key a], larger keys come first. *)
Context (key : A → Z).

Lemma insert_by_sorted (x : A) (sorted : list A) :
  StronglySorted (λ a b, (key b ≤ key a)%Z) sorted →
  StronglySorted (λ a b, (key b ≤ key a)%Z)
    (Js.insert_by (λ a b, key b - key a)%Z x sorted).
Proof.
  induction 1 as [|y rest Hrest IH Hy]; simpl.
  { repeat constructor. }
  destruct (key y - key x <=? 0)%Z eqn:Hcmp.
  - apply Z.leb_le in Hcmp.
    constructor; [by constructor|].
    constructor; [lia|].
    eapply Forall_impl; [exact Hy|]. simpl. intros; lia.
  - apply Z.leb_gt in Hcmp.
    constructor; [exact IH|].
    rewrite insert_by_perm.
    constructor; [lia|exact Hy].
Qed.

Lemma sort_sorted (arr : list A) :
  StronglySorted (λ a b, (key b ≤ key a)%Z)
                 (Js.sort (λ a b, key b - key a)%Z arr).
Proof.
  induction arr as [|x arr IH]; simpl; [constructor|].
  by apply insert_by_sorted.
Qed.

End Sorting.

(** ** The clock of the privacy filter *)
Section FilterClock.

Context {Puzzle : Type} (puzzleFromDB : DBPuzzleT → Puzzle).

Lemma at_elem_of {A} (arr : list A) (k : Z) (x : A) :
  Js.at_ arr k = Some x → x ∈ arr.
Proof.
  unfold Js.at_. destruct (k <? 0)%Z; [done|].
  apply list_elem_of_lookup_2.
Qed.

Lemma goLive_elem_of (index : PuzzleIndexT) (pid : string) (g : Timestamp) :
  goLive index pid = Some g → g ∈ default [] (PuzzleIndex.pvut index).
Proof.
  unfold goLive.
  destruct (PuzzleIndex.pvui index) as [pvui|]; [|done].
  destruct (PuzzleIndex.pvut index) as [pvut|]; [|done].
  destruct (Js.includes pid pvui); [|done].
  apply at_elem_of.
Qed.

(** Two clock readings that agree on which go-live times are still
    ahead give the same working list. *)
Lemma filterPrivate_clock (index : PuzzleIndexT) (now1 now2 : Timestamp) :
  (∀ g, g ∈ default [] (PuzzleIndex.pvut index) →
        AdminTimestamp.gt g now1 = AdminTimestamp.gt g now2) →
  filterPrivate index now1 = filterPrivate index now2.
Proof.
  intros Hclock. rewrite !filterPrivate_run.
  destruct (last _); [reflexivity|]. f_equal.
  apply list_omap_ext, Forall2_same_length_lookup_2; [done|].
  intros k [pid ts] entry Hk Hk'. simplify_eq. unfold keep. simpl.
  destruct (optIncludes pid (PuzzleIndex.pv index)); [reflexivity|].
  destruct (goLive index pid) as [g|] eqn:Hg; [|reflexivity].
  by rewrite (Hclock g (goLive_elem_of index pid g Hg)).
Qed.

End FilterClock.

(** ** What the index builder guarantees *)
Section IndexBuilderTheorems.

Context {Puzzle : Type} (puzzleFromDB : DBPuzzleT → Puzzle).

Lemma newDocuments_nil_run (indexDocId queryField : string)
    (queryValue : QueryValue) (page page_size : Z) (now : Timestamp)
    (db : Firestore) :
  newDocuments db indexDocId queryField queryValue = [] →
  getPuzzlesForPage puzzleFromDB indexDocId queryField queryValue
                    page page_size now db =
    match coll_i db !! indexDocId with
    | Some Misshaped => (Throws (FailedToValidateIndex indexDocId), db)
    | _ =>
        let index := persistedIndex db indexDocId in
        match mapEachResult db (buildQuery queryField queryValue index) with
        | Left err => (Throws err, db)
        | Right rows =>
            match filterPrivate index now with
            | Throws err => (Throws err, db)
            | Returns idsAndTimes =>
                (Returns
                   (omap (fetch puzzleFromDB db [])
                         (pageEntries (sortByTime idsAndTimes)
                                      page page_size),
                    length (sortByTime idsAndTimes)),
                 db)
            end
        end
    end.
Proof.
  intros Hnew. rewrite getPuzzlesForPage_run. unfold newDocuments in Hnew.
  destruct (coll_i db !! indexDocId) as [[stored|]|]; try reflexivity;
    cbv zeta in *;
    (destruct (mapEachResult db _) as [err|rows]; [reflexivity|]);
    by rewrite Hnew.
Qed.

(** C1 (as amended).  When the query finds nothing new, and the two
    clock readings agree on which go-live times of the index are still
    ahead, two calls in a row return the same puzzles and the same
    total, and both leave the store, and so the persisted index, as it
    was. *)
Theorem getPuzzlesForPage_idempotent (indexDocId queryField : string)
    (queryValue : QueryValue) (page page_size : Z) (now1 now2 : Timestamp)
    (db : Firestore) :
  newDocuments db indexDocId queryField queryValue = [] →
  (∀ g, g ∈ default [] (PuzzleIndex.pvut (persistedIndex db indexDocId)) →
        AdminTimestamp.gt g now1 = AdminTimestamp.gt g now2) →
  let first := getPuzzlesForPage puzzleFromDB indexDocId queryField
                                 queryValue page page_size now1 db in
  let second := getPuzzlesForPage puzzleFromDB indexDocId queryField
                                  queryValue page page_size now2 first.2 in
  first.2 = db ∧ second.2 = db ∧ second.1 = first.1.
Proof.
  intros Hnew Hclock first second.
  assert (first.2 = db) as Hfirst.
  { subst first. rewrite newDocuments_nil_run by done. cbv zeta.
    repeat case_match; reflexivity. }
  subst second. rewrite Hfirst. subst first.
  rewrite !newDocuments_nil_run by done.
  cbv zeta. rewrite (filterPrivate_clock _ now1 now2 Hclock).
  repeat case_match; done.
Qed.

(** C2 (as amended).  An index document that fails shape validation
    makes the call throw 'failed to validate index' and leaves the
    store as it was; an empty index is started only when there is no
    index document. *)
Theorem getPuzzlesForPage_misshaped_index (indexDocId queryField : string)
    (queryValue : QueryValue) (page page_size : Z) (now : Timestamp)
    (db : Firestore) :
  (coll_i db !! indexDocId = Some Misshaped →
   getPuzzlesForPage puzzleFromDB indexDocId queryField queryValue
                     page page_size now db
   = (Throws (FailedToValidateIndex indexDocId), db))
  ∧ (coll_i db !! indexDocId = None →
     loadIndex indexDocId db = (Returns emptyIndex, db)).
Proof.
  split; intros Hdoc.
  - by rewrite getPuzzlesForPage_run, Hdoc.
  - rewrite loadIndex_run. unfold persistedIndex. by rewrite Hdoc.
Qed.

(** C3.  Whenever the working list is built, it holds no id of the
    permanently private list and no private-until id whose go-live time
    is later than the current time, and it holds, under its go-live
    time, every private-until id of the index whose go-live time is not
    later than the current time.  The list is built unless some
    private-until id lacks its go-live time. *)
Theorem filterPrivate_privacy (index : PuzzleIndexT) (now : Timestamp) :
  (List.filter (orphan index) (PuzzleIndex.i index) = [] →
   ∃ idsAndTimes, filterPrivate index now = Returns idsAndTimes)
  ∧ ∀ idsAndTimes, filterPrivate index now = Returns idsAndTimes →
      (∀ pid, optIncludes pid (PuzzleIndex.pv index) = true →
              pid ∉ idsAndTimes.*1)
      ∧ (∀ pid goLiveTime,
           goLive index pid = Some goLiveTime →
           AdminTimestamp.gt goLiveTime now = true →
           pid ∉ idsAndTimes.*1)
      ∧ (∀ pid ts goLiveTime,
           (pid, ts) ∈ zip (PuzzleIndex.i index) (PuzzleIndex.t index) →
           optIncludes pid (PuzzleIndex.pv index) = false →
           goLive index pid = Some goLiveTime →
           AdminTimestamp.gt goLiveTime now = false →
           (pid, goLiveTime) ∈ idsAndTimes).
Proof.
  rewrite filterPrivate_run. split.
  { intros ->. simpl. eauto. }
  intros idsAndTimes Hrun.
  destruct (last _); [done|]. injection Hrun as <-.
  split; [|split].
  - intros pid Hpv [[pid' ts] [-> Hin]]%list_elem_of_fmap.
    apply list_elem_of_omap in Hin as ([pid0 ts0] & _ & Hkeep).
    unfold keep in Hkeep. simpl in *.
    destruct (optIncludes pid0 (PuzzleIndex.pv index)) eqn:Hpv0; [done|].
    destruct (goLive index pid0) as [g|];
      [destruct (AdminTimestamp.gt g now); [done|]|];
      simplify_eq; congruence.
  - intros pid g Hg Hgt [[pid' ts] [-> Hin]]%list_elem_of_fmap.
    apply list_elem_of_omap in Hin as ([pid0 ts0] & _ & Hkeep).
    unfold keep in Hkeep. simpl in *.
    destruct (optIncludes pid0 (PuzzleIndex.pv index)); [done|].
    destruct (goLive index pid0) as [g0|] eqn:Hg0;
      [destruct (AdminTimestamp.gt g0 now) eqn:Hgt0; [done|]|];
      simplify_eq; congruence.
  - intros pid ts g Hin Hpv Hg Hgt.
    apply list_elem_of_omap. exists (pid, ts). split; [done|].
    unfold keep. simpl. by rewrite Hpv, Hg, Hgt.
Qed.

Lemma persistedIndex_storeAfter (db : Firestore) (indexDocId : string)
    (newPuzzles : list (DBPuzzleT * string)) :
  coll_i db !! indexDocId ≠ Some Misshaped →
  persistedIndex (storeAfter db indexDocId newPuzzles) indexDocId
  = updatedIndex (persistedIndex db indexDocId) newPuzzles.
Proof.
  intros Hdoc. destruct newPuzzles as [|new1 new]; [reflexivity|].
  unfold storeAfter, persistedIndex at 1, with_coll_i. simpl coll_i.
  by rewrite lookup_insert_eq.
Qed.

Lemma findNew_id (newPuzzles : list (DBPuzzleT * string))
    (puzzleId : string) (found : DBPuzzleT * string) :
  findNew newPuzzles puzzleId = Some found → found.2 = puzzleId.
Proof.
  unfold findNew. intros Hfind.
  apply fmap_Some in Hfind as ([k x] & Hfind & ->).
  by apply list_find_Some in Hfind as (_ & ? & _).
Qed.

Lemma fetch_ids (db : Firestore) (newPuzzles : list (DBPuzzleT * string))
    (entriesForPage : list string) :
  (omap (fetch puzzleFromDB db newPuzzles) entriesForPage).*2
  = List.filter (readable db newPuzzles) entriesForPage.
Proof.
  induction entriesForPage as [|puzzleId rest IH]; [reflexivity|].
  cbn [omap list_omap List.filter]. unfold fetch at 1, readable at 1.
  destruct (findNew newPuzzles puzzleId) as [found|] eqn:Hfind.
  - rewrite fmap_cons. cbn [snd]. by rewrite IH, (findNew_id _ _ _ Hfind).
  - destruct (coll_c db !! puzzleId) as [[validated|]|];
      rewrite ?fmap_cons; cbn [snd]; by rewrite IH.
Qed.

Lemma slice_page {A} (arr : list A) (page page_size : Z) :
  (0 ≤ page)%Z → (0 ≤ page_size)%Z →
  Js.slice arr (page * page_size) (page * page_size + page_size)
  = take (Z.to_nat page_size) (drop (Z.to_nat (page * page_size)) arr).
Proof.
  intros Hpage Hsize. unfold Js.slice, Js.relative.
  assert (0 ≤ page * page_size)%Z as Hstart by lia.
  destruct (Z.ltb_spec (page * page_size) 0); [lia|].
  destruct (Z.ltb_spec (page * page_size + page_size) 0); [lia|].
  rewrite Z2Nat.inj_add by lia.
  set (start := Z.to_nat (page * page_size)).
  set (size := Z.to_nat page_size).
  destruct (decide (length arr ≤ start)) as [Hpast|Hin].
  - rewrite Nat.min_r by lia. by rewrite !drop_ge, !take_nil by lia.
  - rewrite (Nat.min_l start) by lia.
    destruct (decide (start + size ≤ length arr)) as [Hfits|Hcut].
    + rewrite Nat.min_l by lia. f_equal. lia.
    + rewrite Nat.min_r by lia.
      rewrite !take_ge; [done| |]; rewrite length_drop; lia.
Qed.

(** C4 (as amended).  When the call returns, the working list behind the
    page is that of the persisted index; a private-until id that is kept
    stands under its go-live time, any other id under a publish time of
    the index; the list is sorted newest first (times compared in
    milliseconds); the ids selected for the page are the slice from
    page*page_size to page*page_size+page_size of the sorted list; the
    returned puzzles are those of the selected ids that can be read, in
    the same order: the puzzle that the query on the store has just
    discovered under the id, or else the stored document of the id if
    it decodes; and the total is the length of the filtered list. *)
Theorem getPuzzlesForPage_page (indexDocId queryField : string)
    (queryValue : QueryValue) (page page_size : Z) (now : Timestamp)
    (db db' : Firestore) (puzzles : list PuzzleResult) (total : nat) :
  getPuzzlesForPage puzzleFromDB indexDocId queryField queryValue
                    page page_size now db
  = (Returns (puzzles, total), db') →
  let index := persistedIndex db' indexDocId in
  let newPuzzles :=
    reverse (newDocuments db indexDocId queryField queryValue) in
  ∃ idsAndTimes,
    filterPrivate index now = Returns idsAndTimes
    ∧ (∀ pid ts, (pid, ts) ∈ idsAndTimes →
         match goLive index pid with
         | Some goLiveTime => ts = goLiveTime
         | None =>
             (pid, ts) ∈ zip (PuzzleIndex.i index) (PuzzleIndex.t index)
         end)
    ∧ let sorted := sortByTime idsAndTimes in
      StronglySorted newestFirst sorted
      ∧ sorted ≡ₚ idsAndTimes
      ∧ let entriesForPage :=
          (Js.slice sorted (page * page_size)
                    (page * page_size + page_size)).*1 in
        ((0 ≤ page)%Z → (0 ≤ page_size)%Z →
         entriesForPage
         = take (Z.to_nat page_size)
                (drop (Z.to_nat (page * page_size)) sorted.*1))
        ∧ coll_c db' = coll_c db
        ∧ puzzles = omap (fetch puzzleFromDB db newPuzzles) entriesForPage
        ∧ puzzles.*2 = List.filter (readable db newPuzzles) entriesForPage
        ∧ total = length idsAndTimes.
Proof.
  rewrite getPuzzlesForPage_run. intros Hrun index newPuzzles.
  assert (coll_i db !! indexDocId ≠ Some Misshaped) as Hshape.
  { intros Hdoc. by rewrite Hdoc in Hrun. }
  assert (∃ idsAndTimes,
      db' = storeAfter db indexDocId (reverse newPuzzles)
      ∧ filterPrivate (updatedIndex (persistedIndex db indexDocId)
                                    (reverse newPuzzles)) now
        = Returns idsAndTimes
      ∧ puzzles = omap (fetch puzzleFromDB db' newPuzzles)
                       (pageEntries (sortByTime idsAndTimes) page page_size)
      ∧ total = length (sortByTime idsAndTimes))
    as (idsAndTimes & -> & Hfilter & -> & ->).
  { subst newPuzzles. unfold newDocuments. rewrite reverse_involutive.
    cbv zeta in Hrun.
    destruct (coll_i db !! indexDocId) as [[stored|]|]; [|done|];
      (destruct (mapEachResult db _) as [err|rows]; [done|]);
      cbv zeta;
      (destruct (filterPrivate _ now) as [idsAndTimes|err]; [|done]);
      exists idsAndTimes; by simplify_eq. }
  assert (coll_c (storeAfter db indexDocId (reverse newPuzzles)) = coll_c db)
    as Hc.
  { unfold storeAfter. by destruct (reverse newPuzzles). }
  assert (∀ entries : list string,
            omap (fetch puzzleFromDB
                    (storeAfter db indexDocId (reverse newPuzzles))
                    newPuzzles) entries
            = omap (fetch puzzleFromDB db newPuzzles) entries) as Hfetch.
  { intros entries. apply list_omap_ext, Forall2_same_length_lookup.
    split; [done|]. intros k puzzleId puzzleId' Hk Hk'.
    assert (puzzleId' = puzzleId) as -> by congruence.
    unfold fetch. by rewrite Hc. }
  subst index. rewrite persistedIndex_storeAfter by done.
  set (index := updatedIndex _ _) in *.
  exists idsAndTimes.
  split; [done|]. split.
  { intros pid ts Hin. rewrite filterPrivate_run in Hfilter.
    destruct (last _); [done|]. injection Hfilter as <-.
    apply list_elem_of_omap in Hin as ([pid0 ts0] & Hin & Hkeep).
    unfold keep in Hkeep. simpl in Hkeep.
    destruct (optIncludes pid0 (PuzzleIndex.pv index)); [done|].
    destruct (goLive index pid0) as [g|] eqn:Hg.
    - destruct (AdminTimestamp.gt g now); [done|].
      simplify_eq. by rewrite Hg.
    - simplify_eq. by rewrite Hg. }
  cbv zeta. split; [apply (sort_sorted (λ a, AdminTimestamp.toMillis a.2))|].
  split; [apply sort_perm|].
  split.
  { intros Hpage Hsize. rewrite slice_page by done.
    by rewrite fmap_take, fmap_drop. }
  split; [done|]. split; [apply Hfetch|].
  split; [rewrite Hfetch; apply fetch_ids|].
  apply sort_length.
Qed.

Lemma addPuzzle_i (index : PuzzleIndexT) (p : DBPuzzleT * string) :
  PuzzleIndex.i (addPuzzle index p) = p.2 :: PuzzleIndex.i index.
Proof.
  unfold addPuzzle.
  by destruct (DBPuzzle.pv p.1) as [[|]|], (DBPuzzle.pvu p.1).
Qed.

Lemma addPuzzle_t (index : PuzzleIndexT) (p : DBPuzzleT * string) :
  PuzzleIndex.t (addPuzzle index p)
  = AdminTimestamp.fromMillis (AdminTimestamp.toMillis (DBPuzzle.p p.1))
      :: PuzzleIndex.t index.
Proof.
  unfold addPuzzle.
  by destruct (DBPuzzle.pv p.1) as [[|]|], (DBPuzzle.pvu p.1).
Qed.

Lemma updatedIndex_i (index : PuzzleIndexT)
    (newPuzzles : list (DBPuzzleT * string)) :
  PuzzleIndex.i (updatedIndex index newPuzzles)
  = newPuzzles.*2 ++ PuzzleIndex.i index.
Proof.
  unfold updatedIndex.
  induction newPuzzles as [|p rest IH]; [reflexivity|].
  by rewrite reverse_cons, foldl_app, fmap_cons; simpl;
    rewrite addPuzzle_i, IH.
Qed.

Lemma updatedIndex_t (index : PuzzleIndexT)
    (newPuzzles : list (DBPuzzleT * string)) :
  PuzzleIndex.t (updatedIndex index newPuzzles)
  = ((λ a, AdminTimestamp.fromMillis
             (AdminTimestamp.toMillis (DBPuzzle.p a.1))) <$> newPuzzles)
    ++ PuzzleIndex.t index.
Proof.
  unfold updatedIndex.
  induction newPuzzles as [|p rest IH]; [reflexivity|].
  by rewrite reverse_cons, foldl_app, fmap_cons; simpl;
    rewrite addPuzzle_t, IH.
Qed.

(** C5.  When the query discovers documents that are not indexed yet,
    the call writes the index back with the ids of the new documents
    in front of the old ids, in the order in which the query (newest
    first) gave them, and likewise for their publish times. *)
Theorem getPuzzlesForPage_prepends (indexDocId queryField : string)
    (queryValue : QueryValue) (page page_size : Z) (now : Timestamp)
    (db : Firestore) :
  newDocuments db indexDocId queryField queryValue ≠ [] →
  let newPuzzles := newDocuments db indexDocId queryField queryValue in
  let db' := (getPuzzlesForPage puzzleFromDB indexDocId queryField
                                queryValue page page_size now db).2 in
  coll_i db' !! indexDocId = Some (Shaped (persistedIndex db' indexDocId))
  ∧ PuzzleIndex.i (persistedIndex db' indexDocId)
    = newPuzzles.*2 ++ PuzzleIndex.i (persistedIndex db indexDocId)
  ∧ PuzzleIndex.t (persistedIndex db' indexDocId)
    = ((λ a, AdminTimestamp.fromMillis
               (AdminTimestamp.toMillis (DBPuzzle.p a.1))) <$> newPuzzles)
      ++ PuzzleIndex.t (persistedIndex db indexDocId).
Proof.
  intros Hnew newPuzzles db'.
  assert (db' = storeAfter db indexDocId newPuzzles
          ∧ coll_i db !! indexDocId ≠ Some Misshaped) as [-> Hshape].
  { subst db' newPuzzles. rewrite getPuzzlesForPage_run.
    unfold newDocuments in *.
    destruct (coll_i db !! indexDocId) as [[stored|]|]; [|done|];
      cbv zeta in *;
      (destruct (mapEachResult db _) as [err|rows]; [done|]);
      by destruct (filterPrivate _ now). }
  rewrite persistedIndex_storeAfter by done.
  rewrite updatedIndex_i, updatedIndex_t. split; [|done].
  fold newPuzzles in Hnew. clearbody newPuzzles.
  destruct newPuzzles as [|new1 new]; [done|].
  unfold storeAfter, with_coll_i. simpl coll_i.
  by rewrite lookup_insert_eq.
Qed.

(** C6.  Assembling the page never throws and leaves the store alone:
    it returns, in order, the puzzles of the ids that can be read.  An
    id whose document is missing or does not decode is passed over:
    the outcome is that for the page without this id.  So the call as a
    whole returns whenever the index loads, the query is answered and
    the working list is built, whatever the puzzle documents are. *)
Theorem assemblePage_skips_unreadable
    (newPuzzles : list (DBPuzzleT * string)) (entriesForPage : list string)
    (db : Firestore) :
  assemblePage puzzleFromDB newPuzzles entriesForPage [] db
  = (Returns (omap (fetch puzzleFromDB db newPuzzles) entriesForPage), db)
  ∧ (∀ before puzzleId after,
       entriesForPage = before ++ puzzleId :: after →
       findNew newPuzzles puzzleId = None →
       coll_c db !! puzzleId = None
       ∨ coll_c db !! puzzleId = Some Misshaped →
       assemblePage puzzleFromDB newPuzzles entriesForPage [] db
       = assemblePage puzzleFromDB newPuzzles (before ++ after) [] db)
  ∧ (∀ indexDocId queryField queryValue page page_size now rows idsAndTimes,
       coll_i db !! indexDocId ≠ Some Misshaped →
       mapEachResult db (buildQuery queryField queryValue
                                    (persistedIndex db indexDocId))
       = Right rows →
       filterPrivate
         (updatedIndex (persistedIndex db indexDocId)
                       (notIndexed (persistedIndex db indexDocId) rows)) now
       = Returns idsAndTimes →
       ∃ puzzles,
         (getPuzzlesForPage puzzleFromDB indexDocId queryField queryValue
                            page page_size now db).1
         = Returns (puzzles, length idsAndTimes)).
Proof.
  split; [by rewrite assemblePage_run|]. split.
  - intros before puzzleId after -> Hnew Hdoc.
    rewrite !assemblePage_run, !omap_app. cbn [omap list_omap].
    unfold fetch at 2. rewrite Hnew.
    by destruct Hdoc as [-> | ->].
  - intros indexDocId queryField queryValue page page_size now rows
      idsAndTimes Hshape Hrows Hfilter.
    rewrite getPuzzlesForPage_run. cbv zeta. rewrite Hrows, Hfilter.
    unfold sortByTime. rewrite sort_length.
    destruct (coll_i db !! indexDocId) as [[stored|]|]; [|done|];
      simpl; eauto.
Qed.

End IndexBuilderTheorems.

(** ** The sample stores *)
Section IndexBuilderSamples.

Import Sample.

(** C1, at a concrete input: two calls at times 150 and 160, both
    before puzzle [A] goes live at 200. *)
Lemma getPuzzlesForPage_idempotent_witness :
  let first := getPuzzlesForFeatured (λ puzzle, puzzle) 0 10 (ms 150)
                                     goesLive in
  let second := getPuzzlesForFeatured (λ puzzle, puzzle) 0 10 (ms 160)
                                      first.2 in
  first.2 = goesLive ∧ second.2 = goesLive ∧ second.1 = first.1.
Proof.
  apply (getPuzzlesForPage_idempotent (λ puzzle, puzzle) "featured" "f"
           (QBoolean true) 0 10 (ms 150) (ms 160) goesLive).
  - vm_compute. reflexivity.
  - intros g Hg. vm_compute in Hg.
    apply list_elem_of_singleton in Hg as ->. vm_compute. reflexivity.
Defined.

(** C1 as stated fails: nothing is new in the store, yet a call at time
    150 and a call at time 250 return different pages and totals,
    because puzzle [A] goes live at 200. *)
Lemma getPuzzlesForPage_differs_across_go_live :
  newDocuments goesLive "featured" "f" (QBoolean true) = []
  ∧ let first := getPuzzlesForFeatured (λ puzzle, puzzle) 0 10 (ms 150)
                                       goesLive in
    let second := getPuzzlesForFeatured (λ puzzle, puzzle) 0 10 (ms 250)
                                        first.2 in
    first.1 = Returns ([(puzzleAt 90, "B")], 1)
    ∧ second.1 = Returns ([(puzzleAt 100, "A"); (puzzleAt 90, "B")], 2)
    ∧ second.1 ≠ first.1.
Proof.
  split; [vm_compute; reflexivity|]. cbv zeta.
  assert ((getPuzzlesForFeatured (λ puzzle, puzzle) 0 10 (ms 150)
             goesLive).1 = Returns ([(puzzleAt 90, "B")], 1)) as Hfirst.
  { vm_compute. reflexivity. }
  assert ((getPuzzlesForFeatured (λ puzzle, puzzle) 0 10 (ms 250)
             (getPuzzlesForFeatured (λ puzzle, puzzle) 0 10 (ms 150)
                goesLive).2).1
          = Returns ([(puzzleAt 100, "A"); (puzzleAt 90, "B")], 2))
    as Hsecond.
  { vm_compute. reflexivity. }
  rewrite Hfirst, Hsecond. repeat split. discriminate.
Qed.

(** C2 as stated fails: with an index document of the wrong shape the
    call throws, where without an index document it serves the page. *)
Lemma misshaped_index_not_reinitialized :
  coll_i misshapedIndex !! "featured" = Some Misshaped
  ∧ getPuzzlesForFeatured (λ puzzle, puzzle) 0 10 (ms 150) misshapedIndex
    = (Throws (FailedToValidateIndex "featured"), misshapedIndex)
  ∧ (getPuzzlesForFeatured (λ puzzle, puzzle) 0 10 (ms 150) noIndex).1
    = Returns ([], 0).
Proof. repeat split; vm_compute; reflexivity. Qed.

(** The working list of the mixed index at time 150: [A] (until 200)
    and [B] (private) are gone, [D] stands under its go-live time. *)
Example filterPrivate_mixed :
  filterPrivate indexMixed (ms 150)
  = Returns [("D", ms 50); ("E", ms 70); ("C", ms 60)].
Proof. vm_compute. reflexivity. Qed.

(** C4 as stated fails: the slice of the sorted list of the mixed store
    is [E,C,D], and the call returns the puzzle of [C] alone, with total
    3, because the documents of [E] and [D] cannot be read. *)
Lemma getPuzzlesForPage_returns_readable_only :
  filterPrivate indexMixed (ms 150)
  = Returns [("D", ms 50); ("E", ms 70); ("C", ms 60)]
  ∧ (Js.slice (sortByTime [("D", ms 50); ("E", ms 70); ("C", ms 60)])
              (0 * 10) (0 * 10 + 10)).*1
    = ["E"; "C"; "D"]
  ∧ (getPuzzlesForFeatured (λ puzzle, puzzle) 0 10 (ms 150) mixed).1
    = Returns ([(puzzleAt 60, "C")], 3).
Proof. repeat split; vm_compute; reflexivity. Qed.

(** C4, at a concrete input: the first page of the store in which the
    query discovers [C]; the puzzle of [C] is the one that the query
    gave, those of [A] and [B] are read from their documents. *)
Lemma getPuzzlesForPage_page_witness :
  ∃ idsAndTimes,
    filterPrivate
      (persistedIndex
         (getPuzzlesForFeatured (λ puzzle, puzzle) 0 10 (ms 150)
                                discoversC).2
         "featured")
      (ms 150)
    = Returns idsAndTimes
    ∧ StronglySorted newestFirst (sortByTime idsAndTimes)
    ∧ [(puzzleAt 110, "C"); (puzzleAt 100, "A"); (puzzleAt 90, "B")]
      = omap (fetch (λ puzzle, puzzle) discoversC
                    (reverse (newDocuments discoversC "featured" "f"
                                           (QBoolean true))))
             (Js.slice (sortByTime idsAndTimes) (0 * 10) (0 * 10 + 10)).*1
    ∧ 3 = length idsAndTimes.
Proof.
  destruct (getPuzzlesForPage_page (λ puzzle, puzzle) "featured" "f"
              (QBoolean true) 0 10 (ms 150) discoversC
              (getPuzzlesForFeatured (λ puzzle, puzzle) 0 10 (ms 150)
                                     discoversC).2
              [(puzzleAt 110, "C"); (puzzleAt 100, "A"); (puzzleAt 90, "B")]
              3)
    as (idsAndTimes & Hfilter & _ & Hsorted & _ & _ & _ & Hpuzzles & _
        & Htotal).
  - vm_compute. reflexivity.
  - exists idsAndTimes. repeat split; assumption.
Defined.

(** C5, at the input of the specification: the index holds
    [ts=100,id=A],[ts=90,id=B] and the query discovers [ts=110,id=C];
    the persisted index then lists [C,A,B]. *)
Lemma getPuzzlesForPage_prepends_witness :
  PuzzleIndex.i
    (persistedIndex
       (getPuzzlesForFeatured (λ puzzle, puzzle) 0 10 (ms 150)
                              discoversC).2
       "featured")
  = ["C"; "A"; "B"].
Proof.
  destruct (getPuzzlesForPage_prepends (λ puzzle, puzzle) "featured" "f"
              (QBoolean true) 0 10 (ms 150) discoversC)
    as (_ & Hids & _).
  - vm_compute. discriminate.
  - etrans; [exact Hids|]. vm_compute. reflexivity.
Defined.

(** The page of the mixed store: the document of [E] does not decode
    and that of [D] is missing; [C] is returned all the same. *)
Example assemblePage_mixed :
  assemblePage (λ puzzle, puzzle) [] ["E"; "C"; "D"] [] mixed
  = (Returns [(puzzleAt 60, "C")], mixed).
Proof. vm_compute. reflexivity. Qed.

End IndexBuilderSamples.

(** ** The comment form *)
Section CommentForm.

Import Comments.















End CommentForm.

(** ** The notification digest *)
Section DigestFacts.

Context (localeCompare : string → string → Z)
        (markdownToHtml : string → string).

(** C10.  For a user whose stored preferences list 'all' among the
    unsubscribed categories, [queueEmailForUser] returns at once and
    leaves the store as it was: no document is added to [mail] and no
    notification is marked as read, whatever the notifications. *)
Theorem queueEmailForUser_unsubscribed_all (userId : string)
    (notifications : list NotificationT) (db : Firestore)
    (prefs : AccountPrefsT) (categories : list string) :
  coll_prefs db !! userId = Some (Shaped prefs) →
  unsubs prefs = Some categories →
  "all" ∈ categories →
  queueEmailForUser localeCompare markdownToHtml userId notifications db
  = (Returns (), db).
Proof.
  intros Hdoc Hunsubs Hall.
  unfold queueEmailForUser, bind, get_prefs. rewrite Hdoc. simpl.
  unfold unsubscribed, Js.includes. rewrite Hunsubs.
  by rewrite bool_decide_eq_true_2.
Qed.

End DigestFacts.

(** ** The grid evaluator *)
Section GridFacts.

Import GridModel.

Lemma isEntryComplete_false (entry : Entry) (grid : Grid) :
  isEntryComplete entry grid = false
  ↔ ∃ idx, idx ∈ cellIndices entry
           ∧ holdsLetter (cells grid !! idx) = false.
Proof.
  unfold isEntryComplete.
  induction (cellIndices entry) as [|idx' idxs IH]; simpl.
  - split; [done|]. by intros (idx & Hin%elem_of_nil & _).
  - rewrite andb_false_iff, IH. split.
    + intros [Hidx|(idx & Hin & Hidx)].
      * exists idx'. split; [left|done].
      * exists idx. split; [by right|done].
    + intros (idx & [->|Hin]%elem_of_cons & Hidx); [by left|].
      right. eauto.
Qed.

Lemma completedWord_letters (entry : Entry) (grid : Grid)
    (letters : list string) :
  Forall2 (λ idx letter, cells grid !! idx = Some (Letter letter)
                         ∧ letter ≠ EmptyString)
          (cellIndices entry) letters →
  completedWord entry grid = Some (concatLetters letters).
Proof.
  unfold completedWord, isEntryComplete.
  generalize (cellIndices entry). intros idxs Hfilled.
  induction Hfilled as [|idx letter idxs letters [Hcell Hletter] _ IH];
    [done|].
  rewrite fmap_cons. cbn [forallb]. rewrite Hcell.
  cbn [holdsLetter letterOf]. rewrite bool_decide_eq_true_2 by done.
  cbn [andb]. destruct (forallb _ idxs); [|done].
  injection IH as IH. unfold concatLetters in *.
  cbn [foldr]. by rewrite IH.
Qed.

Lemma setLetter_cells (grid grid' : Grid) (cellIndex : nat)
    (letter : string) :
  setLetter grid cellIndex letter = inr grid' →
  cells grid' = <[cellIndex := Letter letter]> (cells grid)
  ∧ cellIndex < length (cells grid).
Proof.
  unfold setLetter.
  destruct (cells grid !! cellIndex) as [cell|] eqn:Hcell; [|done].
  apply lookup_lt_Some in Hcell.
  destruct cell; intros; by simplify_eq.
Qed.

Lemma fill_other (idxs : list nat) :
  ∀ (letters : list string) (grid grid' : Grid) (idx : nat),
    idx ∉ idxs →
    fill grid idxs letters = inr grid' →
    cells grid' !! idx = cells grid !! idx.
Proof.
  induction idxs as [|idx' idxs IH]; intros [|letter letters] grid grid' idx
    Hnotin Hfill; simpl in Hfill; try by simplify_eq.
  destruct (setLetter grid idx' letter) as [|grid1] eqn:Hset; [done|].
  apply not_elem_of_cons in Hnotin as [Hne Hnotin].
  rewrite (IH _ _ _ _ Hnotin Hfill).
  apply setLetter_cells in Hset as [-> _].
  by rewrite list_lookup_insert_ne.
Qed.

Lemma fill_cells (idxs : list nat) :
  ∀ (letters : list string) (grid grid' : Grid),
    NoDup idxs →
    length letters = length idxs →
    fill grid idxs letters = inr grid' →
    Forall2 (λ idx letter, cells grid' !! idx = Some (Letter letter))
            idxs letters.
Proof.
  induction idxs as [|idx idxs IH]; intros [|letter letters] grid grid'
    Hnodup Hlen Hfill; simpl in *; try done.
  destruct (setLetter grid idx letter) as [|grid1] eqn:Hset; [done|].
  apply NoDup_cons in Hnodup as [Hnotin Hnodup].
  constructor; [|by eapply IH; eauto].
  rewrite (fill_other _ _ _ _ _ Hnotin Hfill).
  apply setLetter_cells in Hset as [-> Hin].
  by rewrite list_lookup_insert_eq.
Qed.

Lemma setLetter_fillable (grid grid' : Grid) (cellIndex : nat)
    (letter : string) (idx : nat) :
  setLetter grid cellIndex letter = inr grid' →
  fillable grid idx = true → fillable grid' idx = true.
Proof.
  intros Hset. apply setLetter_cells in Hset as [Hcells Hin].
  unfold fillable. rewrite Hcells.
  destruct (decide (cellIndex = idx)) as [->|Hne].
  - by rewrite list_lookup_insert_eq.
  - by rewrite list_lookup_insert_ne.
Qed.

Lemma fill_returns (idxs : list nat) :
  ∀ (letters : list string) (grid : Grid),
    Forall (λ idx, fillable grid idx = true) idxs →
    ∃ grid', fill grid idxs letters = inr grid'.
Proof.
  induction idxs as [|idx idxs IH]; intros [|letter letters] grid Hopen;
    simpl; eauto.
  apply Forall_cons in Hopen as [Hidx Hopen].
  destruct (setLetter grid idx letter) as [err|grid1] eqn:Hset.
  { unfold setLetter, fillable in *.
    by destruct (cells grid !! idx) as [[]|]. }
  apply IH. eapply Forall_impl; [exact Hopen|].
  intros idx'. by apply setLetter_fillable with idx letter.
Qed.

(** C8.  [completedWord] is null exactly when some cell of the entry
    does not hold a letter; when the cells of the entry hold the
    letters L1..Ln it is their concatenation; and filling the cells of
    an entry with L1..Ln succeeds and makes it their concatenation. *)
Theorem completedWord_null_iff (entry : Entry) (grid : Grid) :
  (completedWord entry grid = None
   ↔ ∃ idx, idx ∈ cellIndices entry
            ∧ holdsLetter (cells grid !! idx) = false)
  ∧ (∀ letters,
       Forall2 (λ idx letter, cells grid !! idx = Some (Letter letter)
                              ∧ letter ≠ EmptyString)
               (cellIndices entry) letters →
       completedWord entry grid = Some (concatLetters letters))
  ∧ (∀ letters,
       NoDup (cellIndices entry) →
       Forall (λ idx, fillable grid idx = true) (cellIndices entry) →
       length letters = length (cellIndices entry) →
       Forall (λ letter, letter ≠ EmptyString) letters →
       ∃ grid', fill grid (cellIndices entry) letters = inr grid'
                ∧ completedWord entry grid'
                  = Some (concatLetters letters)).
Proof.
  split; [|split].
  - rewrite <- isEntryComplete_false. unfold completedWord.
    by destruct (isEntryComplete entry grid).
  - apply completedWord_letters.
  - intros letters Hnodup Hfillable Hlen Hletters.
    destruct (fill_returns _ letters _ Hfillable) as [grid' Hfill].
    exists grid'. split; [done|].
    apply completedWord_letters.
    pose proof (fill_cells _ _ _ _ Hnodup Hlen Hfill) as Hcells.
    clear Hfill Hnodup Hlen Hfillable.
    induction Hcells as [|idx letter idxs letters' Hcell _ IH];
      [constructor|].
    apply Forall_cons in Hletters as [Hletter Hletters].
    constructor; [done|by apply IH].
Qed.

End GridFacts.

Section PublishFacts.

Import GridModel.

Lemma open_symmetry (w h : nat) (cs : list Cell) (s s' : Symmetry)
    (row col : nat) :
  open (mkGrid w h cs s) row col = open (mkGrid w h cs s') row col.
Proof. reflexivity. Qed.

Lemma runFrom_symmetry (w h : nat) (cs : list Cell) (s s' : Symmetry)
    (fuel : nat) :
  ∀ row col drow dcol,
    runFrom (mkGrid w h cs s) fuel row col drow dcol
    = runFrom (mkGrid w h cs s') fuel row col drow dcol.
Proof.
  induction fuel as [|fuel IH]; intros; simpl; [done|].
  rewrite (open_symmetry w h cs s s'). by rewrite IH.
Qed.

Lemma scan_symmetry (w h : nat) (cs : list Cell) (s s' : Symmetry)
    (idxs : list nat) :
  ∀ label,
    scan (mkGrid w h cs s) idxs label = scan (mkGrid w h cs s') idxs label.
Proof.
  induction idxs as [|idx idxs IH]; intros label; simpl; [done|].
  unfold entryFrom, startsAcross, startsDown.
  rewrite !(open_symmetry w h cs s s'), !(runFrom_symmetry w h cs s s').
  by rewrite !IH.
Qed.

Lemma deriveEntries_symmetry (grid : Grid) (s' : Symmetry) :
  deriveEntries (mkGrid (width grid) (height grid) (cells grid) s')
  = deriveEntries grid.
Proof. destruct grid as [w h cs s]. apply scan_symmetry. Qed.

Lemma errors_missing (entries : list Entry) :
  List.filter isError (missingClue <$> entries) = missingClue <$> entries.
Proof.
  induction entries as [|e es IH]; [done|].
  rewrite fmap_cons. change (isError (missingClue e)) with true.
  cbn [List.filter]. change (isError (missingClue e)) with true.
  cbv iota. by rewrite IH.
Qed.

Lemma errors_warnings (messages : list string) :
  List.filter isError (IssueWarning <$> messages) = [].
Proof. induction messages as [|m ms IH]; [done|]. by rewrite fmap_cons. Qed.

Lemma warnings_missing (entries : list Entry) :
  List.filter (λ issue, negb (isError issue)) (missingClue <$> entries) = [].
Proof. induction entries as [|e es IH]; [done|]. by rewrite fmap_cons. Qed.

Lemma warnings_warnings (messages : list string) :
  List.filter (λ issue, negb (isError issue)) (IssueWarning <$> messages)
  = IssueWarning <$> messages.
Proof.
  induction messages as [|m ms IH]; [done|].
  rewrite fmap_cons. cbn [List.filter isError negb]. by rewrite IH.
Qed.

Lemma unclued_nil (clues : Clues) (entries : list Entry) :
  List.filter (λ entry, negb (hasClue clues entry)) entries = []
  ↔ Forall (λ entry, hasClue clues entry = true) entries.
Proof.
  induction entries as [|e es IH]; simpl.
  - split; [constructor|done].
  - destruct (hasClue clues e) eqn:He; simpl.
    + rewrite IH. split; [by constructor|by inversion 1].
    + split; [done|]. inversion 1; congruence.
Qed.

Context (heuristics : Grid → list string).

Lemma validateForPublish_errors (grid : Grid) (clues : Clues) :
  errors (validateForPublish heuristics grid clues)
  = missingClue <$> List.filter (λ entry, negb (hasClue clues entry))
                                (deriveEntries grid).
Proof.
  unfold errors, validateForPublish.
  rewrite !List.filter_app, errors_missing, errors_warnings.
  destruct (symmetryHolds grid); simpl; by rewrite app_nil_r.
Qed.

(** C7.  The errors of publish-time validation are the missing clues,
    one for each Across/Down entry without a non-empty clue; there is no
    error, and publishing is allowed, exactly when every entry has a
    non-empty clue, whatever symmetry is declared and whether or not
    it holds; what the symmetry check and the size and connectivity
    heuristics report are warnings. *)
Theorem validateForPublish_errors_are_missing_clues
    (grid : Grid) (clues : Clues) :
  errors (validateForPublish heuristics grid clues)
  = missingClue <$> List.filter (λ entry, negb (hasClue clues entry))
                                (deriveEntries grid)
  ∧ (errors (validateForPublish heuristics grid clues) = []
     ↔ Forall (λ entry, hasClue clues entry = true) (deriveEntries grid))
  ∧ (canPublish heuristics grid clues = true
     ↔ Forall (λ entry, hasClue clues entry = true) (deriveEntries grid))
  ∧ warnings (validateForPublish heuristics grid clues)
    = (IssueWarning <$> heuristics grid)
      ++ (if symmetryHolds grid then []
          else [IssueWarning "grid does not have the declared symmetry"])
  ∧ ∀ declared,
      errors (validateForPublish heuristics
                (mkGrid (width grid) (height grid) (cells grid) declared)
                clues)
      = errors (validateForPublish heuristics grid clues).
Proof.
  assert (errors (validateForPublish heuristics grid clues) = []
          ↔ Forall (λ entry, hasClue clues entry = true)
                   (deriveEntries grid)) as Hnone.
  { rewrite validateForPublish_errors, <- unclued_nil.
    split; [apply fmap_nil_inv|by intros ->]. }
  split; [apply validateForPublish_errors|].
  split; [exact Hnone|]. split; [|split].
  - rewrite <- Hnone. unfold canPublish.
    by destruct (errors _).
  - unfold warnings, validateForPublish.
    rewrite !List.filter_app, warnings_missing, warnings_warnings.
    by destruct (symmetryHolds grid).
  - intros declared.
    by rewrite !validateForPublish_errors, deriveEntries_symmetry.
Qed.

End PublishFacts.

(** ** Samples of the digest, the grid and the comment form *)
Section OtherSamples.

(** C10, at a concrete input: three notifications are pending, the
    user unsubscribed from everything, and the store stays as it is. *)
Lemma queueEmailForUser_unsubscribed_all_witness :
  queueEmailForUser Js.defaultCompare (λ text, text) "u1"
                    DigestSample.notifications (DigestSample.store ["all"])
  = (Returns (), DigestSample.store ["all"]).
Proof.
  apply (queueEmailForUser_unsubscribed_all Js.defaultCompare (λ text, text)
           "u1" DigestSample.notifications (DigestSample.store ["all"])
           (mkPrefs (Some ["all"])) ["all"]).
  - vm_compute. reflexivity.
  - reflexivity.
  - by left.
Defined.

(** The same user, unsubscribed from nothing, is sent one mail and the
    three notifications are marked as read. *)
Example queueEmailForUser_subscribed :
  let db' := (queueEmailForUser Js.defaultCompare (λ text, text) "u1"
                DigestSample.notifications (DigestSample.store [])).2 in
  Mail.subject <$> coll_mail db' = ["Crosshare: new comments on Puzzle One"]
  ∧ (NotificationBase.r ∘ base <$> coll_n db') !! "n1" = Some true
  ∧ (NotificationBase.r ∘ base <$> coll_n db') !! "n2" = Some true
  ∧ (NotificationBase.r ∘ base <$> coll_n db') !! "n3" = Some true.
Proof. repeat split; vm_compute; reflexivity. Qed.

(** The sample grid has six entries; with clues for all of them there
    is no error although the declared symmetry does not hold, and
    without clues there are six errors. *)
Example validateForPublish_sample :
  GridModel.symmetryHolds GridModel.sampleGrid = false
  ∧ GridModel.validateForPublish (λ _, []) GridModel.sampleGrid
                                 GridModel.sampleClues
    = [GridModel.IssueWarning "grid does not have the declared symmetry"]
  ∧ length (GridModel.errors
              (GridModel.validateForPublish (λ _, []) GridModel.sampleGrid ∅))
    = 6.
Proof. repeat split; vm_compute; reflexivity. Qed.

(** The last entry of the sample grid runs through cells 6, 7 and 8:
    it is not complete, and it reads BAT after the cells were filled
    with B, A and T. *)
Example completedWord_sample :
  let entry := GridModel.mkEntry GridModel.Across 6 3 [6; 7; 8] 4 in
  GridModel.completedWord entry GridModel.sampleGrid = None
  ∧ ∃ grid', GridModel.fill GridModel.sampleGrid [6; 7; 8] ["B"; "A"; "T"]
             = inr grid'
             ∧ GridModel.completedWord entry grid' = Some "BAT".
Proof.
  split; [vm_compute; reflexivity|].
  eexists. split; vm_compute; reflexivity.
Qed.

(** The text [ hi ], typed and submitted twice, is stored twice as
    [hi]. *)
Example comment_form_sample :
  (λ entry, (entry.1, Comments.c entry.2))
    <$> Comments.cfm (Comments.run Comments.sampleEvents)
  = [("ref1", [104; 105]%N); ("ref2", [104; 105]%N)].
Proof. vm_compute. reflexivity. Qed.

End OtherSamples.

(* ===================================================================== *)
(** * Part III: further properties of the code                            *)
(* ===================================================================== *)

(** ** The index builder *)
Section IndexBuilderMore.

Context {Puzzle : Type} (puzzleFromDB : DBPuzzleT → Puzzle).

Lemma indexOf_bounds (x : string) (arr : list string) :
  x ∈ arr → (0 ≤ Js.indexOf x arr < Z.of_nat (length arr))%Z.
Proof.
  induction arr as [|y arr IH]; [by intros ?%elem_of_nil|].
  intros Hin. simpl. destruct (decide (y = x)) as [->|Hne]; [lia|].
  apply elem_of_cons in Hin as [->|Hin]; [done|].
  specialize (IH Hin). destruct (Z.ltb_spec (Js.indexOf x arr) 0); lia.
Qed.

Lemma aligned_no_orphan (index : PuzzleIndexT) (pid : string) :
  aligned index → orphan index pid = false.
Proof.
  unfold aligned, orphan, optIncludes. intros Hlen.
  destruct (PuzzleIndex.pv index) as [pv|];
    [destruct (Js.includes pid pv); [done|]|]; simpl;
    (destruct (PuzzleIndex.pvut index) as [pvut|]; [|done]);
    (destruct (PuzzleIndex.pvui index) as [pvui|]; [|done]); simpl in *;
    (destruct (Js.includes pid pvui) eqn:Hin; [|done]); simpl;
    apply bool_decide_eq_true in Hin;
    pose proof (indexOf_bounds pid pvui Hin) as Hk;
    unfold Js.at_;
    (destruct (Z.ltb_spec (Js.indexOf pid pvui) 0); [lia|]);
    (destruct (lookup_lt_is_Some_2 pvut (Z.to_nat (Js.indexOf pid pvui)))
       as [g ->]; [lia|done]).
Qed.

Lemma aligned_filter (index : PuzzleIndexT) :
  aligned index →
  List.filter (orphan index) (PuzzleIndex.i index) = [].
Proof.
  intros Hal. induction (PuzzleIndex.i index) as [|pid ids IH]; [done|].
  simpl. by rewrite aligned_no_orphan.
Qed.

Lemma addPuzzle_aligned (index : PuzzleIndexT) (p : DBPuzzleT * string) :
  aligned index → aligned (addPuzzle index p).
Proof.
  unfold aligned, addPuzzle.
  destruct (DBPuzzle.pv p.1) as [[|]|], (DBPuzzle.pvu p.1); simpl; lia.
Qed.

Lemma updatedIndex_aligned (index : PuzzleIndexT)
    (newPuzzles : list (DBPuzzleT * string)) :
  aligned index → aligned (updatedIndex index newPuzzles).
Proof.
  unfold updatedIndex. generalize (reverse newPuzzles). intros l.
  revert index. induction l as [|p l IH]; intros index Hal; [done|].
  simpl. by apply IH, addPuzzle_aligned.
Qed.

(** The call when the index document is absent or decodes. *)
Lemma getPuzzlesForPage_run_shaped (indexDocId queryField : string)
    (queryValue : QueryValue) (page page_size : Z) (now : Timestamp)
    (db : Firestore) :
  coll_i db !! indexDocId ≠ Some Misshaped →
  getPuzzlesForPage puzzleFromDB indexDocId queryField queryValue
                    page page_size now db =
    match mapEachResult db (buildQuery queryField queryValue
                              (persistedIndex db indexDocId)) with
    | Left err => (Throws err, db)
    | Right rows =>
        let newPuzzles := notIndexed (persistedIndex db indexDocId) rows in
        let db' := storeAfter db indexDocId newPuzzles in
        match filterPrivate
                (updatedIndex (persistedIndex db indexDocId) newPuzzles)
                now with
        | Throws err => (Throws err, db')
        | Returns idsAndTimes =>
            (Returns
               (omap (fetch puzzleFromDB db' (reverse newPuzzles))
                     (pageEntries (sortByTime idsAndTimes) page page_size),
                length (sortByTime idsAndTimes)),
             db')
        end
    end.
Proof.
  intros Hok. rewrite getPuzzlesForPage_run.
  by destruct (coll_i db !! indexDocId) as [[stored|]|].
Qed.

(** X1 (getPuzzlesForPage, lines 400-517).  An index in which every
    private-until id has a go-live time stays so through a call, and
    the call then never fails in the privacy filter: it returns
    whenever the index document decodes and the query is answered. *)
Theorem getPuzzlesForPage_keeps_aligned (indexDocId queryField : string)
    (queryValue : QueryValue) (page page_size : Z) (now : Timestamp)
    (db : Firestore) :
  aligned (persistedIndex db indexDocId) →
  let after := getPuzzlesForPage puzzleFromDB indexDocId queryField
                                 queryValue page page_size now db in
  aligned (persistedIndex after.2 indexDocId)
  ∧ (coll_i db !! indexDocId ≠ Some Misshaped →
     is_Some_right (mapEachResult db (buildQuery queryField queryValue
                                        (persistedIndex db indexDocId))) →
     ∃ puzzles total, after.1 = Returns (puzzles, total)).
Proof.
  intros Hal. cbv zeta.
  destruct (coll_i db !! indexDocId) as [[stored|]|] eqn:Hdoc.
  2:{ rewrite getPuzzlesForPage_run, Hdoc. split; [done|]. by intros []. }
  all: assert (coll_i db !! indexDocId ≠ Some Misshaped) as Hok
         by (by rewrite Hdoc).
  all: rewrite getPuzzlesForPage_run_shaped by done; cbv zeta.
  all: destruct (mapEachResult db _) as [err|rows];
         [split; [done|]; by intros _ []|].
  all: rewrite filterPrivate_run, aligned_filter
         by (by apply updatedIndex_aligned).
  all: simpl; rewrite persistedIndex_storeAfter by done.
  all: split; [by apply updatedIndex_aligned|eauto].
Qed.

Lemma insert_by_stable {A} (key : A → Z) (k : Z) (x : A) (sorted : list A) :
  List.filter (λ a, (key a =? k)%Z)
              (Js.insert_by (λ a b, key b - key a)%Z x sorted)
  = List.filter (λ a, (key a =? k)%Z) (x :: sorted).
Proof.
  induction sorted as [|y rest IH]; [done|]. simpl.
  destruct (Z.leb_spec (key y - key x) 0) as [Hle|Hgt]; [done|].
  simpl in *. rewrite IH.
  destruct (Z.eqb_spec (key x) k) as [Hx|Hx],
           (Z.eqb_spec (key y) k) as [Hy|Hy]; try done; lia.
Qed.

Lemma sort_stable {A} (key : A → Z) (k : Z) (arr : list A) :
  List.filter (λ a, (key a =? k)%Z) (Js.sort (λ a b, key b - key a)%Z arr)
  = List.filter (λ a, (key a =? k)%Z) arr.
Proof.
  induction arr as [|x arr IH]; [done|].
  simpl Js.sort. rewrite insert_by_stable. simpl. by rewrite IH.
Qed.

(** X2 (getPuzzlesForPage, line 486).  Sorting the working list is
    stable: the entries that share a time (in milliseconds) come out in
    the order in which the working list, and so the index, held
    them. *)
Theorem sortByTime_stable (idsAndTimes : list (string * Timestamp))
    (millis : Z) :
  List.filter (λ a, (AdminTimestamp.toMillis a.2 =? millis)%Z)
              (sortByTime idsAndTimes)
  = List.filter (λ a, (AdminTimestamp.toMillis a.2 =? millis)%Z)
                idsAndTimes.
Proof. apply (sort_stable (λ a, AdminTimestamp.toMillis a.2)). Qed.

Lemma slice_length {A} (arr : list A) (start size : Z) :
  (0 ≤ size)%Z → length (Js.slice arr start (start + size)) ≤ Z.to_nat size.
Proof.
  intros Hsize. unfold Js.slice, Js.relative.
  rewrite length_take, length_drop.
  destruct (Z.ltb_spec start 0), (Z.ltb_spec (start + size) 0); lia.
Qed.

Lemma slice_subseteq {A} (arr : list A) (start end_ : Z) :
  Js.slice arr start end_ ⊆ arr.
Proof.
  unfold Js.slice. etrans; [apply subseteq_take|apply subseteq_drop].
Qed.

Lemma omap_length {A B} (f : A → option B) (l : list A) :
  length (omap f l) ≤ length l.
Proof.
  induction l as [|x l IH]; [done|]. cbn [omap list_omap].
  destruct (f x); simpl; lia.
Qed.

(** X3 (getPuzzlesForPage, lines 400-517).  A page never holds more
    puzzles than the page size, whatever the page number, and the total
    never exceeds the number of ids in the index. *)
Theorem getPuzzlesForPage_bounds (indexDocId queryField : string)
    (queryValue : QueryValue) (page page_size : Z) (now : Timestamp)
    (db db' : Firestore) (puzzles : list PuzzleResult) (total : nat) :
  getPuzzlesForPage puzzleFromDB indexDocId queryField queryValue
                    page page_size now db
  = (Returns (puzzles, total), db') →
  total ≤ length (PuzzleIndex.i (persistedIndex db' indexDocId))
  ∧ ((0 ≤ page_size)%Z → length puzzles ≤ Z.to_nat page_size).
Proof.
  intros Hrun.
  assert (coll_i db !! indexDocId ≠ Some Misshaped) as Hok.
  { intros Hbad. by rewrite getPuzzlesForPage_run, Hbad in Hrun. }
  rewrite getPuzzlesForPage_run_shaped in Hrun by done. cbv zeta in Hrun.
  destruct (mapEachResult db _) as [err|rows]; [done|].
  rewrite filterPrivate_run in Hrun.
  destruct (last _); [done|]. simplify_eq.
  rewrite persistedIndex_storeAfter by done. split.
  - unfold sortByTime. rewrite sort_length.
    etrans; [apply omap_length|]. rewrite length_zip_with. lia.
  - intros Hsize. etrans; [apply omap_length|].
    unfold pageEntries. rewrite length_fmap. by apply slice_length.
Qed.

(** X4 (getPuzzlesForPage, lines 488-491).  The pages tile the working
    list: pages 0 to n-1, read one after the other, are the first
    n*page_size ids of the list, so that no id is left out or shown
    twice; with enough pages they are all its ids. *)
Theorem pageEntries_tile (idsAndTimes : list (string * Timestamp))
    (page_size : Z) (n : nat) :
  (0 ≤ page_size)%Z →
  firstPages idsAndTimes page_size n
  = take (n * Z.to_nat page_size) idsAndTimes.*1
  ∧ (length idsAndTimes ≤ n * Z.to_nat page_size →
     firstPages idsAndTimes page_size n = idsAndTimes.*1).
Proof.
  intros Hsize.
  assert (firstPages idsAndTimes page_size n
          = take (n * Z.to_nat page_size) idsAndTimes.*1) as Htile.
  { unfold firstPages. induction n as [|n IH]; [done|].
    rewrite seq_S, fmap_app, concat_app, IH. simpl.
    unfold pageEntries. rewrite slice_page by lia.
    rewrite app_nil_r, fmap_take, fmap_drop.
    replace (Z.to_nat (Z.of_nat n * page_size))
      with (n * Z.to_nat page_size) by lia.
    rewrite take_take_drop. f_equal. lia. }
  split; [done|]. intros Hall. rewrite Htile.
  apply take_ge. rewrite length_fmap. lia.
Qed.

Lemma addPuzzle_pv_keeps (index : PuzzleIndexT) (p : DBPuzzleT * string)
    (pid : string) :
  optIncludes pid (PuzzleIndex.pv index) = true →
  optIncludes pid (PuzzleIndex.pv (addPuzzle index p)) = true.
Proof.
  unfold addPuzzle, optIncludes, Js.includes.
  destruct (PuzzleIndex.pv index) as [pv|]; [|done].
  rewrite bool_decide_eq_true. intros Hin.
  destruct (DBPuzzle.pv p.1) as [[|]|], (DBPuzzle.pvu p.1); simpl;
    rewrite bool_decide_eq_true; set_solver.
Qed.

Lemma addPuzzle_pv_adds (index : PuzzleIndexT) (p : DBPuzzleT * string) :
  DBPuzzle.pv p.1 = Some true →
  optIncludes p.2 (PuzzleIndex.pv (addPuzzle index p)) = true.
Proof.
  unfold addPuzzle, optIncludes, Js.includes. intros ->.
  destruct (DBPuzzle.pvu p.1); simpl;
    rewrite bool_decide_eq_true; set_solver.
Qed.

Lemma foldl_addPuzzle_pv (l : list (DBPuzzleT * string)) :
  ∀ (index : PuzzleIndexT) (pid : string),
    optIncludes pid (PuzzleIndex.pv index) = true
    ∨ (∃ puzzle, (puzzle, pid) ∈ l ∧ DBPuzzle.pv puzzle = Some true) →
    optIncludes pid (PuzzleIndex.pv (foldl addPuzzle index l)) = true.
Proof.
  induction l as [|p l IH]; intros index pid Hpid; simpl.
  { destruct Hpid as [?|(? & ?%elem_of_nil & _)]; done. }
  apply IH. destruct Hpid as [Hin|(puzzle & Hin & Hpv)].
  - left. by apply addPuzzle_pv_keeps.
  - apply elem_of_cons in Hin as [Heq|Hin]; [|right; eauto].
    left. subst p. by apply (addPuzzle_pv_adds index (puzzle, pid)).
Qed.

(** X5 (getPuzzlesForPage, lines 434-516).  A puzzle that the query has
    just discovered and that is marked private is not among the puzzles
    that the same call returns. *)
Theorem getPuzzlesForPage_hides_new_private (indexDocId queryField : string)
    (queryValue : QueryValue) (page page_size : Z) (now : Timestamp)
    (db db' : Firestore) (puzzles : list PuzzleResult) (total : nat)
    (puzzle : DBPuzzleT) (pid : string) :
  getPuzzlesForPage puzzleFromDB indexDocId queryField queryValue
                    page page_size now db
  = (Returns (puzzles, total), db') →
  (puzzle, pid) ∈ newDocuments db indexDocId queryField queryValue →
  DBPuzzle.pv puzzle = Some true →
  pid ∉ puzzles.*2.
Proof.
  intros Hrun Hnew Hpv.
  assert (coll_i db !! indexDocId ≠ Some Misshaped) as Hok.
  { intros Hbad. by rewrite getPuzzlesForPage_run, Hbad in Hrun. }
  rewrite getPuzzlesForPage_run_shaped in Hrun by done. cbv zeta in Hrun.
  assert (newDocuments db indexDocId queryField queryValue
          = match mapEachResult db (buildQuery queryField queryValue
                                      (persistedIndex db indexDocId)) with
            | Right rows => notIndexed (persistedIndex db indexDocId) rows
            | Left _ => []
            end) as Hdocs.
  { unfold newDocuments.
    by destruct (coll_i db !! indexDocId) as [[stored|]|]. }
  rewrite Hdocs in Hnew.
  destruct (mapEachResult db _) as [err|rows]; [done|].
  set (newPuzzles := notIndexed _ rows) in *.
  set (index := updatedIndex _ newPuzzles) in *.
  assert (optIncludes pid (PuzzleIndex.pv index) = true) as Hpid.
  { apply foldl_addPuzzle_pv. right. exists puzzle.
    by rewrite elem_of_reverse. }
  rewrite filterPrivate_run in Hrun.
  destruct (last _); [done|]. simplify_eq.
  rewrite fetch_ids. intros Hin%list_elem_of_In%filter_In.
  destruct Hin as [Hin%list_elem_of_In _].
  unfold pageEntries in Hin.
  apply list_elem_of_fmap in Hin as ([pid' ts] & -> & Hin).
  apply slice_subseteq in Hin. unfold sortByTime in Hin.
  rewrite sort_perm in Hin.
  apply list_elem_of_omap in Hin as ([pid0 ts0] & _ & Hkeep).
  unfold keep in Hkeep. simpl in *.
  destruct (optIncludes pid0 (PuzzleIndex.pv index)) eqn:Hpid0; [done|].
  destruct (goLive index pid0) as [g|];
    [destruct (AdminTimestamp.gt g now); [done|]|];
    simplify_eq; congruence.
Qed.

Lemma storeAfter_frame (db : Firestore) (indexDocId : string)
    (newPuzzles : list (DBPuzzleT * string)) :
  coll_c (storeAfter db indexDocId newPuzzles) = coll_c db
  ∧ ∀ other, other ≠ indexDocId →
             coll_i (storeAfter db indexDocId newPuzzles) !! other
             = coll_i db !! other.
Proof.
  destruct newPuzzles as [|new1 new]; [done|]. split; [done|].
  intros other Hother. simpl. by rewrite lookup_insert_ne.
Qed.

(** A call writes nothing but the index document it is for. *)
Lemma getPuzzlesForPage_frame (indexDocId queryField : string)
    (queryValue : QueryValue) (page page_size : Z) (now : Timestamp)
    (db : Firestore) :
  coll_c (getPuzzlesForPage puzzleFromDB indexDocId queryField
                            queryValue page page_size now db).2 = coll_c db
  ∧ ∀ other, other ≠ indexDocId →
             coll_i (getPuzzlesForPage puzzleFromDB indexDocId queryField
                                       queryValue page page_size now db).2
             !! other
             = coll_i db !! other.
Proof.
  rewrite getPuzzlesForPage_run.
  destruct (coll_i db !! indexDocId) as [[stored|]|] eqn:Hdoc; [|done|];
    cbv zeta; (destruct (mapEachResult db _) as [err|rows]; [done|]);
    destruct (filterPrivate _ now); apply storeAfter_frame.
Qed.

(** X25 (getPuzzlesForConstructorPage and getPuzzlesForFeatured, lines
    519-532, over getPuzzlesForPage).  The page of a constructor and the
    featured page keep apart unless the user id is ['featured']: a call
    for the one leaves the index document of the other as it is, be it
    absent, misshaped or an index; neither call touches an index
    document of a third name, and neither writes a puzzle document. *)
Theorem pages_keep_apart (userId : string) (page page_size : Z)
    (now : Timestamp) (db : Firestore) :
  userId ≠ "featured" →
  coll_i (getPuzzlesForConstructorPage puzzleFromDB userId
            page page_size now db).2 !! "featured"
  = coll_i db !! "featured"
  ∧ coll_i (getPuzzlesForFeatured puzzleFromDB page page_size
                                  now db).2 !! userId
    = coll_i db !! userId
  ∧ (∀ other, other ≠ userId → other ≠ "featured" →
       coll_i (getPuzzlesForConstructorPage puzzleFromDB userId
                 page page_size now db).2 !! other
       = coll_i db !! other
       ∧ coll_i (getPuzzlesForFeatured puzzleFromDB page page_size
                                       now db).2 !! other
         = coll_i db !! other)
  ∧ coll_c (getPuzzlesForConstructorPage puzzleFromDB userId
              page page_size now db).2 = coll_c db
  ∧ coll_c (getPuzzlesForFeatured puzzleFromDB page page_size now db).2
    = coll_c db.
Proof.
  intros Hne. unfold getPuzzlesForConstructorPage, getPuzzlesForFeatured.
  destruct (getPuzzlesForPage_frame userId "a" (QString userId)
              page page_size now db) as (Hc & Hi).
  destruct (getPuzzlesForPage_frame "featured" "f" (QBoolean true)
              page page_size now db) as (Hc' & Hi').
  split; [by apply Hi|]. split; [by apply Hi'|].
  split; [|done]. intros other Huser Hfeatured.
  split; [by apply Hi|by apply Hi'].
Qed.

Lemma indexOf_cons_ne (x y : string) (arr : list string) :
  y ≠ x → x ∈ arr → Js.indexOf x (y :: arr) = (Js.indexOf x arr + 1)%Z.
Proof.
  intros Hne Hin. simpl. rewrite decide_False by done.
  pose proof (indexOf_bounds x arr Hin).
  destruct (Z.ltb_spec (Js.indexOf x arr) 0); [lia|done].
Qed.

Lemma at_cons {A} (x : A) (arr : list A) (k : Z) :
  (0 ≤ k)%Z → Js.at_ (x :: arr) (k + 1) = Js.at_ arr k.
Proof.
  intros Hk. unfold Js.at_.
  rewrite (proj2 (Z.ltb_ge (k + 1) 0)) by lia.
  rewrite (proj2 (Z.ltb_ge k 0)) by lia.
  replace (Z.to_nat (k + 1)) with (S (Z.to_nat k)) by lia. done.
Qed.

(** An id without go-live time stays without: the puzzles that are
    added go to the front of both [pvui] and [pvut]. *)
Lemma addPuzzle_orphan (index : PuzzleIndexT) (p : DBPuzzleT * string)
    (pid : string) :
  p.2 ≠ pid → orphan index pid = true → orphan (addPuzzle index p) pid = true.
Proof.
  intros Hne. unfold orphan, addPuzzle, optIncludes, Js.includes.
  destruct index as [t i pv pvui pvut]. cbn [PuzzleIndex.pv PuzzleIndex.pvui
    PuzzleIndex.pvut PuzzleIndex.i PuzzleIndex.t].
  intros Horphan. apply andb_true_iff in Horphan as [Hpv Hrest].
  destruct pvut as [pvut|]; [|done].
  apply andb_true_iff in Hrest as [Hin Hundef].
  destruct pvui as [pvui|]; [|done].
  apply bool_decide_eq_true in Hin.
  assert (negb (bool_decide (pid ∈ default [] pv ++ [p.2])) = true) as Hpv'.
  { apply negb_true_iff, bool_decide_eq_false.
    rewrite elem_of_app, list_elem_of_singleton. intros [Hold|?]; [|done].
    destruct pv as [pv|]; [|by apply elem_of_nil in Hold].
    apply negb_true_iff, bool_decide_eq_false in Hpv. done. }
  assert (bool_decide (pid ∈ p.2 :: pvui)
          && negb (Js.defined
                     (Js.at_ (AdminTimestamp.fromMillis
                                (AdminTimestamp.toMillis
                                   (default (AdminTimestamp.mk 0 0)
                                            (DBPuzzle.pvu p.1)))
                              :: pvut)
                             (Js.indexOf pid (p.2 :: pvui)))) = true)
    as Hrest'.
  { rewrite bool_decide_eq_true_2 by by apply list_elem_of_further.
    cbn [andb]. rewrite indexOf_cons_ne by done.
    rewrite at_cons by (by apply indexOf_bounds). exact Hundef. }
  assert (bool_decide (pid ∈ pvui)
          && negb (Js.defined (Js.at_ pvut (Js.indexOf pid pvui))) = true)
    as Hrest''.
  { by rewrite bool_decide_eq_true_2 by done. }
  destruct (DBPuzzle.pv p.1) as [[|]|], (DBPuzzle.pvu p.1) as [pvu|];
    cbn [PuzzleIndex.pv PuzzleIndex.pvui PuzzleIndex.pvut PuzzleIndex.i
         PuzzleIndex.t default from_option id] in *;
    apply andb_true_iff; split; done.
Qed.

Lemma updatedIndex_orphan (index : PuzzleIndexT)
    (newPuzzles : list (DBPuzzleT * string)) (pid : string) :
  Forall (λ p, p.2 ≠ pid) newPuzzles →
  orphan index pid = true →
  orphan (updatedIndex index newPuzzles) pid = true.
Proof.
  unfold updatedIndex. intros Hnew.
  apply Forall_reverse in Hnew. revert index.
  induction Hnew as [|p l Hp _ IH]; intros index Horphan; [done|].
  simpl. by apply IH, addPuzzle_orphan.
Qed.

(** The filter throws as soon as the index lists an id without go-live
    time. *)
Lemma filterPrivate_throws (index : PuzzleIndexT) (now : Timestamp)
    (pid : string) :
  pid ∈ PuzzleIndex.i index → orphan index pid = true →
  ∃ pid', filterPrivate index now = Throws (MissingFromPvut pid').
Proof.
  intros Hin Horphan. rewrite filterPrivate_run.
  destruct (last _) as [pid'|] eqn:Hlast; [by eexists|].
  apply last_None in Hlast.
  assert (pid ∈ List.filter (orphan index) (PuzzleIndex.i index)) as Hpid.
  { apply list_elem_of_In, filter_In. by rewrite <- list_elem_of_In. }
  rewrite Hlast in Hpid. by apply elem_of_nil in Hpid.
Qed.

Lemma filterPrivate_thrown (index : PuzzleIndexT) (now : Timestamp)
    (pid : string) :
  filterPrivate index now = Throws (MissingFromPvut pid) →
  pid ∈ PuzzleIndex.i index ∧ orphan index pid = true.
Proof.
  rewrite filterPrivate_run.
  destruct (last _) as [pid'|] eqn:Hlast; [|done]. intros [= ->].
  apply last_Some in Hlast as [l Hl].
  assert (pid ∈ List.filter (orphan index) (PuzzleIndex.i index)) as Hpid.
  { rewrite Hl, elem_of_app, list_elem_of_singleton. by right. }
  apply list_elem_of_In, filter_In in Hpid as [Hin Horphan].
  by rewrite <- list_elem_of_In in Hin.
Qed.

(** A call on an index that lists an id without go-live time. *)
Lemma getPuzzlesForPage_orphan (indexDocId queryField : string)
    (queryValue : QueryValue) (page page_size : Z) (now : Timestamp)
    (db : Firestore) (pid : string) :
  coll_i db !! indexDocId ≠ Some Misshaped →
  pid ∈ PuzzleIndex.i (persistedIndex db indexDocId) →
  orphan (persistedIndex db indexDocId) pid = true →
  is_Some_right (mapEachResult db (buildQuery queryField queryValue
                                     (persistedIndex db indexDocId))) →
  ∃ pid',
    (getPuzzlesForPage puzzleFromDB indexDocId queryField queryValue
                       page page_size now db).1
    = Throws (MissingFromPvut pid').
Proof.
  intros Hdoc Hin Horphan Hquery.
  rewrite getPuzzlesForPage_run_shaped by done.
  destruct (mapEachResult db _) as [err|rows]; [done|]. cbv zeta.
  destruct (filterPrivate_throws
              (updatedIndex (persistedIndex db indexDocId)
                 (notIndexed (persistedIndex db indexDocId) rows))
              now pid) as [pid' Hthrows].
  - rewrite updatedIndex_i, elem_of_app. by right.
  - apply updatedIndex_orphan; [|done].
    apply Forall_forall. intros p Hp Heq. unfold notIndexed in Hp.
    apply list_elem_of_filter in Hp as [Hout _].
    unfold Js.includes in Hout.
    apply bool_decide_eq_false in Hout. by rewrite Heq in Hout.
  - exists pid'. by rewrite Hthrows.
Qed.

(** The store that a call leaves behind when its filter has thrown. *)
Lemma getPuzzlesForPage_thrown (indexDocId queryField : string)
    (queryValue : QueryValue) (page page_size : Z) (now : Timestamp)
    (db db' : Firestore) (pid : string) :
  is_Some_right (mapEachResult db (buildQuery queryField queryValue
                                     (persistedIndex db indexDocId))) →
  getPuzzlesForPage puzzleFromDB indexDocId queryField queryValue
                    page page_size now db
  = (Throws (MissingFromPvut pid), db') →
  coll_i db' !! indexDocId ≠ Some Misshaped
  ∧ pid ∈ PuzzleIndex.i (persistedIndex db' indexDocId)
  ∧ orphan (persistedIndex db' indexDocId) pid = true.
Proof.
  intros Hquery Hcall.
  assert (coll_i db !! indexDocId ≠ Some Misshaped) as Hdoc.
  { intros Hdoc. rewrite getPuzzlesForPage_run, Hdoc in Hcall. done. }
  rewrite getPuzzlesForPage_run_shaped in Hcall by done.
  destruct (mapEachResult db _) as [err|rows]; [done|].
  cbv zeta in Hcall.
  destruct (filterPrivate _ now) as [idsAndTimes|err] eqn:Hfilter; [done|].
  injection Hcall as -> <-.
  apply filterPrivate_thrown in Hfilter as [Hin Horphan].
  rewrite <- persistedIndex_storeAfter in Hin, Horphan by done.
  split; [|done].
  unfold storeAfter. destruct (notIndexed _ rows); simpl; [done|].
  by rewrite lookup_insert_eq.
Qed.

(** X26 (getPuzzlesForPage, lines 440-473).  When the query is answered
    and the call fails with ['mising from pvut but in pvui'], the index
    it has written still lists an id without go-live time, and every
    later call for the same page whose query is answered fails in the
    same way, whatever the page asked for and the time: the failure
    does not heal by itself. *)
Theorem getPuzzlesForPage_failure_stays (indexDocId queryField : string)
    (queryValue : QueryValue) (page page_size page' page_size' : Z)
    (now now' : Timestamp) (db db' : Firestore) (pid : string) :
  is_Some_right (mapEachResult db (buildQuery queryField queryValue
                                     (persistedIndex db indexDocId))) →
  getPuzzlesForPage puzzleFromDB indexDocId queryField queryValue
                    page page_size now db
  = (Throws (MissingFromPvut pid), db') →
  is_Some_right (mapEachResult db' (buildQuery queryField queryValue
                                      (persistedIndex db' indexDocId))) →
  orphan (persistedIndex db' indexDocId) pid = true
  ∧ ∃ pid',
      (getPuzzlesForPage puzzleFromDB indexDocId queryField queryValue
                         page' page_size' now' db').1
      = Throws (MissingFromPvut pid').
Proof.
  intros Hquery Hcall Hquery'.
  destruct (getPuzzlesForPage_thrown _ _ _ _ _ _ _ _ _ Hquery Hcall)
    as (Hdoc & Hin & Horphan).
  split; [done|]. by apply getPuzzlesForPage_orphan with pid.
Qed.

End IndexBuilderMore.

(** ** The notification digest *)
Section DigestBlocks.

Lemma append_empty_r (s1 s2 : string) :
  s1 +:+ s2 = EmptyString → s2 = EmptyString.
Proof. by destruct s1. Qed.

Lemma pushTo_elem_of (key : string) (x n : NotificationT)
    (rv rv' : list (string * list NotificationT)) :
  pushTo key x rv = Returns rv' →
  n ∈ concat rv'.*2 ↔ n = x ∨ n ∈ concat rv.*2.
Proof.
  revert rv'. induction rv as [|[k xs] rv IH]; intros rv'; simpl.
  - destruct (Js.inherited key); [done|]. intros [= <-]. simpl. set_solver.
  - destruct (decide (k = key)).
    + intros [= <-]. simpl. set_solver.
    + destruct (pushTo key x rv) as [rest|]; [|done]. intros [= <-]. simpl.
      rewrite !elem_of_app, (IH _ eq_refl). tauto.
Qed.

Lemma pushTo_nonempty (key : string) (x : NotificationT)
    (rv rv' : list (string * list NotificationT)) :
  pushTo key x rv = Returns rv' →
  Forall (λ group, group.2 ≠ []) rv →
  Forall (λ group, group.2 ≠ []) rv'.
Proof.
  intros Hpush Hrv. revert rv' Hpush.
  induction Hrv as [|[k xs] rv Hxs Hrv IH]; intros rv'; simpl.
  - destruct (Js.inherited key); [done|]. intros [= <-].
    by repeat constructor.
  - destruct (decide (k = key)).
    + intros [= <-]. constructor; [|done]. simpl. by destruct xs.
    + destruct (pushTo key x rv) as [rest|]; [|done]. intros [= <-].
      constructor; [done|]. by apply IH.
Qed.

Lemma pushTo_keys (key : string) (x : NotificationT)
    (rv rv' : list (string * list NotificationT)) :
  pushTo key x rv = Returns rv' →
  rv'.*1 = if decide (key ∈ rv.*1) then rv.*1 else rv.*1 ++ [key].
Proof.
  revert rv'. induction rv as [|[k xs] rv IH]; intros rv'.
  { cbn [pushTo]. destruct (Js.inherited key); [done|]. intros [= <-].
    case_decide as Hin; [by apply elem_of_nil in Hin|done]. }
  cbn [pushTo]. destruct (decide (k = key)) as [->|Hne].
  - intros [= <-]. clear IH. rewrite !fmap_cons. cbn [fst].
    case_decide as Hin; [done|]. destruct Hin. apply list_elem_of_here.
  - destruct (pushTo key x rv) as [rest|]; [|done]. intros [= <-].
    rewrite !fmap_cons, (IH _ eq_refl). cbn [fst].
    case_decide as Hin; case_decide as Hin'; try done.
    + destruct Hin'. by apply list_elem_of_further.
    + apply elem_of_cons in Hin' as [?|?]; done.
Qed.

(** The push goes through for a key that the record has as its own,
    and for a name that the record does not inherit. *)
Lemma pushTo_returns (key : string) (x : NotificationT)
    (rv : list (string * list NotificationT)) :
  Js.inherited key = false ∨ key ∈ rv.*1 →
  ∃ rv', pushTo key x rv = Returns rv'.
Proof.
  induction rv as [|[k xs] rv IH]; intros Hkey; simpl.
  - destruct Hkey as [->|Hin]; [eauto|by apply elem_of_nil in Hin].
  - destruct (decide (k = key)) as [->|Hne]; [eauto|].
    destruct IH as [rest ->]; [|eauto].
    destruct Hkey as [?|Hin]; [by left|right].
    rewrite fmap_cons in Hin. apply elem_of_cons in Hin as [?|?]; done.
Qed.

(** It throws for the name of an inherited property that the record
    has not as its own. *)
Lemma pushTo_throws (key : string) (x : NotificationT)
    (rv : list (string * list NotificationT)) :
  Js.inherited key = true → key ∉ rv.*1 →
  pushTo key x rv = Throws (NotAFunction "push").
Proof.
  intros Hkey. induction rv as [|[k xs] rv IH]; intros Hown; simpl.
  - by rewrite Hkey.
  - rewrite fmap_cons in Hown. apply not_elem_of_cons in Hown as [Hne Hown].
    rewrite decide_False by done. by rewrite IH.
Qed.

Lemma reduceBy_elem_of (key : NotificationT → string)
    (xs : list NotificationT) (n : NotificationT) :
  ∀ rv groups,
    reduceBy key xs rv = Returns groups →
    n ∈ concat groups.*2 ↔ n ∈ xs ∨ n ∈ concat rv.*2.
Proof.
  induction xs as [|x xs IH]; intros rv groups; simpl.
  { intros [= <-]. rewrite elem_of_nil. tauto. }
  destruct (pushTo (key x) x rv) as [rv'|] eqn:Hpush; [|done].
  intros Hrest. rewrite (IH _ _ Hrest), (pushTo_elem_of _ _ _ _ _ Hpush).
  rewrite elem_of_cons. tauto.
Qed.

Lemma reduceBy_nonempty (key : NotificationT → string)
    (xs : list NotificationT) :
  ∀ rv groups,
    reduceBy key xs rv = Returns groups →
    Forall (λ group, group.2 ≠ []) rv →
    Forall (λ group, group.2 ≠ []) groups.
Proof.
  induction xs as [|x xs IH]; intros rv groups; simpl.
  { by intros [= <-]. }
  destruct (pushTo (key x) x rv) as [rv'|] eqn:Hpush; [|done].
  intros Hrest Hrv. apply (IH _ _ Hrest).
  by apply (pushTo_nonempty _ _ _ _ Hpush).
Qed.

(** The [reduce] goes through when no key is the name of an inherited
    property. *)
Lemma reduceBy_returns (key : NotificationT → string)
    (xs : list NotificationT) :
  (∀ x, x ∈ xs → Js.inherited (key x) = false) →
  ∀ rv, ∃ groups, reduceBy key xs rv = Returns groups.
Proof.
  induction xs as [|x xs IH]; intros Hkeys rv; simpl; [eauto|].
  destruct (pushTo_returns (key x) x rv) as [rv' ->].
  { left. apply Hkeys, list_elem_of_here. }
  apply IH. intros y Hy. by apply Hkeys, list_elem_of_further.
Qed.

(** It throws when some key is, and the record did not start with
    such a key. *)
Lemma reduceBy_throws (key : NotificationT → string)
    (xs : list NotificationT) :
  (∃ x, x ∈ xs ∧ Js.inherited (key x) = true) →
  ∀ rv, (∀ k, k ∈ rv.*1 → Js.inherited k = false) →
        reduceBy key xs rv = Throws (NotAFunction "push").
Proof.
  induction xs as [|x xs IH]; intros (y & Hy & Hkey) rv Hrv.
  { by apply elem_of_nil in Hy. }
  simpl. destruct (Js.inherited (key x)) eqn:Hx.
  - rewrite pushTo_throws; [done..|].
    intros Hown. apply Hrv in Hown. congruence.
  - destruct (pushTo_returns (key x) x rv) as [rv' Hpush]; [by left|].
    rewrite Hpush. apply IH.
    + apply elem_of_cons in Hy as [->|Hy]; [congruence|by exists y].
    + intros k. rewrite (pushTo_keys _ _ _ _ Hpush).
      case_decide; [apply Hrv|].
      rewrite elem_of_app, list_elem_of_singleton. intros [?| ->]; auto.
Qed.

(** It throws nothing else. *)
Lemma pushTo_error (key : string) (x : NotificationT)
    (rv : list (string * list NotificationT)) (err : Error) :
  pushTo key x rv = Throws err → err = NotAFunction "push".
Proof.
  induction rv as [|[k xs] rv IH]; simpl.
  - destruct (Js.inherited key); [by intros [= <-]|done].
  - destruct (decide (k = key)); [done|].
    destruct (pushTo key x rv); [done|]. intros [= <-]. by apply IH.
Qed.

Lemma reduceBy_error (key : NotificationT → string)
    (xs : list NotificationT) (err : Error) :
  ∀ rv, reduceBy key xs rv = Throws err → err = NotAFunction "push".
Proof.
  induction xs as [|x xs IH]; intros rv; simpl; [done|].
  destruct (pushTo (key x) x rv) as [rv'|err'] eqn:Hpush; [apply IH|].
  intros [= <-]. by apply pushTo_error in Hpush.
Qed.

Lemma filter_complement {A} (keep : A → bool) (l : list A) :
  List.filter keep l ++ List.filter (λ x, negb (keep x)) l ≡ₚ l.
Proof.
  induction l as [|x l IH]; simpl; [done|].
  destruct (keep x); simpl.
  - by f_equiv.
  - rewrite <- Permutation_middle. by f_equiv.
Qed.

(** [Object.entries] gives the own properties, each once. *)
Lemma ownEntries_perm {V} (props : list (string * V)) :
  Js.ownEntries props ≡ₚ props.
Proof.
  unfold Js.ownEntries. rewrite sort_perm.
  apply (filter_complement (λ e, Js.defined (Js.arrayIndex e.1))).
Qed.

Lemma byPuzzle_elem_of (xs : list NotificationT)
    (groups : list (string * list NotificationT)) (n : NotificationT) :
  byPuzzle xs = Returns groups →
  n ∈ concat (Js.ownEntries groups).*2 ↔ n ∈ xs.
Proof.
  intros Hgroups.
  assert (concat (Js.ownEntries groups).*2 ≡ₚ concat groups.*2) as ->.
  { by rewrite ownEntries_perm. }
  rewrite (reduceBy_elem_of _ _ _ _ _ Hgroups). simpl.
  rewrite elem_of_nil. tauto.
Qed.

Lemma byPuzzle_nonempty (xs : list NotificationT)
    (groups : list (string * list NotificationT)) :
  byPuzzle xs = Returns groups →
  Forall (λ group, group.2 ≠ []) (Js.ownEntries groups).
Proof.
  intros Hgroups. rewrite ownEntries_perm.
  apply (reduceBy_nonempty _ _ _ _ Hgroups). constructor.
Qed.

(** The groups are never empty, so that ['oob'] is not thrown. *)
Lemma firstNames_returns (groups : list (string * list NotificationT)) :
  Forall (λ group, group.2 ≠ []) groups →
  ∃ names, firstNames groups = Returns names.
Proof.
  induction 1 as [|[k xs] groups Hxs _ [names IH]]; simpl; [eauto|].
  destruct xs as [|first rest]; [done|]. rewrite IH. eauto.
Qed.

Lemma filter_elem_of (isKind : NotificationT → bool)
    (sorted : list NotificationT) (n : NotificationT) :
  n ∈ List.filter isKind sorted ↔ n ∈ sorted ∧ isKind n = true.
Proof. by rewrite !list_elem_of_In, filter_In. Qed.

(** A block of comments or of replies, once the [reduce] by puzzle has
    gone through. *)
Lemma threadSection_run (isKind : NotificationT → bool)
    (subjectPrefix heading verb fallback : string)
    (sorted : list NotificationT) (d : Draft)
    (groups : list (string * list NotificationT)) :
  byPuzzle (List.filter isKind sorted) = Returns groups →
  ∃ d', threadSection isKind subjectPrefix heading verb fallback sorted d
        = Returns d'
        ∧ extends isKind sorted d d'.
Proof.
  intros Hgroups. unfold threadSection, extends. rewrite Hgroups.
  destruct (List.filter isKind sorted) as [|c cs] eqn:Hcs.
  { exists d. rewrite bool_decide_eq_false_2 by (simpl; lia).
    split; [done|]. split; [done|]. split; [done|].
    intros n. split; [by left|]. intros [Hin|Hin]; [done|].
    apply filter_elem_of in Hin. rewrite Hcs in Hin.
    by apply elem_of_nil in Hin. }
  rewrite bool_decide_eq_true_2 by (simpl; lia).
  destruct (firstNames_returns _ (byPuzzle_nonempty (c :: cs) groups Hgroups))
    as [names ->].
  set (subject := match draftSubject d with
                  | Some s => Returns (Some s)
                  | None => Returns _
                  end).
  assert (∃ s, subject = Returns s) as [s ->].
  { subst subject. destruct (draftSubject d); eauto. }
  eexists. split; [reflexivity|]. simpl.
  split; [done|]. split.
  { intros _ Hempty. by do 2 apply append_empty_r in Hempty. }
  intros n.
  assert (∀ groups d0,
    read (foldl (λ d group,
                   mkDraft
                     (markdown d +:+ "* "
                      +:+ joinStringsWithAnd (n_cn <$> group.2) +:+ verb
                      +:+ "["
                      +:+ orElse (default EmptyString (n_pn <$> head group.2))
                                 fallback
                      +:+ "](" +:+ puzzleLink group.1 +:+ ")" +:+ nl)
                     (draftSubject d) (read d ++ group.2))
                d0 groups)
    = read d0 ++ concat groups.*2) as Hfold.
  { clear. induction groups as [|g groups IH]; intros d0; simpl.
    - by rewrite app_nil_r.
    - rewrite IH. simpl. by rewrite app_assoc. }
  rewrite Hfold. simpl. rewrite elem_of_app.
  rewrite (byPuzzle_elem_of (c :: cs) groups n Hgroups).
  rewrite <- Hcs, filter_elem_of. done.
Qed.

(** The block goes through when no notification of its kind has a
    puzzle id that is the name of an inherited property. *)
Lemma threadSection_extends (isKind : NotificationT → bool)
    (subjectPrefix heading verb fallback : string)
    (sorted : list NotificationT) (d : Draft) :
  (∀ n, n ∈ sorted → isKind n = true → Js.inherited (n_p n) = false) →
  ∃ d', threadSection isKind subjectPrefix heading verb fallback sorted d
        = Returns d'
        ∧ extends isKind sorted d d'.
Proof.
  intros Hclean.
  assert (∃ groups, byPuzzle (List.filter isKind sorted) = Returns groups)
    as [groups Hgroups].
  { apply reduceBy_returns.
    intros n [Hn Hkind]%filter_elem_of. by apply Hclean. }
  by apply threadSection_run with groups.
Qed.

Lemma threadSection_returns (isKind : NotificationT → bool)
    (subjectPrefix heading verb fallback : string)
    (sorted : list NotificationT) (d d' : Draft) :
  threadSection isKind subjectPrefix heading verb fallback sorted d
  = Returns d' →
  extends isKind sorted d d'.
Proof.
  intros Hrun.
  destruct (byPuzzle (List.filter isKind sorted)) as [groups|err]
    eqn:Hgroups.
  - destruct (threadSection_run isKind subjectPrefix heading verb fallback
                sorted d groups Hgroups) as (d'' & Hrun' & Hextends).
    congruence.
  - unfold threadSection in Hrun. by rewrite Hgroups in Hrun.
Qed.

(** The only error of a block is that of the [reduce]. *)
Lemma threadSection_error (isKind : NotificationT → bool)
    (subjectPrefix heading verb fallback : string)
    (sorted : list NotificationT) (d : Draft) (err : Error) :
  threadSection isKind subjectPrefix heading verb fallback sorted d
  = Throws err →
  err = NotAFunction "push".
Proof.
  intros Hrun.
  destruct (byPuzzle (List.filter isKind sorted)) as [groups|err']
    eqn:Hgroups.
  - destruct (threadSection_run isKind subjectPrefix heading verb fallback
                sorted d groups Hgroups) as (d'' & Hrun' & Hextends).
    congruence.
  - unfold threadSection in Hrun. rewrite Hgroups in Hrun.
    injection Hrun as <-. by apply reduceBy_error in Hgroups.
Qed.

(** A block of comments or of replies throws when a notification of
    its kind has a puzzle id that is the name of an inherited
    property. *)
Lemma threadSection_throws (isKind : NotificationT → bool)
    (subjectPrefix heading verb fallback : string)
    (sorted : list NotificationT) (d : Draft) :
  (∃ n, n ∈ sorted ∧ isKind n = true ∧ Js.inherited (n_p n) = true) →
  threadSection isKind subjectPrefix heading verb fallback sorted d
  = Throws (NotAFunction "push").
Proof.
  intros (n & Hn & Hkind & Hname). unfold threadSection, byPuzzle.
  rewrite reduceBy_throws; [done| |by intros k ?%elem_of_nil].
  exists n. split; [by apply filter_elem_of|done].
Qed.

Lemma newPuzzlesSection_extends (sorted : list NotificationT) (d : Draft) :
  extends isNewPuzzleNotification sorted d (newPuzzlesSection sorted d).
Proof.
  unfold newPuzzlesSection, extends.
  destruct (List.filter isNewPuzzleNotification sorted) as [|c cs] eqn:Hcs.
  { rewrite bool_decide_eq_false_2 by (simpl; lia).
    split; [done|]. split; [done|].
    intros n. split; [by left|]. intros [Hin|Hin]; [done|].
    apply filter_elem_of in Hin. rewrite Hcs in Hin.
    by apply elem_of_nil in Hin. }
  rewrite bool_decide_eq_true_2 by (simpl; lia).
  cbv zeta. split; [done|]. split.
  { intros _ Hempty. simpl in Hempty.
    by do 2 apply append_empty_r in Hempty. }
  intros n.
  assert (∀ ps d0,
    read (foldl (λ d p,
                   mkDraft (markdown d +:+ "* " +:+ n_an p +:+ " published ["
                            +:+ n_pn p +:+ "](" +:+ puzzleLink (n_p p) +:+ ")"
                            +:+ nl)
                           (draftSubject d) (read d ++ [p]))
                d0 ps)
    = read d0 ++ ps) as Hfold.
  { induction ps as [|p ps IH]; intros d0; simpl.
    - by rewrite app_nil_r.
    - rewrite IH. simpl. by rewrite <- app_assoc. }
  simpl read at 1. rewrite Hfold. simpl read.
  rewrite <- app_assoc. change ([c] ++ cs) with (c :: cs).
  rewrite elem_of_app, <- Hcs, filter_elem_of. done.
Qed.

Lemma featuredSection_extends (sorted : list NotificationT) (d : Draft) :
  extends isFeaturedNotification sorted d (featuredSection sorted d).
Proof.
  unfold featuredSection, extends.
  destruct (List.filter isFeaturedNotification sorted) as [|c cs] eqn:Hcs.
  { rewrite bool_decide_eq_false_2 by (simpl; lia).
    split; [done|]. split; [done|].
    intros n. split; [by left|]. intros [Hin|Hin]; [done|].
    apply filter_elem_of in Hin. rewrite Hcs in Hin.
    by apply elem_of_nil in Hin. }
  rewrite bool_decide_eq_true_2 by (simpl; lia).
  cbv zeta. split; [done|]. split.
  { intros _ Hempty. simpl in Hempty.
    by do 2 apply append_empty_r in Hempty. }
  intros n.
  assert (∀ ps d0,
    read (foldl (λ d p,
                   mkDraft (markdown d +:+ "* [" +:+ n_pn p +:+ "]("
                            +:+ puzzleLink (n_p p) +:+ ") was featured"
                            +:+ match n_as p with
                                | Some a =>
                                    if decide (a = EmptyString)
                                    then EmptyString
                                    else " as " +:+ a
                                | None => EmptyString
                                end
                            +:+ nl)
                           (draftSubject d) (read d ++ [p]))
                d0 ps)
    = read d0 ++ ps) as Hfold.
  { induction ps as [|p ps IH]; intros d0; simpl.
    - by rewrite app_nil_r.
    - rewrite IH. simpl. by rewrite <- app_assoc. }
  simpl read at 1. rewrite Hfold. simpl read.
  rewrite <- app_assoc. change ([c] ++ cs) with (c :: cs).
  rewrite elem_of_app, <- Hcs, filter_elem_of. done.
Qed.

Lemma tells_extends (isKind covered : NotificationT → bool)
    (sorted : list NotificationT) (d d' : Draft) :
  tells sorted covered d →
  extends isKind sorted d d' →
  tells sorted (λ n, covered n || isKind n) d'.
Proof.
  intros [Hread Htext] (Hnone & Hsome & Hread'). split.
  - intros n. rewrite Hread', Hread, orb_true_iff. tauto.
  - destruct (List.filter isKind sorted) as [|c cs] eqn:Hcs.
    + rewrite Hnone by done. rewrite Htext.
      assert (∀ n, n ∈ sorted → isKind n = false) as Hkind.
      { intros n Hin. destruct (isKind n) eqn:Hn; [|done].
        assert (n ∈ List.filter isKind sorted) as Hf
          by by apply filter_elem_of.
        rewrite Hcs in Hf. by apply elem_of_nil in Hf. }
      split; intros Hall n Hin.
      * by rewrite (Hall n Hin), (Hkind n Hin).
      * specialize (Hall n Hin). by apply orb_false_iff in Hall as [? _].
    + split; [intros Hempty; by destruct (Hsome ltac:(done))|].
      intros Hall.
      assert (c ∈ List.filter isKind sorted) as Hc
        by (rewrite Hcs; apply list_elem_of_here).
      apply filter_elem_of in Hc as [Hin Hc].
      specialize (Hall c Hin). rewrite Hc, orb_true_r in Hall. done.
Qed.

Lemma tells_ext (covered covered' : NotificationT → bool)
    (sorted : list NotificationT) (d : Draft) :
  (∀ n, covered n = covered' n) →
  tells sorted covered d → tells sorted covered' d.
Proof.
  intros Hext [Hread Htext]. split.
  - intros n. by rewrite Hread, Hext.
  - rewrite Htext. split; intros Hall n Hin;
      [rewrite <- Hext | rewrite Hext]; auto.
Qed.

Lemma wanted_thread (prefs : option AccountPrefsT) (n : NotificationT) :
  isCommentNotification n || isReplyNotification n = true →
  wanted prefs n = negb (unsubscribed prefs "comments").
Proof. by destruct n. Qed.

(** The message that is built tells of the notifications of the kinds
    that the user has not unsubscribed from. *)
Lemma digestDraft_returns_tells (prefs : option AccountPrefsT)
    (sorted : list NotificationT) (d : Draft) :
  digestDraft prefs sorted = Returns d → tells sorted (wanted prefs) d.
Proof.
  unfold digestDraft.
  set (d0 := mkDraft EmptyString None []).
  assert (tells sorted (λ _, false) d0) as H0.
  { split; simpl; [|done]. intros n. split; [by intros ?%elem_of_nil|].
    by intros [_ ?]. }
  destruct (if unsubscribed prefs "comments" then Returns d0
            else
              match threadSection isCommentNotification
                      "Crosshare: new comments on "
                      "### Comments on your puzzles:"
                      " commented on " "your puzzle" sorted d0 with
              | Returns d =>
                  threadSection isReplyNotification
                    "Crosshare: new replies to your comments on "
                    "### Replies to your comments:"
                    " replied to your comments on " "a puzzle" sorted d
              | Throws err => Throws err
              end) as [d1|err] eqn:Hthreads; [|done].
  assert (tells sorted
            (λ n, negb (unsubscribed prefs "comments")
                  && (isCommentNotification n || isReplyNotification n)) d1)
    as H1.
  { destruct (unsubscribed prefs "comments").
    { by injection Hthreads as <-. }
    destruct (threadSection isCommentNotification _ _ _ _ sorted d0)
      as [dc|] eqn:Hcomments; [|done].
    apply threadSection_returns in Hcomments, Hthreads.
    eapply tells_ext;
      [|exact (tells_extends _ _ _ _ _
                 (tells_extends _ _ _ _ _ H0 Hcomments) Hthreads)].
    done. }
  intros [= <-].
  set (d2 := if unsubscribed prefs "newpuzzles" then d1
             else newPuzzlesSection sorted d1).
  assert (tells sorted
            (λ n, negb (unsubscribed prefs "comments")
                  && (isCommentNotification n || isReplyNotification n)
                  || negb (unsubscribed prefs "newpuzzles")
                     && isNewPuzzleNotification n) d2) as H2.
  { subst d2. destruct (unsubscribed prefs "newpuzzles"); simpl.
    - eapply tells_ext; [|exact H1]. intros n. by rewrite orb_false_r.
    - exact (tells_extends _ _ _ _ _ H1 (newPuzzlesSection_extends _ _)). }
  destruct (unsubscribed prefs "featured") eqn:Hf.
  - eapply tells_ext; [|exact H2]. intros n. unfold wanted.
    rewrite Hf. destruct n; simpl;
      by rewrite ?andb_true_r, ?andb_false_r, ?orb_false_r.
  - eapply tells_ext;
      [|exact (tells_extends _ _ _ _ _ H2 (featuredSection_extends _ _))].
    intros n. unfold wanted. rewrite Hf. destruct n; simpl;
      by rewrite ?andb_true_r, ?andb_false_r, ?orb_false_r.
Qed.

(** The message is built when no notification of a kind that the user
    has not unsubscribed from clashes with an inherited name. *)
Lemma digestDraft_tells (prefs : option AccountPrefsT)
    (sorted : list NotificationT) :
  (∀ n, n ∈ sorted → wanted prefs n = true → clashes n = false) →
  ∃ d, digestDraft prefs sorted = Returns d ∧ tells sorted (wanted prefs) d.
Proof.
  intros Hclean.
  assert (∃ d, digestDraft prefs sorted = Returns d) as [d Hd];
    [|exists d; split; [done|by apply digestDraft_returns_tells]].
  unfold digestDraft.
  destruct (unsubscribed prefs "comments") eqn:Hsub; [eauto|].
  assert (∀ n, n ∈ sorted →
               isCommentNotification n || isReplyNotification n = true →
               Js.inherited (n_p n) = false) as Hnames.
  { intros n Hn Hkind. specialize (Hclean n Hn).
    rewrite (wanted_thread _ _ Hkind), Hsub in Hclean.
    specialize (Hclean eq_refl). unfold clashes in Hclean.
    by rewrite Hkind in Hclean. }
  destruct (threadSection_extends isCommentNotification
              "Crosshare: new comments on "
              "### Comments on your puzzles:"
              " commented on " "your puzzle" sorted
              (mkDraft EmptyString None [])) as (dc & -> & _).
  { intros n Hn Hkind. apply Hnames; [done|]. by rewrite Hkind. }
  destruct (threadSection_extends isReplyNotification
              "Crosshare: new replies to your comments on "
              "### Replies to your comments:"
              " replied to your comments on " "a puzzle" sorted dc)
    as (dr & -> & _).
  { intros n Hn Hkind. apply Hnames; [done|].
    by rewrite Hkind, orb_true_r. }
  eauto.
Qed.

(** No message is built when a notification of comments or replies
    that the user has not unsubscribed from clashes with an inherited
    name: the block of its kind throws, if the block before it has
    not. *)
Lemma digestDraft_throws (prefs : option AccountPrefsT)
    (sorted : list NotificationT) :
  (∃ n, n ∈ sorted ∧ wanted prefs n = true ∧ clashes n = true) →
  digestDraft prefs sorted = Throws (NotAFunction "push").
Proof.
  intros (n & Hn & Hwanted & Hclash). unfold clashes in Hclash.
  apply andb_true_iff in Hclash as [Hkind Hname].
  rewrite (wanted_thread _ _ Hkind) in Hwanted.
  apply negb_true_iff in Hwanted. unfold digestDraft. rewrite Hwanted.
  destruct (threadSection isCommentNotification _ _ _ _ sorted _)
    as [dc|err] eqn:Hcomments.
  2: { by apply threadSection_error in Hcomments as ->. }
  destruct (isCommentNotification n) eqn:Hcomment.
  { rewrite threadSection_throws in Hcomments; [done|]. by exists n. }
  rewrite threadSection_throws; [done|]. by exists n.
Qed.

Lemma markRead_idemp (n : NotificationT) : markRead (markRead n) = markRead n.
Proof. by destruct n. Qed.

(** The documents that the updates [{ r: true }] leave behind. *)
Lemma markAllRead_lookup (ns : list NotificationT)
    (coll : gmap string NotificationT) (id : string) :
  foldl (λ coll n, alter markRead (NotificationBase.id (base n)) coll)
        coll ns !! id
  = if decide (id ∈ idsOf ns) then markRead <$> coll !! id else coll !! id.
Proof.
  unfold idsOf. revert coll.
  induction ns as [|n ns IH]; intros coll.
  { case_decide as Hin; [by apply elem_of_nil in Hin|done]. }
  rewrite fmap_cons. cbn [foldl]. rewrite IH.
  destruct (decide (NotificationBase.id (base n) = id)) as [<-|Hne].
  - rewrite lookup_alter_eq.
    case_decide as Hin; case_decide as Hin';
      try (exfalso; apply Hin'; apply list_elem_of_here).
    + destruct (coll !! _); simpl; [|done]. by rewrite markRead_idemp.
    + done.
  - rewrite lookup_alter_ne by done.
    case_decide as Hin; case_decide as Hin'; try done.
    + exfalso. apply Hin'. by apply list_elem_of_further.
    + exfalso. apply elem_of_cons in Hin' as [->|?]; done.
Qed.

End DigestBlocks.

Section DigestMore.

Context (localeCompare : string → string → Z)
        (markdownToHtml : string → string).

Lemma orElse_nonempty (a b : string) :
  b ≠ EmptyString → orElse a b ≠ EmptyString.
Proof. unfold orElse. by destruct (decide (a = EmptyString)). Qed.

(** The call that has nothing to tell. *)
Lemma queueEmailForUser_quiet (userId : string)
    (notifications : list NotificationT) (db : Firestore) :
  unsubscribed (storedPrefs db userId) "all" = true
  ∨ users db !! userId ≫= email = None
  ∨ users db !! userId ≫= email = Some EmptyString →
  queueEmailForUser localeCompare markdownToHtml userId notifications db
  = (Returns (), db).
Proof.
  intros Hquiet.
  unfold queueEmailForUser, storedPrefs, bind, get_prefs, getUser, ret in *.
  set (prefs := match coll_prefs db !! userId with
                | Some data => match decode data with
                               | Right validated => Some validated
                               | Left _ => None
                               end
                | None => None
                end).
  assert (match coll_prefs db !! userId with
          | Some (Shaped prefs) => Some prefs
          | _ => None
          end = prefs) as Hprefs.
  { subst prefs. by destruct (coll_prefs db !! userId) as [[?|]|]. }
  rewrite Hprefs in Hquiet.
  destruct (unsubscribed prefs "all"); [done|].
  destruct Hquiet as [?|[-> | ->]]; done.
Qed.

(** The call that has an address to write to. *)
Lemma queueEmailForUser_run (userId toAddress : string)
    (notifications : list NotificationT) (db : Firestore) :
  let sorted :=
    Js.sort (λ n1 n2, localeCompare (NotificationBase.id (base n1))
                                    (NotificationBase.id (base n2)))
            notifications in
  let after := queueEmailForUser localeCompare markdownToHtml userId
                                 notifications db in
  unsubscribed (storedPrefs db userId) "all" = false →
  users db !! userId ≫= email = Some toAddress →
  toAddress ≠ EmptyString →
  match digestDraft (storedPrefs db userId) sorted with
  | Throws err => after = (Throws err, db)
  | Returns d =>
      if decide (markdown d = EmptyString) then after = (Returns (), db)
      else ∃ mail,
             Mail.to mail = [toAddress]
             ∧ Mail.subject mail ≠ EmptyString
             ∧ after = markAllRead (read d)
                         (with_coll_mail (λ sent, sent ++ [mail]) db)
  end.
Proof.
  intros sorted after Hall Hmail Haddr. subst after.
  unfold queueEmailForUser, digestDraft, storedPrefs, bind, get_prefs,
    getUser, ret, lift, sendEmail in *.
  fold sorted.
  set (prefs := match coll_prefs db !! userId with
                | Some data => match decode data with
                               | Right validated => Some validated
                               | Left _ => None
                               end
                | None => None
                end).
  assert (match coll_prefs db !! userId with
          | Some (Shaped prefs) => Some prefs
          | _ => None
          end = prefs) as Hprefs.
  { subst prefs. by destruct (coll_prefs db !! userId) as [[?|]|]. }
  rewrite Hprefs in *. rewrite Hall, Hmail.
  destruct (decide (toAddress = EmptyString)); [done|].
  destruct (unsubscribed prefs "comments").
  - destruct (decide (markdown _ = EmptyString)); [done|].
    eexists (Mail.mk [toAddress] _ _ _).
    split; [reflexivity|]. split; [|reflexivity].
    by apply orElse_nonempty.
  - destruct (threadSection isCommentNotification _ _ _ _ sorted _)
      as [d1|err]; [|done].
    destruct (threadSection isReplyNotification _ _ _ _ sorted d1)
      as [d2|err]; [|done].
    destruct (decide (markdown _ = EmptyString)); [done|].
    eexists (Mail.mk [toAddress] _ _ _).
    split; [reflexivity|]. split; [|reflexivity].
    by apply orElse_nonempty.
Qed.

(** The call that has something to tell and an address to write to:
    one mail, then the updates of the notifications told of. *)
Lemma queueEmailForUser_sends (userId toAddress : string)
    (notifications : list NotificationT) (db : Firestore) :
  unsubscribed (storedPrefs db userId) "all" = false →
  users db !! userId ≫= email = Some toAddress →
  toAddress ≠ EmptyString →
  (∃ n, n ∈ notifications ∧ wanted (storedPrefs db userId) n = true) →
  (∀ n, n ∈ notifications → wanted (storedPrefs db userId) n = true →
        clashes n = false) →
  ∃ mail toMark,
    queueEmailForUser localeCompare markdownToHtml userId notifications db
    = markAllRead toMark (with_coll_mail (λ sent, sent ++ [mail]) db)
    ∧ Mail.to mail = [toAddress]
    ∧ Mail.subject mail ≠ EmptyString
    ∧ ∀ n, n ∈ toMark
           ↔ n ∈ notifications ∧ wanted (storedPrefs db userId) n = true.
Proof.
  intros Hall Hmail Haddr (n & Hin & Hn) Hclean.
  pose proof (queueEmailForUser_run userId toAddress notifications db)
    as Hrun.
  cbv zeta in Hrun. specialize (Hrun Hall Hmail Haddr).
  destruct (digestDraft_tells (storedPrefs db userId)
              (Js.sort (λ n1 n2, localeCompare (NotificationBase.id (base n1))
                                               (NotificationBase.id (base n2)))
                       notifications)) as (d & Hd & Hread & Htext).
  { intros m Hm. apply Hclean. by rewrite sort_perm in Hm. }
  rewrite Hd in Hrun.
  destruct (decide (markdown d = EmptyString)) as [Hempty|_].
  { apply Htext with (n := n) in Hempty; [congruence|].
    by rewrite sort_perm. }
  destruct Hrun as (mail & Hto & Hsubject & Hrun).
  exists mail, (read d).
  split; [done|]. split; [done|]. split; [done|].
  intros m. rewrite Hread. by rewrite sort_perm.
Qed.

(** X6 (queueEmailForUser, lines 615-774): when none of the notifications
    is of a kind that the user still subscribes to, the call returns
    without queueing a mail and without marking anything as read: the
    store is left as it is, whatever the address of the user. *)
Theorem queueEmailForUser_nothing_wanted (userId : string)
    (notifications : list NotificationT) (db : Firestore) :
  (∀ n, n ∈ notifications → wanted (storedPrefs db userId) n = false) →
  queueEmailForUser localeCompare markdownToHtml userId notifications db
  = (Returns (), db).
Proof.
  intros Hnone.
  destruct (unsubscribed (storedPrefs db userId) "all") eqn:Hall.
  { apply queueEmailForUser_quiet. by left. }
  destruct (users db !! userId ≫= email) as [toAddress|] eqn:Hmail.
  2: { apply queueEmailForUser_quiet. by right; left. }
  destruct (decide (toAddress = EmptyString)) as [->|Haddr].
  { apply queueEmailForUser_quiet. by right; right. }
  pose proof (queueEmailForUser_run userId toAddress notifications db)
    as Hrun.
  cbv zeta in Hrun. specialize (Hrun Hall Hmail Haddr).
  destruct (digestDraft_tells (storedPrefs db userId)
              (Js.sort (λ n1 n2, localeCompare (NotificationBase.id (base n1))
                                               (NotificationBase.id (base n2)))
                       notifications)) as (d & Hd & Hread & Htext).
  { intros n Hn Hwanted. rewrite sort_perm in Hn.
    rewrite (Hnone n Hn) in Hwanted. done. }
  rewrite Hd in Hrun.
  destruct (decide (markdown d = EmptyString)) as [_|Hfull]; [done|].
  destruct Hfull. apply Htext. intros n Hin. apply Hnone.
  by rewrite sort_perm in Hin.
Qed.

(** X7 (queueEmailForUser and sendEmail, lines 567-583 and 615-796): when
    the user has not unsubscribed from everything, has a non-empty
    address, and some notification is of a kind still subscribed to,
    exactly one mail is added to the [mail] collection; it goes to the
    address of the user alone and its subject is not empty.  This
    holds provided that no comment or reply of a kind still subscribed
    to has a puzzle id that is the name of a property of
    [Object.prototype], on which the [reduce] by puzzle throws. *)
Theorem queueEmailForUser_queues_one_mail (userId toAddress : string)
    (notifications : list NotificationT) (db : Firestore) :
  unsubscribed (storedPrefs db userId) "all" = false →
  users db !! userId ≫= email = Some toAddress →
  toAddress ≠ EmptyString →
  (∃ n, n ∈ notifications ∧ wanted (storedPrefs db userId) n = true) →
  (∀ n, n ∈ notifications → wanted (storedPrefs db userId) n = true →
        clashes n = false) →
  ∃ mail,
    coll_mail (queueEmailForUser localeCompare markdownToHtml userId
                                 notifications db).2
    = coll_mail db ++ [mail]
    ∧ Mail.to mail = [toAddress]
    ∧ Mail.subject mail ≠ EmptyString.
Proof.
  intros Hall Hmail Haddr Hsome Hclean.
  destruct (queueEmailForUser_sends userId toAddress notifications db
              Hall Hmail Haddr Hsome Hclean)
    as (mail & toMark & -> & Hto & Hsub & _).
  exists mail. split; [|done].
  unfold markAllRead. by destruct (list_find _ _) as [[? ?]|].
Qed.

(** X8 (queueEmailForUser, lines 615-799): in the same situation the
    documents of the [n] collection that are set to [r: true] are those
    of the notifications of a kind still subscribed to, and no other
    document of the collection changes; the call succeeds when each of
    these notifications has its document. *)
Theorem queueEmailForUser_marks_wanted_read (userId toAddress : string)
    (notifications : list NotificationT) (db : Firestore) :
  unsubscribed (storedPrefs db userId) "all" = false →
  users db !! userId ≫= email = Some toAddress →
  toAddress ≠ EmptyString →
  (∃ n, n ∈ notifications ∧ wanted (storedPrefs db userId) n = true) →
  (∀ n, n ∈ notifications → wanted (storedPrefs db userId) n = true →
        clashes n = false) →
  (∀ id,
     coll_n (queueEmailForUser localeCompare markdownToHtml userId
                               notifications db).2 !! id
     = if decide (id ∈ idsOf (List.filter (wanted (storedPrefs db userId))
                                          notifications))
       then markRead <$> coll_n db !! id
       else coll_n db !! id)
  ∧ ((∀ n, n ∈ notifications → wanted (storedPrefs db userId) n = true →
           is_Some (coll_n db !! NotificationBase.id (base n))) →
     (queueEmailForUser localeCompare markdownToHtml userId
                        notifications db).1 = Returns ()).
Proof.
  intros Hall Hmail Haddr Hsome Hclean.
  destruct (queueEmailForUser_sends userId toAddress notifications db
              Hall Hmail Haddr Hsome Hclean)
    as (mail & toMark & -> & _ & _ & Hmark).
  split.
  - intros id.
    assert (coll_n (markAllRead toMark
                      (with_coll_mail (λ sent, sent ++ [mail]) db)).2 !! id
            = foldl (λ coll n,
                       alter markRead (NotificationBase.id (base n)) coll)
                    (coll_n db) toMark !! id) as ->.
    { unfold markAllRead. by destruct (list_find _ _) as [[? ?]|]. }
    rewrite markAllRead_lookup.
    apply decide_ext. unfold idsOf. rewrite !list_elem_of_fmap.
    split; intros (n & -> & Hn); exists n; (split; [done|]).
    + apply filter_elem_of. by apply Hmark.
    + apply Hmark. by apply filter_elem_of.
  - intros Hdocs. unfold markAllRead.
    destruct (list_find _ _) as [[k n]|] eqn:Hfind; [|done].
    apply list_find_Some in Hfind as (Hk & Hmissing & _).
    apply list_elem_of_lookup_2, Hmark in Hk as [Hin Hw].
    destruct (Hdocs n Hin Hw) as [doc Hdoc]. simpl in Hmissing. congruence.
Qed.

(** X27 (queueEmailForUser, lines 645-698).  When the user has not
    unsubscribed from everything and has a non-empty address, and a
    comment or reply of a kind still subscribed to has a puzzle id
    that is the name of a property of [Object.prototype] (such as
    ['constructor']), the call throws: no mail is queued and nothing
    is marked as read, whatever else there is to tell. *)
Theorem queueEmailForUser_inherited_name (userId toAddress : string)
    (notifications : list NotificationT) (db : Firestore) :
  unsubscribed (storedPrefs db userId) "all" = false →
  users db !! userId ≫= email = Some toAddress →
  toAddress ≠ EmptyString →
  (∃ n, n ∈ notifications ∧ wanted (storedPrefs db userId) n = true
        ∧ clashes n = true) →
  queueEmailForUser localeCompare markdownToHtml userId notifications db
  = (Throws (NotAFunction "push"), db).
Proof.
  intros Hall Hmail Haddr (n & Hn & Hwanted & Hclash).
  pose proof (queueEmailForUser_run userId toAddress notifications db)
    as Hrun.
  cbv zeta in Hrun. specialize (Hrun Hall Hmail Haddr).
  rewrite digestDraft_throws in Hrun; [done|].
  exists n. by rewrite sort_perm.
Qed.

End DigestMore.

Section Escaping.

Lemma occurs_app (c : ascii) (a b : string) :
  occurs c (a +:+ b) = occurs c a || occurs c b.
Proof.
  induction a as [|c' a IH]; simpl; [done|]. by rewrite IH, orb_assoc.
Qed.

Lemma length_append (a b : string) :
  String.length (a +:+ b) = String.length a + String.length b.
Proof.
  induction a as [|c a IH]; [done|].
  change (String c a +:+ b) with (String c (a +:+ b)).
  cbn [String.length]. by rewrite IH.
Qed.

Lemma safeForHtml_length (str : string) :
  String.length str ≤ String.length (safeForHtml str)
  ∧ (hasTag str = true →
     String.length str < String.length (safeForHtml str)).
Proof.
  unfold hasTag. induction str as [|c str [IHle IHlt]]; [done|].
  cbn [safeForHtml occurs]. rewrite length_append.
  destruct (Ascii.eqb_spec c "&") as [->|Hamp]; [cbn; lia|].
  destruct (Ascii.eqb_spec c "<") as [->|Hlt]; [cbn; lia|].
  destruct (Ascii.eqb_spec c ">") as [->|Hgt]; [cbn; lia|].
  rewrite !(proj2 (Ascii.eqb_neq _ _)) by done.
  cbn [orb String.length]. split; [lia|].
  intros Htag. apply IHlt in Htag. lia.
Qed.

Lemma safeForHtml_clean (tag : ascii) (str : string) :
  tag = "<"%char ∨ tag = ">"%char →
  occurs tag (safeForHtml str) = false.
Proof.
  intros Htag.
  induction str as [|c str IH]; [done|].
  cbn [safeForHtml]. rewrite occurs_app, IH, orb_false_r.
  destruct (Ascii.eqb_spec c "&") as [->|Hc1];
    [by destruct Htag as [-> | ->]|].
  destruct (Ascii.eqb_spec c "<") as [->|Hc2];
    [by destruct Htag as [-> | ->]|].
  destruct (Ascii.eqb_spec c ">") as [->|Hc3];
    [by destruct Htag as [-> | ->]|].
  cbn [occurs]. rewrite orb_false_r. apply Ascii.eqb_neq.
  destruct Htag as [-> | ->]; congruence.
Qed.

(** X9 (safeForHtml, lines 601-613).  The escaped text holds no [<] and no
    [>], whatever the text was; and escaping changes a text exactly when
    one of [&], [<], [>] occurs in it. *)
Theorem safeForHtml_escapes (str : string) :
  occurs "<" (safeForHtml str) = false
  ∧ occurs ">" (safeForHtml str) = false
  ∧ (safeForHtml str = str ↔ hasTag str = false).
Proof.
  split; [|split].
  - apply safeForHtml_clean. by left.
  - apply safeForHtml_clean. by right.
  - split.
    + intros Hsame. destruct (hasTag str) eqn:Htag; [|done].
      pose proof (proj2 (safeForHtml_length str) Htag) as Hlonger.
      rewrite Hsame in Hlonger. lia.
    + unfold hasTag. induction str as [|c str IH]; [done|].
      cbn [safeForHtml occurs].
      destruct (Ascii.eqb_spec c "&") as [->|Hamp];
        [by rewrite Ascii.eqb_refl|].
      destruct (Ascii.eqb_spec c "<") as [->|Hlt];
        [by rewrite Ascii.eqb_refl, !orb_true_r|].
      destruct (Ascii.eqb_spec c ">") as [->|Hgt];
        [by rewrite Ascii.eqb_refl, !orb_true_r|].
      rewrite !(proj2 (Ascii.eqb_neq _ _)) by done. cbn [orb].
      intros Htag. rewrite IH by done. done.
Qed.

End Escaping.

Section Joining.

Lemma fromSet_elem_of (vals seen : list string) (x : string) :
  x ∈ Js.fromSet vals seen ↔ x ∈ vals ∧ x ∉ seen.
Proof.
  revert seen. induction vals as [|v vals IH]; intros seen; simpl.
  { split; [by intros ?%elem_of_nil|by intros [?%elem_of_nil _]]. }
  unfold Js.includes. case_bool_decide as Hseen.
  - rewrite IH, elem_of_cons. split; [tauto|].
    intros [[->|Hin] Hx]; done.
  - rewrite !elem_of_cons, IH, not_elem_of_cons.
    destruct (decide (x = v)) as [->|Hne]; tauto.
Qed.

Lemma fromSet_NoDup (vals seen : list string) : NoDup (Js.fromSet vals seen).
Proof.
  revert seen. induction vals as [|v vals IH]; intros seen; simpl.
  { constructor. }
  unfold Js.includes. case_bool_decide as Hseen; [apply IH|].
  constructor; [|apply IH].
  rewrite fromSet_elem_of, not_elem_of_cons. tauto.
Qed.

(** The ranking of the bytes is its own inverse. *)
Lemma rank_rank (c : ascii) : Js.rank (Js.rank c) = c.
Proof.
  unfold Js.rank.
  destruct (Ascii.eqb c "238") eqn:H238.
  { by apply Ascii.eqb_eq in H238 as ->. }
  destruct (Ascii.eqb c "239") eqn:H239.
  { by apply Ascii.eqb_eq in H239 as ->. }
  destruct (Ascii.eqb c "254") eqn:H254.
  { by apply Ascii.eqb_eq in H254 as ->. }
  destruct (Ascii.eqb c "255") eqn:H255.
  { by apply Ascii.eqb_eq in H255 as ->. }
  by rewrite H238, H239, H254, H255.
Qed.

Lemma ranked_ranked (s : string) : Js.ranked (Js.ranked s) = s.
Proof.
  induction s as [|c s IH]; simpl; [done|]. by rewrite rank_rank, IH.
Qed.

(** The order of [arr.sort()] on strings. *)
Lemma defaultCompare_le (a b : string) :
  (Js.defaultCompare a b ≤ 0)%Z
  ↔ String.compare (Js.ranked a) (Js.ranked b) ≠ Gt.
Proof.
  unfold Js.defaultCompare.
  destruct (String.compare _ _); split; (done || lia).
Qed.

Lemma defaultCompare_total (a b : string) :
  (0 < Js.defaultCompare a b)%Z → (Js.defaultCompare b a ≤ 0)%Z.
Proof.
  unfold Js.defaultCompare.
  rewrite (String.compare_antisym (Js.ranked a) (Js.ranked b)).
  destruct (String.compare (Js.ranked b) (Js.ranked a)); simpl; lia.
Qed.

Lemma defaultCompare_trans (a b c : string) :
  (Js.defaultCompare a b ≤ 0)%Z → (Js.defaultCompare b c ≤ 0)%Z →
  (Js.defaultCompare a c ≤ 0)%Z.
Proof.
  rewrite !defaultCompare_le. intros Hab Hbc.
  destruct (String.compare (Js.ranked a) (Js.ranked b)) eqn:Hab'; [| |done].
  { apply String.compare_eq_iff in Hab'. by rewrite Hab'. }
  destruct (String.compare (Js.ranked b) (Js.ranked c)) eqn:Hbc'; [| |done].
  { apply String.compare_eq_iff in Hbc'. by rewrite <- Hbc', Hab'. }
  apply OrderedTypeEx.String_as_OT.cmp_lt in Hab', Hbc'.
  pose proof (OrderedTypeEx.String_as_OT.lt_trans _ _ _ Hab' Hbc') as Hac.
  apply OrderedTypeEx.String_as_OT.cmp_lt in Hac.
  unfold OrderedTypeEx.String_as_OT.cmp in Hac. by rewrite Hac.
Qed.

Lemma defaultCompare_antisymm (a b : string) :
  (Js.defaultCompare a b ≤ 0)%Z → (Js.defaultCompare b a ≤ 0)%Z → a = b.
Proof.
  rewrite !defaultCompare_le,
    (String.compare_antisym (Js.ranked a) (Js.ranked b)).
  destruct (String.compare (Js.ranked b) (Js.ranked a)) eqn:Hba;
    simpl; try done.
  intros _ _. apply String.compare_eq_iff in Hba.
  by rewrite <- (ranked_ranked a), <- (ranked_ranked b), Hba.
Qed.

Lemma insert_by_default_sorted (x : string) (sorted : list string) :
  StronglySorted (λ a b, (Js.defaultCompare a b ≤ 0)%Z) sorted →
  StronglySorted (λ a b, (Js.defaultCompare a b ≤ 0)%Z)
                 (Js.insert_by Js.defaultCompare x sorted).
Proof.
  induction 1 as [|y rest Hrest IH Hy]; simpl.
  { repeat constructor. }
  destruct (Js.defaultCompare x y <=? 0)%Z eqn:Hcmp.
  - apply Z.leb_le in Hcmp.
    constructor; [by constructor|].
    constructor; [done|].
    eapply Forall_impl; [exact Hy|]. simpl. intros z Hz.
    by apply defaultCompare_trans with y.
  - apply Z.leb_gt in Hcmp.
    constructor; [exact IH|].
    rewrite insert_by_perm.
    constructor; [by apply defaultCompare_total|exact Hy].
Qed.

(** The values that [joinStringsWithAnd] joins are determined by the
    set of the values given. *)
Lemma dedup_set (vals vals' : list string) :
  (∀ x, x ∈ vals ↔ x ∈ vals') →
  Js.sort Js.defaultCompare (Js.fromSet vals [])
  = Js.sort Js.defaultCompare (Js.fromSet vals' []).
Proof.
  intros Hset.
  assert (∀ vals, StronglySorted (λ a b, (Js.defaultCompare a b ≤ 0)%Z)
                    (Js.sort Js.defaultCompare vals)) as Hsorted.
  { clear. induction vals as [|v vals IH]; simpl; [constructor|].
    by apply insert_by_default_sorted. }
  assert (AntiSymm (=) (λ a b, (Js.defaultCompare a b ≤ 0)%Z)) as Hanti.
  { intros a b. apply defaultCompare_antisymm. }
  apply (StronglySorted_unique (λ a b, (Js.defaultCompare a b ≤ 0)%Z));
    [apply Hsorted..|].
  rewrite !sort_perm.
  apply NoDup_Permutation; [apply fromSet_NoDup..|].
  intros x. rewrite !fromSet_elem_of, Hset. done.
Qed.

(** X10 (joinStringsWithAnd, lines 585-594).  The joined text depends on
    the set of the values only: neither their order nor their repetition
    changes it. *)
Theorem joinStringsWithAnd_set (vals vals' : list string) :
  (∀ x, x ∈ vals ↔ x ∈ vals') →
  joinStringsWithAnd vals = joinStringsWithAnd vals'.
Proof.
  intros Hset. unfold joinStringsWithAnd.
  by rewrite (dedup_set vals vals' Hset).
Qed.

End Joining.

Section Preview.

Import Markdown.

Lemma chopSingle_Nodes (type_ : string) (nodes : list SingleASTNode)
    (others : list (string * Content SingleASTNode)) (max : Z) :
  chopSingle (Node type_ (Nodes nodes) others) max
  = (Node type_ (Nodes (chop nodes max).1) others, (chop nodes max).2).
Proof. reflexivity. Qed.

Lemma textLength_Nodes (type_ : string) (nodes : list SingleASTNode)
    (others : list (string * Content SingleASTNode)) :
  textLength (Node type_ (Nodes nodes) others) = totalLength nodes.
Proof. reflexivity. Qed.

Lemma textsIn_Nodes (type_ : string) (nodes : list SingleASTNode)
    (others : list (string * Content SingleASTNode)) :
  textsIn (Node type_ (Nodes nodes) others) = texts nodes.
Proof. reflexivity. Qed.

(** Induction on a tree, with the property at hand for the nodes
    below. *)
Lemma SingleASTNode_ind' (P : SingleASTNode → Prop) :
  (∀ type_ content others,
     match content with
     | Nodes nodes => Forall P nodes
     | _ => True
     end →
     P (Node type_ content others)) →
  ∀ ast, P ast.
Proof.
  intros Hnode. fix IH 1. intros [type_ content others]. apply Hnode.
  destruct content as [|nodes| |]; try exact I.
  induction nodes as [|node nodes IHnodes];
    constructor; [apply IH|apply IHnodes].
Qed.

Lemma slice_prefix (text : Comments.JsString) (max : Z) :
  (0 ≤ max)%Z →
  Js.slice text 0 max = take (Z.to_nat max) text.
Proof.
  intros Hmax. unfold Js.slice, Js.relative.
  rewrite (proj2 (Z.ltb_ge 0 0)) by lia.
  rewrite (proj2 (Z.ltb_ge max 0)) by lia.
  change (Z.to_nat 0) with 0. rewrite Nat.min_0_l, Nat.sub_0_r, drop_0.
  destruct (decide (Z.to_nat max ≤ length text)) as [Hle|Hgt].
  - by rewrite Nat.min_l by done.
  - rewrite Nat.min_r by lia. by rewrite !take_ge by lia.
Qed.

(** A text that is shorter than what remains is kept as it is. *)
Lemma chopSingle_short (ast : SingleASTNode) :
  ∀ max, (Z.of_nat (textLength ast) < max)%Z →
         chopSingle ast max = (ast, (max - Z.of_nat (textLength ast))%Z).
Proof.
  induction ast as [type_ content others IH] using SingleASTNode_ind'.
  intros max Hshort. destruct content as [|nodes|text|].
  - simpl. by rewrite Z.sub_0_r.
  - rewrite chopSingle_Nodes. rewrite textLength_Nodes in *.
    assert (chop nodes max
            = (nodes, (max - Z.of_nat (totalLength nodes))%Z)) as ->; [|done].
    revert max Hshort.
    induction IH as [|node nodes Hnode _ IHnodes]; intros max Hshort.
    { simpl. by rewrite Z.sub_0_r. }
    cbn [chop totalLength] in *.
    rewrite Hnode by lia. cbn [fst snd].
    rewrite (proj2 (Z.leb_gt _ _)) by lia.
    rewrite IHnodes by lia. cbn [fst snd]. f_equal. lia.
  - destruct text as [|c text].
    { simpl. by rewrite Z.sub_0_r. }
    cbn [chopSingle textLength] in *.
    rewrite slice_prefix by lia.
    rewrite take_ge by lia.
    by rewrite decide_False by (intros Hne; by apply Hne).
  - simpl. by rewrite Z.sub_0_r.
Qed.

Lemma chop_short (ast : list SingleASTNode) :
  ∀ max, (Z.of_nat (totalLength ast) < max)%Z →
         chop ast max = (ast, (max - Z.of_nat (totalLength ast))%Z).
Proof.
  induction ast as [|node ast IH]; intros max Hshort.
  { simpl. by rewrite Z.sub_0_r. }
  cbn [chop totalLength] in *.
  rewrite chopSingle_short by lia. cbn [fst snd].
  rewrite (proj2 (Z.leb_gt _ _)) by lia.
  rewrite IH by lia. cbn [fst snd]. f_equal. lia.
Qed.

(** The count is that of the texts reached through [content]. *)
Lemma texts_length (ast : list SingleASTNode) :
  Forall (λ node, length (concat (textsIn node)) = textLength node) ast →
  length (concat (texts ast)) = totalLength ast.
Proof.
  induction 1 as [|node ast Hnode _ IH]; simpl; [done|].
  by rewrite concat_app, length_app, Hnode, IH.
Qed.

Lemma textsIn_length (ast : SingleASTNode) :
  length (concat (textsIn ast)) = textLength ast.
Proof.
  induction ast as [type_ content others IH] using SingleASTNode_ind'.
  destruct content as [|nodes|text|]; simpl; try done.
  - by apply texts_length.
  - by rewrite app_nil_r.
Qed.

Lemma cutAt_app_l (max : nat) (all kept more : list Comments.JsString) :
  cutAt max all kept → cutAt max (all ++ more) kept.
Proof.
  intros (before & text & after & -> & Hmax & ->).
  exists before, text, (after ++ more).
  by rewrite <- app_assoc, <- app_comm_cons.
Qed.

Lemma cutAt_app_r (max : nat) (whole all kept : list Comments.JsString) :
  length (concat whole) < max →
  cutAt (max - length (concat whole)) all kept →
  cutAt max (whole ++ all) (whole ++ kept).
Proof.
  intros Hwhole (before & text & after & -> & Hmax & ->).
  exists (whole ++ before), text, after.
  rewrite concat_app, length_app, <- !app_assoc.
  split; [done|]. split; [lia|]. do 4 f_equal. lia.
Qed.

(** Where the texts are not shorter than what remains, nothing
    remains after the cut. *)
Lemma chopSingle_cut (ast : SingleASTNode) :
  ∀ max, (0 < max ≤ Z.of_nat (textLength ast))%Z →
         (chopSingle ast max).2 = 0%Z
         ∧ cutAt (Z.to_nat max) (textsIn ast)
                 (textsIn (chopSingle ast max).1).
Proof.
  induction ast as [type_ content others IH] using SingleASTNode_ind'.
  intros max Hmax. destruct content as [|nodes|text|].
  - simpl in Hmax. lia.
  - rewrite chopSingle_Nodes. cbn [fst snd].
    rewrite textLength_Nodes in Hmax. rewrite !textsIn_Nodes.
    revert max Hmax.
    induction IH as [|node nodes Hnode _ IHnodes]; intros max Hmax.
    { simpl in Hmax. lia. }
    cbn [chop totalLength texts] in *.
    destruct (decide (Z.of_nat (textLength node) < max)%Z) as [Hshort|Hlong].
    + rewrite chopSingle_short by done. cbn [fst snd].
      rewrite (proj2 (Z.leb_gt _ _)) by lia.
      destruct (IHnodes (max - Z.of_nat (textLength node))%Z) as [Hrest Hcut];
        [lia|].
      cbn [fst snd texts]. split; [done|].
      apply cutAt_app_r; rewrite textsIn_length; [lia|].
      by replace (Z.to_nat max - textLength node)
        with (Z.to_nat (max - Z.of_nat (textLength node))) by lia.
    + destruct (Hnode max) as [Hrest Hcut]; [lia|].
      rewrite Hrest, Z.leb_refl. cbn [fst snd texts]. split; [done|].
      rewrite app_nil_r. by apply cutAt_app_l.
  - destruct text as [|c text].
    { simpl in Hmax. lia. }
    cbn [chopSingle textLength fst snd textsIn] in *.
    rewrite slice_prefix by lia.
    rewrite length_take, Nat.min_l by lia. split.
    { lia. }
    exists [], (c :: text), []. split; [done|]. cbn [concat app length] in *.
    split; [lia|]. rewrite Nat.sub_0_r. unfold cut. cbn [length].
    destruct (decide (Z.to_nat max = S (length text))) as [Heq|Hne].
    + rewrite decide_False by lia. rewrite decide_False by lia.
      by rewrite take_ge by (cbn [length]; lia).
    + rewrite decide_True by lia. by rewrite decide_True by lia.
  - simpl in Hmax. lia.
Qed.

Lemma chop_cut (ast : list SingleASTNode) :
  ∀ max, (0 < max ≤ Z.of_nat (totalLength ast))%Z →
         (chop ast max).2 = 0%Z
         ∧ cutAt (Z.to_nat max) (texts ast) (texts (chop ast max).1).
Proof.
  induction ast as [|node ast IH]; intros max Hmax.
  { simpl in Hmax. lia. }
  cbn [chop totalLength texts] in *.
  destruct (decide (Z.of_nat (textLength node) < max)%Z) as [Hshort|Hlong].
  - rewrite chopSingle_short by done. cbn [fst snd].
    rewrite (proj2 (Z.leb_gt _ _)) by lia.
    destruct (IH (max - Z.of_nat (textLength node))%Z) as [Hrest Hcut];
      [lia|].
    cbn [fst snd texts]. split; [done|].
    apply cutAt_app_r; rewrite textsIn_length; [lia|].
    by replace (Z.to_nat max - textLength node)
      with (Z.to_nat (max - Z.of_nat (textLength node))) by lia.
  - destruct (chopSingle_cut node max) as [Hrest Hcut]; [lia|].
    rewrite Hrest, Z.leb_refl. cbn [fst snd texts]. split; [done|].
    rewrite app_nil_r. by apply cutAt_app_l.
Qed.

Lemma cut_length (max : nat) (text : Comments.JsString) :
  length (cut max text) ≤ Nat.min max (length text) + 3.
Proof.
  unfold cut. case_decide.
  - rewrite length_app, length_take. simpl. lia.
  - lia.
Qed.

(** X11 (chopTo, chop and chopSingle of Markdown.tsx, lines 71-116).  A
    preview of [chars] code units, [chars] a positive whole number,
    counts and cuts the texts that are reached through [content]; a
    text in another property of a node ([pre], [items]) is neither
    counted nor cut.  Of the texts it counts, the preview holds at
    most [chars + 3] code units in all.  Where they are not shorter
    than [chars] in all, the texts before the one with which [chars]
    is reached are kept as they are; that text is kept up to the
    count, with one ellipsis if something of it is cut off; and no
    text after it is kept. *)
Theorem chopTo_bound (ast : list SingleASTNode) (chars : Z) :
  (0 < chars)%Z →
  (Z.of_nat (totalLength (chopTo ast (Some chars))) ≤ chars + 3)%Z
  ∧ ((chars ≤ Z.of_nat (totalLength ast))%Z →
     ∃ before text after,
       texts ast = before ++ text :: after
       ∧ length (concat before) < Z.to_nat chars
         ≤ length (concat before) + length text
       ∧ texts (chopTo ast (Some chars))
         = before ++ [cut (Z.to_nat chars - length (concat before)) text]).
Proof.
  intros Hpos. unfold chopTo. rewrite decide_False by lia.
  destruct (decide (Z.of_nat (totalLength ast) < chars)%Z) as [Hshort|Hlong].
  { rewrite chop_short by done. cbn [fst]. split; lia. }
  destruct (chop_cut ast chars) as [_ Hcut]; [lia|].
  split; [|by intros _].
  destruct Hcut as (before & text & after & _ & Hmax & Hkept).
  rewrite <- texts_length by (apply Forall_forall; intros;
                              apply textsIn_length).
  rewrite Hkept, concat_app, length_app. simpl. rewrite app_nil_r.
  pose proof (cut_length (Z.to_nat chars - length (concat before)) text).
  lia.
Qed.

(** X12 (chopTo, chop and chopSingle of Markdown.tsx, lines 71-116).  A
    tree whose texts are shorter in all than the preview is left as it
    is: no node is dropped and no ellipsis is added. *)
Theorem chopTo_short (ast : list SingleASTNode) (chars : Z) :
  (Z.of_nat (totalLength ast) < chars)%Z →
  chopTo ast (Some chars) = ast.
Proof.
  intros Hshort. unfold chopTo. rewrite decide_False by lia.
  by rewrite chop_short.
Qed.

End Preview.

Section CommentListFacts.

Import Comments CommentList.

Lemma findIn_eq (id : string) (isLocal : bool) (fields : LocalComment)
    (replies : option (list CommentOrLocalComment)) :
  findIn id (Shown isLocal fields replies)
  = if decide (Comments.id fields = id)
    then Some (Shown isLocal fields replies)
    else if isLocal then None
         else match replies with
              | None => None
              | Some replies => findCommentById replies id
              end.
Proof. reflexivity. Qed.

Lemma replyIn_eq (id : string) (l : CommentOrLocalComment) (isLocal : bool)
    (fields : LocalComment) (replies : option (list CommentOrLocalComment)) :
  replyIn id l (Shown isLocal fields replies)
  = if decide (Comments.id fields = id)
    then Some (pushReply l (Shown isLocal fields replies))
    else if isLocal then None
         else match replies with
              | None => None
              | Some replies =>
                  Shown isLocal fields ∘ Some <$> replyTo replies id l
              end.
Proof. reflexivity. Qed.

Lemma idsIn_eq (isLocal : bool) (fields : LocalComment)
    (replies : option (list CommentOrLocalComment)) :
  idsIn (Shown isLocal fields replies)
  = Comments.id fields ::
    (if isLocal then []
     else match replies with
          | None => []
          | Some replies => visibleIds replies
          end).
Proof. reflexivity. Qed.

Lemma moderatedIn_eq (isLocal : bool) (fields : LocalComment)
    (replies : option (list CommentOrLocalComment)) :
  moderatedIn (Shown isLocal fields replies)
  = (if isLocal then [] else [fields]) ++
    match replies with
    | None => []
    | Some replies => moderated replies
    end.
Proof. reflexivity. Qed.

(** Induction on a comment, with the property at hand for its
    replies. *)
Lemma CommentOrLocalComment_ind' (P : CommentOrLocalComment → Prop) :
  (∀ isLocal fields replies,
     match replies with
     | Some replies => Forall P replies
     | None => True
     end →
     P (Shown isLocal fields replies)) →
  ∀ comment, P comment.
Proof.
  intros Hshown. fix IH 1. intros [isLocal fields replies]. apply Hshown.
  destruct replies as [replies|]; [|exact I].
  induction replies as [|reply replies IHreplies];
    constructor; [apply IH|apply IHreplies].
Qed.

Lemma visibleIds_app (comments more : list CommentOrLocalComment) :
  visibleIds (comments ++ more) = visibleIds comments ++ visibleIds more.
Proof.
  induction comments as [|comment comments IH]; simpl; [done|].
  by rewrite IH, app_assoc.
Qed.

Lemma moderated_app (comments more : list CommentOrLocalComment) :
  moderated (comments ++ more) = moderated comments ++ moderated more.
Proof.
  induction comments as [|comment comments IH]; simpl; [done|].
  by rewrite IH, app_assoc.
Qed.

Lemma foundAmong_weaken (ids ids' : list string)
    (mods mods' : list LocalComment) (id : string)
    (res : CommentOrLocalComment) :
  ids ⊆ ids' → mods ⊆ mods' →
  foundAmong ids mods id (Some res) → foundAmong ids' mods' id (Some res).
Proof. intros Hids Hmods (? & ? & ?). repeat split; auto. Qed.

Lemma findCommentById_among (comments : list CommentOrLocalComment)
    (id : string) :
  Forall (λ comment,
            ∀ id, foundAmong (idsIn comment) (moderatedIn comment) id
                             (findIn id comment)) comments →
  foundAmong (visibleIds comments) (moderated comments) id
             (findCommentById comments id).
Proof.
  induction 1 as [|comment comments Hcomment _ IH]; simpl.
  { apply not_elem_of_nil. }
  specialize (Hcomment id).
  destruct (findIn id comment) as [res|].
  - eapply foundAmong_weaken; [| |exact Hcomment];
      intros x Hx; apply elem_of_app; by left.
  - destruct (findCommentById comments id) as [res|].
    + eapply foundAmong_weaken; [| |exact IH];
        intros x Hx; apply elem_of_app; by right.
    + simpl in *. rewrite elem_of_app. tauto.
Qed.

Lemma findIn_among (comment : CommentOrLocalComment) :
  ∀ id, foundAmong (idsIn comment) (moderatedIn comment) id
                   (findIn id comment).
Proof.
  induction comment as [isLocal fields replies IH]
    using CommentOrLocalComment_ind'.
  intros id. rewrite findIn_eq, idsIn_eq, moderatedIn_eq.
  destruct (decide (Comments.id fields = id)) as [Hid|Hid].
  { split; [done|]. split; [rewrite <- Hid; apply list_elem_of_here|].
    simpl. intros Hmod. destruct isLocal; [done|]. apply list_elem_of_here. }
  destruct isLocal.
  { simpl. rewrite elem_of_cons, elem_of_nil. intros [?|?]; done. }
  destruct replies as [replies|].
  2: { simpl. rewrite elem_of_cons, elem_of_nil. intros [?|?]; done. }
  pose proof (findCommentById_among replies id IH) as Hreplies.
  destruct (findCommentById replies id) as [res|].
  - eapply foundAmong_weaken; [| |exact Hreplies];
      intros x Hx; by apply list_elem_of_further.
  - simpl in *. rewrite elem_of_cons. intros [?|?]; done.
Qed.

(** What [findCommentById] returns has the id asked for, was come by in
    the search, and is among the moderated comments unless it is
    local. *)
Lemma findCommentById_found (comments : list CommentOrLocalComment)
    (id : string) :
  foundAmong (visibleIds comments) (moderated comments) id
             (findCommentById comments id).
Proof.
  apply findCommentById_among, Forall_forall. intros comment _.
  apply findIn_among.
Qed.

(** X13 (findCommentById of Comments.tsx, lines 447-466).  The search
    succeeds exactly for the ids of the comments and of the replies
    below comments that are not local, and what it returns has the id
    asked for. *)
Theorem findCommentById_visible (comments : list CommentOrLocalComment)
    (id : string) :
  (is_Some (findCommentById comments id) ↔ id ∈ visibleIds comments)
  ∧ ∀ res, findCommentById comments id = Some res → commentId res = id.
Proof.
  pose proof (findCommentById_found comments id) as Hfound.
  destruct (findCommentById comments id) as [res|]; simpl in Hfound.
  - destruct Hfound as (Hid & Hin & _). split.
    + split; [done|]. by eexists.
    + by intros ? [= <-].
  - split; [|done]. split; [by intros [? ?]|done].
Qed.

(** The parent is found by [findCommentById] exactly when the local
    comment can be pushed below it. *)
Lemma replyTo_finds_list (comments : list CommentOrLocalComment)
    (id : string) (l : CommentOrLocalComment) :
  Forall (λ comment, is_Some (replyIn id l comment)
                     ↔ is_Some (findIn id comment)) comments →
  is_Some (replyTo comments id l) ↔ is_Some (findCommentById comments id).
Proof.
  induction 1 as [|comment comments Hcomment _ IH]; simpl.
  { done. }
  destruct (replyIn id l comment) as [comment'|],
           (findIn id comment) as [res|].
  - split; by eexists.
  - destruct Hcomment as [Hc _]. by destruct Hc as [? ?]; [eexists|].
  - destruct Hcomment as [_ Hc]. by destruct Hc as [? ?]; [eexists|].
  - rewrite <- IH. rewrite fmap_is_Some. done.
Qed.

Lemma replyIn_finds (id : string) (l comment : CommentOrLocalComment) :
  is_Some (replyIn id l comment) ↔ is_Some (findIn id comment).
Proof.
  induction comment as [isLocal fields replies IH]
    using CommentOrLocalComment_ind'.
  rewrite replyIn_eq, findIn_eq.
  destruct (decide (Comments.id fields = id)); [split; by eexists|].
  destruct isLocal; [done|]. destruct replies as [replies|]; [|done].
  rewrite fmap_is_Some. by apply replyTo_finds_list.
Qed.

Lemma replyTo_finds (comments : list CommentOrLocalComment)
    (id : string) (l : CommentOrLocalComment) :
  is_Some (replyTo comments id l) ↔ is_Some (findCommentById comments id).
Proof.
  apply replyTo_finds_list, Forall_forall. intros comment _.
  apply replyIn_finds.
Qed.

Lemma replyTo_keeps (comments : list CommentOrLocalComment) (id : string)
    (l : CommentOrLocalComment) :
  moderatedIn l = [] →
  Forall (λ comment,
            ∀ comment', replyIn id l comment = Some comment' →
                        idsIn comment ⊆ idsIn comment'
                        ∧ moderatedIn comment' = moderatedIn comment)
         comments →
  ∀ comments', replyTo comments id l = Some comments' →
               visibleIds comments ⊆ visibleIds comments'
               ∧ moderated comments' = moderated comments.
Proof.
  intros Hl. induction 1 as [|comment comments Hcomment _ IH]; simpl.
  { done. }
  intros comments'. destruct (replyIn id l comment) as [comment'|].
  - intros [= <-]. destruct (Hcomment _ eq_refl) as [Hids Hmods]. simpl.
    split; [|by rewrite Hmods].
    intros x. rewrite !elem_of_app. intros [?|?]; auto.
  - destruct (replyTo comments id l) as [rest|]; [|done].
    intros [= <-]. destruct (IH _ eq_refl) as [Hids Hmods]. simpl.
    split; [|by rewrite Hmods].
    intros x. rewrite !elem_of_app. intros [?|?]; auto.
Qed.

Lemma replyIn_keeps (id : string) (l : CommentOrLocalComment)
    (comment : CommentOrLocalComment) :
  moderatedIn l = [] →
  ∀ comment', replyIn id l comment = Some comment' →
              idsIn comment ⊆ idsIn comment'
              ∧ moderatedIn comment' = moderatedIn comment.
Proof.
  intros Hl.
  induction comment as [isLocal fields replies IH]
    using CommentOrLocalComment_ind'.
  intros comment'. rewrite replyIn_eq.
  destruct (decide (Comments.id fields = id)) as [Hid|Hid].
  - intros [= <-]. unfold pushReply.
    rewrite !idsIn_eq, !moderatedIn_eq. split.
    + destruct isLocal; [done|]. destruct replies as [replies|].
      * rewrite visibleIds_app. intros x. rewrite !elem_of_cons, elem_of_app.
        tauto.
      * intros x Hx. apply elem_of_cons in Hx as [->|Hx];
          [apply list_elem_of_here|by apply elem_of_nil in Hx].
    + destruct replies as [replies|].
      * rewrite moderated_app. simpl. by rewrite Hl, !app_nil_r.
      * simpl. by rewrite Hl.
  - destruct isLocal; [done|]. destruct replies as [replies|]; [|done].
    destruct (replyTo replies id l) as [replies'|] eqn:Hreplies; [|done].
    intros [= <-].
    destruct (replyTo_keeps replies id l Hl IH _ Hreplies) as [Hids Hmods].
    rewrite !idsIn_eq, !moderatedIn_eq. split; [|by rewrite Hmods].
    intros x. rewrite !elem_of_cons. intros [?|?]; auto.
Qed.

(** A reply that is pushed below its parent hides no comment from the
    search and leaves the moderated comments as they are. *)
Lemma replyTo_grows (comments comments' : list CommentOrLocalComment)
    (id : string) (l : CommentOrLocalComment) :
  moderatedIn l = [] →
  replyTo comments id l = Some comments' →
  visibleIds comments ⊆ visibleIds comments'
  ∧ moderated comments' = moderated comments.
Proof.
  intros Hl. apply replyTo_keeps; [done|].
  apply Forall_forall. intros comment _. by apply replyIn_keeps.
Qed.

Lemma mergeOne_inv (comments : list CommentOrLocalComment)
    (processed : list CommentForModerationWithIdT)
    (st : list CommentOrLocalComment * list CommentForModerationWithIdT)
    (c : CommentForModerationWithIdT) :
  mergeInv comments processed st →
  mergeInv comments (processed ++ [c]) (mergeOne st c).
Proof.
  intros (Hmods & Hids & Hsub & Hdropped & Htop).
  unfold mergeOne, mergeInv.
  pose proof (findCommentById_found st.1 c.1) as Hfound.
  assert (∀ kept : list CommentForModerationWithIdT,
            (∀ x, x ∈ st.2 → x ∈ kept) →
            (c ∉ kept → ∃ m, m ∈ moderated comments ∧ Comments.id m = c.1) →
            ∀ x, x ∈ processed ++ [c] → x ∉ kept →
                 ∃ m, m ∈ moderated comments ∧ Comments.id m = x.1)
    as Hdropped'.
  { intros kept Hkept Hc x Hx Hout.
    apply elem_of_app in Hx as [Hx|Hx%list_elem_of_singleton].
    - apply Hdropped; [done|]. intros Hin. by apply Hout, Hkept.
    - subst x. by apply Hc. }
  assert (∀ shown : list CommentOrLocalComment,
            visibleIds st.1 ⊆ visibleIds shown →
            (rt c.2 = None → c.1 ∈ visibleIds shown) →
            ∀ x, x ∈ processed ++ [c] → rt x.2 = None →
                 x.1 ∈ visibleIds shown) as Htop'.
  { intros shown Hgrows Hc x Hx Hrt.
    apply elem_of_app in Hx as [Hx|Hx%list_elem_of_singleton].
    - by apply Hgrows, Htop.
    - subst x. by apply Hc. }
  destruct (findCommentById st.1 c.1) as [moderatedVersion|];
    simpl in Hfound.
  - destruct Hfound as (Hid & Hvisible & Hmoderated).
    destruct (isComment moderatedVersion) eqn:Hkind.
    + cbn [fst snd]. split; [done|]. split; [done|].
      split; [by apply sublist_inserts_r|].
      split.
      * apply (Hdropped' st.2); [done|]. intros _.
        exists (shownFields moderatedVersion).
        split; [rewrite <- Hmods; by apply Hmoderated|].
        by destruct moderatedVersion.
      * by apply Htop'.
    + cbn [fst snd]. split; [done|]. split; [done|].
      split; [by apply sublist_app|].
      split.
      * apply (Hdropped' _).
        -- intros x Hx. apply elem_of_app. by left.
        -- intros Hout. destruct Hout. apply elem_of_app. right.
           apply list_elem_of_here.
      * by apply Htop'.
  - assert (∀ x, x ∈ st.2 → x ∈ st.2 ++ [c]) as Hkept.
    { intros x Hx. apply elem_of_app. by left. }
    assert (c ∉ st.2 ++ [c] →
            ∃ m, m ∈ moderated comments ∧ Comments.id m = c.1) as Hc.
    { intros Hout. destruct Hout. apply elem_of_app. right.
      apply list_elem_of_here. }
    destruct (rt c.2) as [parentId|] eqn:Hrt.
    + destruct (replyTo st.1 parentId (localComment c)) as [rebuilt|]
        eqn:Hreply; cbn [fst snd].
      * destruct (replyTo_grows st.1 rebuilt parentId (localComment c)
                    eq_refl Hreply) as [Hgrows Hsame].
        split; [by rewrite Hsame|].
        split; [by etrans|].
        split; [by apply sublist_app|].
        split; [by apply (Hdropped' _)|].
        by apply Htop'.
      * split; [done|]. split; [done|].
        split; [by apply sublist_app|].
        split; [by apply (Hdropped' _)|].
        by apply Htop'.
    + cbn [fst snd].
      split; [by rewrite moderated_app, Hmods, app_nil_r|].
      split.
      { intros x Hx. rewrite visibleIds_app, elem_of_app. left.
        by apply Hids. }
      split; [by apply sublist_app|].
      split; [by apply (Hdropped' _)|].
      apply Htop'.
      * intros x Hx. rewrite visibleIds_app, elem_of_app. by left.
      * intros _. rewrite visibleIds_app, elem_of_app. right.
        apply list_elem_of_here.
Qed.

Lemma merge_inv (comments : list CommentOrLocalComment)
    (stored : list CommentForModerationWithIdT) :
  mergeInv comments stored (foldl mergeOne (comments, []) stored).
Proof.
  induction stored as [|c stored IH] using rev_ind.
  - split; [done|]. split; [done|]. split; [done|].
    split; intros c Hc; by apply elem_of_nil in Hc.
  - rewrite foldl_app. by apply mergeOne_inv.
Qed.

Lemma sublist_full {A} (l1 l2 : list A) :
  sublist l1 l2 → length l2 ≤ length l1 → l1 = l2.
Proof.
  induction 1 as [|x l1 l2 Hsub IH|x l1 l2 Hsub IH]; simpl; intros Hlen.
  - done.
  - f_equal. apply IH. lia.
  - apply sublist_length in Hsub. lia.
Qed.

(** The run of [merge]: what is shown and what is kept come out of the
    loop over the stored comments. *)
Lemma merge_run (comments shown : list CommentOrLocalComment)
    (storage storage' : Storage) :
  merge comments storage = Some (shown, storage') →
  ∃ stored kept,
    commentsFromStorage storage = Some stored
    ∧ commentsFromStorage storage' = Some kept
    ∧ mergeInv comments stored (shown, kept)
    ∧ (storage' = storage
       ∨ length kept < length stored
         ∧ storage = Held stored
         ∧ storage' = if decide (length kept = 0) then NoItem
                      else Held kept).
Proof.
  unfold merge.
  destruct (commentsFromStorage storage) as [stored|] eqn:Hstored; [|done].
  pose proof (merge_inv comments stored) as Hinv.
  destruct (foldl mergeOne (comments, []) stored) as [rebuilt kept].
  cbn [fst snd]. intros [= <- <-]. exists stored.
  pose proof Hinv as (_ & _ & Hsub & _).
  cbn [snd] in Hsub. apply sublist_length in Hsub as Hlen.
  destruct (decide (length kept ≠ length stored)) as [Hne|Heq].
  - exists kept. split; [done|].
    assert (storage = Held stored) as ->.
    { destruct storage; simpl in Hstored; try done;
        injection Hstored as <-; try done; simpl in *; lia. }
    split.
    { destruct (decide (length kept = 0)) as [Hnil|_]; [|done].
      by destruct kept. }
    split; [done|]. right. split; [lia|done].
  - exists stored. split; [done|].
    assert (kept = stored) as ->.
    { apply sublist_full; [done|lia]. }
    split; [done|]. split; [done|]. by left.
Qed.

(** X14 (the merge effect of Comments.tsx, lines 499-561, and
    commentsFromStorage, lines 132-155).  The effect writes to the
    local storage only what it has read from it, less some comments:
    the storage is left as it is, or it held comments and holds a
    shorter sublist of them afterwards, the item being removed when
    none is left. *)
Theorem merge_storage (comments shown : list CommentOrLocalComment)
    (storage storage' : Storage) :
  merge comments storage = Some (shown, storage') →
  storage' = storage
  ∨ ∃ held kept,
      storage = Held held
      ∧ sublist kept held
      ∧ length kept < length held
      ∧ storage' = if decide (length kept = 0) then NoItem else Held kept.
Proof.
  intros Hmerge.
  destruct (merge_run _ _ _ _ Hmerge)
    as (stored & kept & _ & _ & Hinv & [Hsame|(Hlen & Hheld & Hkept)]).
  { by left. }
  right. exists stored, kept. destruct Hinv as (_ & _ & Hsub & _). done.
Qed.

(** X15 (the merge effect of Comments.tsx, lines 499-561).  The effect
    leaves the moderated comments of the page as they are, and a stored
    comment is dropped from the storage only if a moderated comment of
    the page has its id. *)
Theorem merge_moderated (comments shown : list CommentOrLocalComment)
    (storage storage' : Storage) :
  merge comments storage = Some (shown, storage') →
  moderated shown = moderated comments
  ∧ ∀ stored kept c,
      commentsFromStorage storage = Some stored →
      commentsFromStorage storage' = Some kept →
      c ∈ stored → c ∉ kept →
      ∃ m, m ∈ moderated comments ∧ Comments.id m = c.1.
Proof.
  intros Hmerge.
  destruct (merge_run _ _ _ _ Hmerge)
    as (stored & kept & Hstored & Hkept & Hinv & _).
  destruct Hinv as (Hmods & _ & _ & Hdropped & _).
  split; [done|].
  intros stored' kept' c Hstored' Hkept'.
  rewrite Hstored in Hstored'. rewrite Hkept in Hkept'.
  injection Hstored' as <-. injection Hkept' as <-. apply Hdropped.
Qed.

(** X16 (the merge effect of Comments.tsx, lines 499-561).  Every
    comment that the search finds on the page is found after the
    effect, and so is every stored comment that is not a reply: it is
    shown, as moderated or as local comment. *)
Theorem merge_shows (comments shown : list CommentOrLocalComment)
    (storage storage' : Storage) :
  merge comments storage = Some (shown, storage') →
  (∀ id, is_Some (findCommentById comments id) →
         is_Some (findCommentById shown id))
  ∧ ∀ stored c,
      commentsFromStorage storage = Some stored →
      c ∈ stored → rt c.2 = None →
      is_Some (findCommentById shown c.1).
Proof.
  intros Hmerge.
  destruct (merge_run _ _ _ _ Hmerge)
    as (stored & kept & Hstored & _ & Hinv & _).
  destruct Hinv as (_ & Hids & _ & _ & Htop). cbn [fst] in *.
  assert (∀ cs id, is_Some (findCommentById cs id) ↔ id ∈ visibleIds cs)
    as Hvisible.
  { intros cs id. pose proof (findCommentById_found cs id) as Hfound.
    destruct (findCommentById cs id) as [res|]; simpl in Hfound.
    - destruct Hfound as (_ & Hin & _). split; [done|]. by eexists.
    - split; [by intros [? ?]|done]. }
  split.
  - intros id. rewrite !Hvisible. apply Hids.
  - intros stored' c Hstored'. rewrite Hstored in Hstored'.
    injection Hstored' as <-. rewrite Hvisible. apply Htop.
Qed.

(** X24 (the form and the merge effect of Comments.tsx, lines 308-318
    and 499-561).  A comment that is not a reply and that the form has
    added to a storage that can be read is found among the comments
    shown by the next merge, whatever the page holds: as the moderated
    comment or as local comment. *)
Theorem remember_merge_shows (comments : list CommentOrLocalComment)
    (storage : Storage) (c : CommentForModerationWithIdT) :
  storage ≠ Unreadable → storage ≠ NotJson → rt c.2 = None →
  ∃ shown storage',
    merge comments (remember storage c) = Some (shown, storage')
    ∧ is_Some (findCommentById shown c.1).
Proof.
  intros Hreadable Hjson Hrt.
  assert (∃ stored, commentsFromStorage (remember storage c)
                    = Some (stored ++ [c])) as [stored Hstored].
  { destruct storage as [| | | |held]; try done;
      [by exists []|by exists []|by exists held]. }
  destruct (merge comments (remember storage c)) as [[shown storage']|]
    eqn:Hmerge.
  2: { unfold merge in Hmerge. by rewrite Hstored in Hmerge. }
  exists shown, storage'. split; [done|].
  destruct (merge_run _ _ _ _ Hmerge)
    as (stored' & kept & Hstored' & _ & Hinv & _).
  rewrite Hstored in Hstored'. injection Hstored' as <-.
  destruct Hinv as (_ & _ & _ & _ & Htop). cbn [fst] in Htop.
  pose proof (findCommentById_found shown c.1) as Hfound.
  destruct (findCommentById shown c.1) as [res|]; [by eexists|].
  destruct Hfound. apply Htop; [|done].
  apply elem_of_app. right. apply list_elem_of_here.
Qed.

End CommentListFacts.

Section Moderation.

Import Comments Admin.

Lemma admin_findIn_eq (id i : string) (body : CommentForModerationT)
    (r : option (list CommentWithRepliesT)) :
  findIn id (WithReplies i body r)
  = if decide (i = id) then Some (WithReplies i body r)
    else match r with
         | None => None
         | Some r => findCommentById r id
         end.
Proof. reflexivity. Qed.

Lemma admin_replyIn_eq (id i : string) (x : CommentWithRepliesT)
    (body : CommentForModerationT) (r : option (list CommentWithRepliesT)) :
  replyIn id x (WithReplies i body r)
  = if decide (i = id) then Some (pushReply x (WithReplies i body r))
    else match r with
         | None => None
         | Some r => WithReplies i body ∘ Some <$> replyTo r id x
         end.
Proof. reflexivity. Qed.

Lemma admin_idsIn_eq (i : string) (body : CommentForModerationT)
    (r : option (list CommentWithRepliesT)) :
  idsIn (WithReplies i body r)
  = i :: match r with
         | None => []
         | Some r => commentIds r
         end.
Proof. reflexivity. Qed.

(** Induction on a comment, with the property at hand for its
    replies. *)
Lemma CommentWithRepliesT_ind' (P : CommentWithRepliesT → Prop) :
  (∀ i body r,
     match r with
     | Some r => Forall P r
     | None => True
     end →
     P (WithReplies i body r)) →
  ∀ comment, P comment.
Proof.
  intros Hwith. fix IH 1. intros [i body r]. apply Hwith.
  destruct r as [r|]; [|exact I].
  induction r as [|reply r IHr]; constructor; [apply IH|apply IHr].
Qed.

Lemma commentIds_app (comments more : list CommentWithRepliesT) :
  commentIds (comments ++ more) = commentIds comments ++ commentIds more.
Proof.
  induction comments as [|comment comments IH]; simpl; [done|].
  by rewrite IH, app_assoc.
Qed.

(** The parent is found by [findCommentById] exactly when the reply can
    be pushed below it. *)
Lemma admin_replyTo_finds_list (comments : list CommentWithRepliesT)
    (id : string) (x : CommentWithRepliesT) :
  Forall (λ comment, is_Some (replyIn id x comment)
                     ↔ is_Some (findIn id comment)) comments →
  is_Some (replyTo comments id x) ↔ is_Some (findCommentById comments id).
Proof.
  induction 1 as [|comment comments Hcomment _ IH]; simpl.
  { done. }
  destruct (replyIn id x comment) as [comment'|],
           (findIn id comment) as [res|].
  - split; by eexists.
  - destruct Hcomment as [Hc _]. by destruct Hc as [? ?]; [eexists|].
  - destruct Hcomment as [_ Hc]. by destruct Hc as [? ?]; [eexists|].
  - rewrite <- IH. rewrite fmap_is_Some. done.
Qed.

Lemma admin_replyIn_finds (id : string) (x : CommentWithRepliesT)
    (comment : CommentWithRepliesT) :
  is_Some (replyIn id x comment) ↔ is_Some (findIn id comment).
Proof.
  induction comment as [i body r IH] using CommentWithRepliesT_ind'.
  rewrite admin_replyIn_eq, admin_findIn_eq.
  destruct (decide (i = id)); [split; by eexists|].
  destruct r as [r|]; [|done].
  rewrite fmap_is_Some. by apply admin_replyTo_finds_list.
Qed.

Lemma admin_replyTo_finds (comments : list CommentWithRepliesT)
    (id : string) (x : CommentWithRepliesT) :
  is_Some (replyTo comments id x) ↔ is_Some (findCommentById comments id).
Proof.
  apply admin_replyTo_finds_list, Forall_forall. intros comment _.
  apply admin_replyIn_finds.
Qed.

(** The ids after a reply has been pushed: those before, and those of
    the reply. *)
Lemma admin_replyTo_ids_list (comments : list CommentWithRepliesT)
    (id : string) (x : CommentWithRepliesT) :
  Forall (λ comment,
            ∀ comment', replyIn id x comment = Some comment' →
                        ∀ y, y ∈ idsIn comment'
                             ↔ y ∈ idsIn comment ∨ y ∈ idsIn x) comments →
  ∀ comments', replyTo comments id x = Some comments' →
               ∀ y, y ∈ commentIds comments'
                    ↔ y ∈ commentIds comments ∨ y ∈ idsIn x.
Proof.
  induction 1 as [|comment comments Hcomment _ IH]; simpl; [done|].
  intros comments'. destruct (replyIn id x comment) as [comment'|].
  - intros [= <-] y. simpl. rewrite !elem_of_app, (Hcomment _ eq_refl).
    tauto.
  - destruct (replyTo comments id x) as [rest|]; [|done].
    intros [= <-] y. simpl. rewrite !elem_of_app, (IH _ eq_refl). tauto.
Qed.

Lemma admin_replyIn_ids (id : string) (x : CommentWithRepliesT)
    (comment : CommentWithRepliesT) :
  ∀ comment', replyIn id x comment = Some comment' →
              ∀ y, y ∈ idsIn comment' ↔ y ∈ idsIn comment ∨ y ∈ idsIn x.
Proof.
  induction comment as [i body r IH] using CommentWithRepliesT_ind'.
  intros comment'. rewrite admin_replyIn_eq.
  destruct (decide (i = id)) as [Hid|Hid].
  - intros [= <-] y. unfold pushReply. rewrite !admin_idsIn_eq.
    destruct r as [r|].
    + rewrite !elem_of_cons, commentIds_app, elem_of_app. simpl.
      rewrite app_nil_r. tauto.
    + rewrite !elem_of_cons. simpl. rewrite app_nil_r, elem_of_nil. tauto.
  - destruct r as [r|]; [|done].
    destruct (replyTo r id x) as [r'|] eqn:Hr; [|done].
    intros [= <-] y. rewrite !admin_idsIn_eq, !elem_of_cons.
    rewrite (admin_replyTo_ids_list r id x IH _ Hr). tauto.
Qed.

Lemma admin_replyTo_ids (comments comments' : list CommentWithRepliesT)
    (id : string) (x : CommentWithRepliesT) :
  replyTo comments id x = Some comments' →
  ∀ y, y ∈ commentIds comments' ↔ y ∈ commentIds comments ∨ y ∈ idsIn x.
Proof.
  apply admin_replyTo_ids_list, Forall_forall. intros comment _.
  apply admin_replyIn_ids.
Qed.

Lemma approvedFor_snoc (db : Store)
    (processed : list (string * CommentForModerationT))
    (comment : string * CommentForModerationT)
    (deleted : list string) (puzzleId id : string) :
  approvedFor db (processed ++ [comment]) deleted puzzleId id
  ↔ approvedFor db processed deleted puzzleId id
    ∨ ((∃ cs, c db !! puzzleId = Some (Shaped cs))
       ∧ comment.1 = id ∧ pid comment.2 = puzzleId
       ∧ Js.includes comment.1 deleted = false).
Proof.
  unfold approvedFor. split.
  - intros (Hload & x & Hx & Hid & Hpid & Hkeep).
    apply elem_of_app in Hx as [Hx|Hx%list_elem_of_singleton].
    + left. split; [done|]. by exists x.
    + subst x. by right.
  - intros [(Hload & x & Hx & Hid & Hpid & Hkeep)
           |(Hload & Hid & Hpid & Hkeep)].
    + split; [done|]. exists x. rewrite elem_of_app. auto.
    + split; [done|]. exists comment. rewrite elem_of_app.
      split; [right; apply list_elem_of_here|done].
Qed.

Lemma loaded_skip (db : Store)
    (processed : list (string * CommentForModerationT))
    (comment : string * CommentForModerationT) (deleted : list string)
    (puzzles : gmap string (list CommentWithRepliesT)) :
  loaded db processed deleted puzzles →
  (Js.includes comment.1 deleted = true
   ∨ ¬ ∃ cs, c db !! pid comment.2 = Some (Shaped cs)) →
  loaded db (processed ++ [comment]) deleted puzzles.
Proof.
  intros [Hids Hsome] Hskip.
  assert (∀ puzzleId id,
            approvedFor db (processed ++ [comment]) deleted puzzleId id
            ↔ approvedFor db processed deleted puzzleId id) as Hsame.
  { intros puzzleId id. rewrite approvedFor_snoc. split; [|by left].
    intros [?|(Hload & _ & <- & Hkeep)]; [done|].
    destruct Hskip as [Hskip|Hskip]; [congruence|done]. }
  split.
  - intros puzzleId cs Hcs. destruct (Hids _ _ Hcs) as [Hload Hiff].
    split; [done|]. intros id. by rewrite Hsame.
  - intros puzzleId id. rewrite Hsame. apply Hsome.
Qed.

Lemma loaded_insert (db : Store)
    (processed : list (string * CommentForModerationT))
    (comment : string * CommentForModerationT) (deleted : list string)
    (puzzles : gmap string (list CommentWithRepliesT))
    (cs : list CommentWithRepliesT) :
  loaded db processed deleted puzzles →
  Js.includes comment.1 deleted = false →
  (∃ cs0, c db !! pid comment.2 = Some (Shaped cs0)) →
  (∀ id, id ∈ commentIds cs
         ↔ (id ∈ published db (pid comment.2)
            ∨ approvedFor db processed deleted (pid comment.2) id)
           ∨ id = comment.1) →
  loaded db (processed ++ [comment]) deleted
         (<[pid comment.2 := cs]> puzzles).
Proof.
  intros [Hids Hsome] Hkeep Hload Hcs. split.
  - intros puzzleId cs'.
    destruct (decide (pid comment.2 = puzzleId)) as [<-|Hne].
    + rewrite lookup_insert_eq. intros [= <-]. split; [done|].
      intros id. rewrite Hcs, approvedFor_snoc. split.
      * intros [[?|?]| ->]; auto. right. right. done.
      * intros [?|[?|(_ & <- & _)]]; auto.
    + rewrite lookup_insert_ne by done. intros Hcs'.
      destruct (Hids _ _ Hcs') as [Hload' Hiff]. split; [done|].
      intros id. rewrite Hiff, approvedFor_snoc. split.
      * intros [?|?]; auto.
      * intros [?|[?|(_ & _ & ? & _)]]; auto. done.
  - intros puzzleId id. rewrite approvedFor_snoc.
    intros [Happroved|(_ & _ & <- & _)].
    + destruct (decide (pid comment.2 = puzzleId)) as [<-|Hne].
      * rewrite lookup_insert_eq. by eexists.
      * rewrite lookup_insert_ne by done. by eapply Hsome.
    + rewrite lookup_insert_eq. by eexists.
Qed.

(** The comment is merged into the comments of its puzzle. *)
Lemma mergeInto_loaded (db : Store)
    (processed : list (string * CommentForModerationT))
    (comment : string * CommentForModerationT) (deleted : list string)
    (puzzles puzzles' : gmap string (list CommentWithRepliesT))
    (cs : list CommentWithRepliesT) :
  loaded db processed deleted puzzles →
  Js.includes comment.1 deleted = false →
  (∃ cs0, c db !! pid comment.2 = Some (Shaped cs0)) →
  (∀ id, id ∈ commentIds cs
         ↔ id ∈ published db (pid comment.2)
           ∨ approvedFor db processed deleted (pid comment.2) id) →
  mergeInto puzzles cs comment = Merged puzzles' →
  loaded db (processed ++ [comment]) deleted puzzles'.
Proof.
  intros Hloaded Hkeep Hload Hcs. unfold mergeInto.
  destruct (rt comment.2) as [parentId|].
  - destruct (replyTo cs parentId (asComment comment)) as [cs'|] eqn:Hreply;
      [|done].
    intros [= <-]. apply loaded_insert; try done.
    intros id. rewrite (admin_replyTo_ids _ _ _ _ Hreply), Hcs. simpl.
    rewrite list_elem_of_singleton. done.
  - intros [= <-]. apply loaded_insert; try done.
    intros id. rewrite commentIds_app, elem_of_app, Hcs. simpl.
    rewrite list_elem_of_singleton. done.
Qed.

(** One round of the loop, for a comment that is approved. *)
Lemma approve_loaded (db : Store)
    (processed : list (string * CommentForModerationT))
    (comment : string * CommentForModerationT) (deleted : list string)
    (puzzles puzzles' : gmap string (list CommentWithRepliesT)) :
  loaded db processed deleted puzzles →
  Js.includes comment.1 deleted = false →
  approve db puzzles comment = Merged puzzles' →
  loaded db (processed ++ [comment]) deleted puzzles'.
Proof.
  intros Hloaded Hkeep. unfold approve.
  destruct (puzzles !! pid comment.2) as [fromCache|] eqn:Hcache.
  { destruct Hloaded as [Hids Hsome].
    destruct (Hids _ _ Hcache) as [Hload Hcs].
    by apply mergeInto_loaded. }
  destruct (Js.inherited (pid comment.2)); [done|].
  destruct (c db !! pid comment.2) as [[cs0|]|] eqn:Hdoc.
  - apply mergeInto_loaded; [done..|by eexists|].
    destruct Hloaded as [Hids Hsome].
    intros id. unfold published. rewrite Hdoc. split.
    + intros Hid. left. by destruct cs0.
    + intros [Hid|Happroved]; [by destruct cs0|].
      apply Hsome in Happroved. rewrite Hcache in Happroved.
      by destruct Happroved.
  - intros [= <-]. apply loaded_skip; [done|]. right.
    intros [? ?]. congruence.
  - intros [= <-]. apply loaded_skip; [done|]. right.
    intros [? ?]. congruence.
Qed.

(** The loop that completes has gone through all the comments. *)
Lemma moderateLoop_loaded
    (queue : list (string * CommentForModerationT)) (deleted : list string) :
  ∀ processed puzzles puzzles' db db',
    loaded db processed deleted puzzles →
    moderateLoop queue deleted puzzles db = (Completed, puzzles', db') →
    loaded db (processed ++ queue) deleted puzzles'.
Proof.
  induction queue as [|comment queue IH];
    intros processed puzzles puzzles' db db' Hloaded; simpl.
  { intros [= <- <-]. by rewrite app_nil_r. }
  destruct (Js.includes comment.1 deleted) eqn:Hkeep.
  - intros Hloop. rewrite cons_middle, app_assoc.
    change (loaded (mkStore (c db) (delete comment.1 (cfm db)))
                   ((processed ++ [comment]) ++ queue) deleted puzzles').
    eapply IH; [|done].
    change (loaded db (processed ++ [comment]) deleted puzzles).
    apply loaded_skip; [done|by left].
  - destruct (approve db puzzles comment) as [approved| |] eqn:Happrove;
      [|done..].
    intros Hloop. rewrite cons_middle, app_assoc.
    change (loaded (mkStore (c db) (delete comment.1 (cfm db)))
                   ((processed ++ [comment]) ++ queue) deleted puzzles').
    eapply IH; [|done].
    change (loaded db (processed ++ [comment]) deleted approved).
    by apply approve_loaded with puzzles.
Qed.

(** A reply is what the search for a parent fails on. *)
Lemma approve_ParentNotFound (db : Store)
    (puzzles : gmap string (list CommentWithRepliesT))
    (comment : string * CommentForModerationT) :
  approve db puzzles comment = ParentNotFound → is_Some (rt comment.2).
Proof.
  assert (∀ cs, mergeInto puzzles cs comment = ParentNotFound →
                is_Some (rt comment.2)) as Hmerge.
  { intros cs. unfold mergeInto. destruct (rt comment.2); [by eexists|done]. }
  unfold approve. destruct (puzzles !! pid comment.2); [apply Hmerge|].
  destruct (Js.inherited (pid comment.2)); [done|].
  destruct (c db !! pid comment.2) as [[cs|]|]; [apply Hmerge|done..].
Qed.

Lemma approve_FromPrototype (db : Store)
    (puzzles : gmap string (list CommentWithRepliesT))
    (comment : string * CommentForModerationT) :
  approve db puzzles comment = FromPrototype →
  Js.inherited (pid comment.2) = true.
Proof.
  assert (∀ cs, mergeInto puzzles cs comment ≠ FromPrototype) as Hmerge.
  { intros cs. unfold mergeInto. destruct (rt comment.2); [|done].
    by destruct (replyTo _ _ _). }
  unfold approve.
  destruct (puzzles !! pid comment.2); [by intros ?%Hmerge|].
  destruct (Js.inherited (pid comment.2)); [done|].
  destruct (c db !! pid comment.2) as [[cs|]|];
    [by intros ?%Hmerge|done..].
Qed.

(** No own property of the cache has the name of an inherited one, so
    that a comment for a puzzle of such a name never finds it cached. *)
Lemma approve_names (db : Store)
    (puzzles puzzles' : gmap string (list CommentWithRepliesT))
    (comment : string * CommentForModerationT) :
  (∀ k, is_Some (puzzles !! k) → Js.inherited k = false) →
  approve db puzzles comment = Merged puzzles' →
  Js.inherited (pid comment.2) = false
  ∧ ∀ k, is_Some (puzzles' !! k) → Js.inherited k = false.
Proof.
  intros Hnames.
  assert (∀ cs, Js.inherited (pid comment.2) = false →
                mergeInto puzzles cs comment = Merged puzzles' →
                ∀ k, is_Some (puzzles' !! k) → Js.inherited k = false)
    as Hmerge.
  { intros cs Hname. unfold mergeInto.
    destruct (rt comment.2) as [parentId|];
      [destruct (replyTo _ _ _); [|done]|];
      intros [= <-] k; rewrite lookup_insert_is_Some;
      (intros [<-|[_ ?]]; [done|by apply Hnames]). }
  unfold approve.
  destruct (puzzles !! pid comment.2) as [fromCache|] eqn:Hcache.
  { assert (Js.inherited (pid comment.2) = false) as Hname.
    { apply Hnames. by eexists. }
    intros Hrun. split; [done|]. by apply (Hmerge fromCache). }
  destruct (Js.inherited (pid comment.2)) eqn:Hname; [done|].
  destruct (c db !! pid comment.2) as [[cs|]|].
  - intros Hrun. split; [done|]. by apply (Hmerge (default [] cs)).
  - by intros [= <-].
  - by intros [= <-].
Qed.

Lemma moderateLoop_names
    (queue : list (string * CommentForModerationT)) (deleted : list string) :
  ∀ puzzles db puzzles' db',
    (∀ k, is_Some (puzzles !! k) → Js.inherited k = false) →
    moderateLoop queue deleted puzzles db = (Completed, puzzles', db') →
    ∀ comment, comment ∈ queue →
               Js.includes comment.1 deleted = false →
               Js.inherited (pid comment.2) = false.
Proof.
  induction queue as [|x queue IH]; intros puzzles db puzzles' db' Hnames.
  { by intros _ comment ?%elem_of_nil. }
  cbn [moderateLoop].
  destruct (Js.includes x.1 deleted) eqn:Hx.
  - intros Hloop comment [->|Hin]%elem_of_cons Hkeep; [congruence|].
    by apply (IH _ _ _ _ Hnames Hloop).
  - destruct (approve db puzzles x) as [approved| |] eqn:Happrove; [|done..].
    destruct (approve_names _ _ _ _ Hnames Happrove) as [Hname Hnames'].
    intros Hloop comment [->|Hin]%elem_of_cons Hkeep; [done|].
    by apply (IH _ _ _ _ Hnames' Hloop).
Qed.

(** What the loop does to the store: it leaves the puzzles alone, and
    deletes the documents of the comments it has gone through; it
    stops at a comment that is approved. *)
Lemma moderateLoop_cfm
    (queue : list (string * CommentForModerationT)) (deleted : list string) :
  ∀ puzzles db ending puzzles' db',
    moderateLoop queue deleted puzzles db = (ending, puzzles', db') →
    c db' = c db
    ∧ ∃ before rest,
        queue = before ++ rest
        ∧ (∀ id, cfm db' !! id
                 = if decide (id ∈ before.*1) then None else cfm db !! id)
        ∧ match ending with
          | Completed => rest = []
          | ParentCommentNotFound =>
              ∃ failing after,
                rest = failing :: after
                ∧ Js.includes failing.1 deleted = false
                ∧ is_Some (rt failing.2)
          | OnInheritedProperty =>
              ∃ failing after,
                rest = failing :: after
                ∧ Js.includes failing.1 deleted = false
                ∧ Js.inherited (pid failing.2) = true
          end.
Proof.
  induction queue as [|comment queue IH];
    intros puzzles db ending puzzles' db'; simpl.
  { intros [= <- <- <-]. split; [done|]. exists [], [].
    split; [done|]. split; [|done]. intros id.
    by rewrite decide_False by apply not_elem_of_nil. }
  destruct (if Js.includes comment.1 deleted then Merged puzzles
            else approve db puzzles comment) as [approved| |] eqn:Hround.
  - intros Hloop. apply IH in Hloop as (Hc & before & rest & -> & Hcfm & Hend).
    split; [done|]. exists (comment :: before), rest.
    split; [done|]. split; [|done].
    intros id. rewrite Hcfm. simpl.
    destruct (decide (comment.1 = id)) as [<-|Hne].
    + rewrite lookup_delete_eq.
      rewrite (decide_True (P := _ ∈ _ :: _)) by apply list_elem_of_here.
      by case_decide.
    + rewrite lookup_delete_ne by done.
      case_decide as Hin; case_decide as Hin'; try done.
      * destruct Hin'. by apply list_elem_of_further.
      * apply elem_of_cons in Hin' as [?|?]; done.
  - intros [= <- <- <-]. split; [done|]. exists [], (comment :: queue).
    split; [done|]. split.
    { intros id. by rewrite decide_False by apply not_elem_of_nil. }
    exists comment, queue. split; [done|].
    destruct (Js.includes comment.1 deleted); [done|]. split; [done|].
    by apply approve_ParentNotFound in Hround.
  - intros [= <- <- <-]. split; [done|]. exists [], (comment :: queue).
    split; [done|]. split.
    { intros id. by rewrite decide_False by apply not_elem_of_nil. }
    exists comment, queue. split; [done|].
    destruct (Js.includes comment.1 deleted); [done|]. split; [done|].
    by apply approve_FromPrototype in Hround.
Qed.

(** X17 (moderateComments of the admin page, lines 220-270).  When the
    moderation throws because the parent of a reply is not found, no
    puzzle document has been written, although the documents of all the
    comments before that reply are deleted from the queue: the comments
    approved before it are in neither collection. *)
Theorem moderateComments_fails
    (queue : list (string * CommentForModerationT)) (deleted : list string)
    (db db' : Store) :
  moderateComments (Some queue) deleted db = (ParentCommentNotFound, db') →
  c db' = c db
  ∧ ∃ before failing after,
      queue = before ++ failing :: after
      ∧ Js.includes failing.1 deleted = false
      ∧ is_Some (rt failing.2)
      ∧ ∀ id, cfm db' !! id
              = if decide (id ∈ before.*1) then None else cfm db !! id.
Proof.
  unfold moderateComments.
  destruct (moderateLoop queue deleted ∅ db) as [[ending puzzles] after]
    eqn:Hloop.
  destruct ending; [done| |done]. intros [= <-].
  apply moderateLoop_cfm in Hloop
    as (Hc & before & rest & -> & Hcfm & failing & rest' & -> & ? & ?).
  split; [done|]. by exists before, failing, rest'.
Qed.

(** X18 (moderateComments of the admin page, lines 220-270).  When the
    moderation completes, the documents of all the comments of the
    queue are deleted, and the comments of every puzzle are those it
    had and the comments of the queue for it that are not marked for
    deletion: nothing marked for deletion is published, and nothing
    approved is left out if its puzzle can be loaded.  A run that comes
    to an approved comment whose puzzle id is the name of a property of
    [Object.prototype] is not followed to its end, and is not among
    those that complete here. *)
Theorem moderateComments_completes
    (queue : list (string * CommentForModerationT)) (deleted : list string)
    (db db' : Store) :
  moderateComments (Some queue) deleted db = (Completed, db') →
  (∀ comment, comment ∈ queue →
              Js.includes comment.1 deleted = false →
              Js.inherited (pid comment.2) = false)
  ∧ (∀ id, cfm db' !! id
           = if decide (id ∈ queue.*1) then None else cfm db !! id)
  ∧ ∀ puzzleId id,
      id ∈ published db' puzzleId
      ↔ id ∈ published db puzzleId
        ∨ approvedFor db queue deleted puzzleId id.
Proof.
  unfold moderateComments.
  destruct (moderateLoop queue deleted ∅ db) as [[ending puzzles] after]
    eqn:Hloop.
  destruct ending; [|done..]. intros [= <-].
  assert (loaded db [] deleted ∅) as Hempty.
  { split; [by intros ? ? ?%lookup_empty_Some|].
    intros puzzleId id (_ & x & Hx & _). by apply elem_of_nil in Hx. }
  pose proof (moderateLoop_loaded queue deleted [] ∅ puzzles db after
                Hempty Hloop) as [Hids Hsome].
  split.
  { apply (moderateLoop_names queue deleted ∅ db puzzles after); [|done].
    by intros k [? ?%lookup_empty_Some]. }
  apply moderateLoop_cfm in Hloop as (Hc & before & rest & -> & Hcfm & ->).
  rewrite app_nil_r in *. split; [done|].
  intros puzzleId id. unfold published at 1. cbn [c].
  rewrite lookup_union, lookup_fmap, Hc.
  destruct (puzzles !! puzzleId) as [cs|] eqn:Hcs; simpl.
  - destruct (Hids _ _ Hcs) as [[cs0 Hload] Hiff].
    rewrite Hload. simpl. apply Hiff.
  - rewrite (left_id_L None _). fold (published db puzzleId).
    split; [by left|]. intros [?|Happroved]; [done|].
    apply Hsome in Happroved. rewrite Hcs in Happroved.
    by destruct Happroved.
Qed.

End Moderation.

Section WeeklyEmail.

Import Weekly.

Lemma readDays_gap (ds ds' : DailyStats) (gap : nat) :
  ds gap = None → ds' gap = None →
  (∀ day, day < gap → ds day = ds' day) →
  ∀ rounds daysAgo totals,
    daysAgo ≤ gap →
    readDays ds rounds daysAgo totals = readDays ds' rounds daysAgo totals.
Proof.
  intros Hgap Hgap' Hsame.
  induction rounds as [|rounds IH]; intros daysAgo totals Hle; simpl.
  { done. }
  destruct (decide (daysAgo = gap)) as [->|Hne].
  - rewrite Hgap, Hgap'. by apply IH.
  - rewrite <- (Hsame daysAgo) by lia.
    destruct (ds daysAgo) as [data|]; [|by apply IH].
    destruct (decode data) as [|stats]; [apply IH; lia|].
    destruct (sumOnto totals.1 (c stats)); [apply IH; lia|done].
Qed.

(** X19 (topPuzzlesForWeek of generateWeeklyEmail.ts, lines 47-65).  The
    loop over the last seven days does not get past a day without a
    stats document: the totals are those of the days before the first
    such day, whatever the documents of the days after it hold. *)
Theorem weekTotals_stops_at_gap (ds ds' : DailyStats) (gap : nat) :
  ds gap = None → ds' gap = None →
  (∀ day, day < gap → ds day = ds' day) →
  weekTotals ds = weekTotals ds'.
Proof.
  intros Hgap Hgap' Hsame. unfold weekTotals.
  apply (readDays_gap ds ds' gap); [done..|lia].
Qed.

Lemma getKey_setKey {V} (a : Obj V) (k k' : string) (v : V) :
  getKey (setKey a k v) k' = if decide (k = k') then Some v else getKey a k'.
Proof.
  induction a as [|e a IH]; simpl.
  { by repeat case_decide. }
  destruct (decide (e.1 = k)) as [He|He]; simpl.
  - repeat case_decide; simpl; congruence.
  - rewrite IH. repeat case_decide; simpl; congruence.
Qed.

Lemma plus_Some (x y s : Z) : Js.plus x y = Some s → s = (x + y)%Z.
Proof. unfold Js.plus. by destruct (_ && _); intros [= <-]. Qed.

Lemma plus_exact (x y : Z) :
  (0 ≤ x)%Z → (0 ≤ y)%Z → (x + y ≤ 2 ^ 53)%Z →
  Js.plus x y = Some (x + y)%Z.
Proof.
  intros Hx Hy Hsum. unfold Js.plus, Js.exact.
  rewrite !(proj2 (Z.leb_le _ _)) by lia. done.
Qed.

(** One count is added to the total of its puzzle. *)
Lemma addOnto_count (a a' : Obj Z) (e : string * Z) (k : string) :
  addOnto a e = Some a' →
  default 0%Z (getKey a' k)
  = (default 0 (getKey a k) + if decide (e.1 = k) then e.2 else 0)%Z.
Proof.
  unfold addOnto.
  destruct (getKey a e.1) as [count|] eqn:Hcount.
  - destruct (Js.plus count e.2) as [s|] eqn:Hplus; [|done].
    intros [= <-]. apply plus_Some in Hplus as ->.
    rewrite getKey_setKey. case_decide as Hk; simpl; [|lia].
    subst k. rewrite Hcount. simpl. lia.
  - destruct (Js.inherited e.1); [done|].
    destruct (Js.plus 0 e.2) as [s|] eqn:Hplus; [|done].
    intros [= <-]. apply plus_Some in Hplus as ->.
    rewrite getKey_setKey. case_decide as Hk; simpl; [|lia].
    subst k. rewrite Hcount. simpl. lia.
Qed.

Lemma sumEntries_counted (entries : list (string * Z)) (k : string) :
  ∀ a a', sumEntries a entries = Some a' →
          default 0%Z (getKey a' k)
          = (default 0 (getKey a k) + counted (Some entries) k)%Z.
Proof.
  induction entries as [|e entries IH]; intros a a'; simpl.
  { intros [= <-]. lia. }
  destruct (addOnto a e) as [a1|] eqn:Hadd; [|done].
  intros Hrest. rewrite (IH _ _ Hrest), (addOnto_count _ _ _ k Hadd).
  simpl. case_decide; lia.
Qed.

Lemma counted_perm (entries entries' : list (string * Z)) (k : string) :
  entries ≡ₚ entries' → counted (Some entries) k = counted (Some entries') k.
Proof.
  induction 1 as [|e l l' _ IH|e e' l|l l' l'' _ IH _ IH']; simpl in *.
  - done.
  - by rewrite IH.
  - repeat case_decide; lia.
  - by rewrite IH.
Qed.

(** [sumOnto] adds the counts of the day to the totals, key by key. *)
Lemma sumOnto_counted (a a' : Obj Z) (b : option (Obj Z)) (k : string) :
  sumOnto a b = Some a' →
  default 0%Z (getKey a' k)
  = (default 0 (getKey a k) + counted b k)%Z.
Proof.
  destruct b as [b|]; simpl.
  - intros Hsum. rewrite (sumEntries_counted _ k _ _ Hsum).
    by rewrite (counted_perm _ _ k (ownEntries_perm b)).
  - intros [= <-]. lia.
Qed.

Lemma sumDays_S (ds : DailyStats) (k : string) (from n : nat) :
  sumDays ds k from (S n)
  = (dayCount (ds from) k + sumDays ds k (S from) n)%Z.
Proof. reflexivity. Qed.

Lemma readDays_sums (ds : DailyStats) (k : string) (gap : nat) :
  (∀ day, day < gap → ds day ≠ None) →
  ∀ rounds daysAgo totals totals',
    daysAgo ≤ gap →
    (gap < daysAgo + rounds → ds gap = None) →
    readDays ds rounds daysAgo totals = Some totals' →
    default 0%Z (getKey totals'.1 k)
    = (default 0 (getKey totals.1 k)
       + sumDays ds k daysAgo (Nat.min rounds (gap - daysAgo)))%Z.
Proof.
  intros Hdocs.
  induction rounds as [|rounds IH]; intros daysAgo totals totals' Hle Hgap.
  { simpl. intros [= <-]. unfold sumDays. simpl. lia. }
  cbn [readDays]. destruct (decide (daysAgo = gap)) as [->|Hne].
  - rewrite Hgap by lia. intros Hrest.
    apply IH in Hrest; [|done|intros; apply Hgap; lia]. rewrite Hrest.
    by rewrite Nat.sub_diag, !Nat.min_0_r.
  - replace (gap - daysAgo) with (S (gap - S daysAgo)) by lia.
    rewrite <- Nat.succ_min_distr, sumDays_S. unfold dayCount at 1.
    specialize (Hdocs daysAgo ltac:(lia)).
    destruct (ds daysAgo) as [[stats|]|]; [| |done]; simpl decode; cbv iota.
    + destruct (sumOnto totals.1 (c stats)) as [totalC|] eqn:Hsum; [|done].
      intros Hrest.
      apply IH in Hrest; [|lia|intros; apply Hgap; lia]. rewrite Hrest.
      cbn [fst snd]. rewrite (sumOnto_counted _ _ _ k Hsum). lia.
    + intros Hrest.
      apply IH in Hrest; [|lia|intros; apply Hgap; lia]. rewrite Hrest.
      lia.
Qed.

Lemma within_setKey (limit limit' v : Z) (a : Obj Z) (k : string) :
  within limit a → (limit ≤ limit')%Z → (0 ≤ v ≤ limit')%Z →
  within limit' (setKey a k v).
Proof.
  intros Ha Hlimit Hv k'. rewrite getKey_setKey.
  case_decide; simpl; [lia|]. specialize (Ha k'). lia.
Qed.

(** A count is added without leaving the numbers that are exact. *)
Lemma addOnto_returns (limit : Z) (a : Obj Z) (e : string * Z) :
  within limit a →
  Js.inherited e.1 = false → (0 ≤ e.2)%Z → (limit + e.2 ≤ 2 ^ 53)%Z →
  ∃ a', addOnto a e = Some a' ∧ within (limit + e.2)%Z a'.
Proof.
  intros Ha Hname Hcount Hlimit. unfold addOnto. rewrite Hname.
  pose proof (Ha e.1) as Hk.
  destruct (getKey a e.1) as [count|]; simpl in Hk.
  - rewrite plus_exact by lia. eexists. split; [done|].
    apply (within_setKey limit); [done|lia..].
  - rewrite plus_exact by lia. eexists. split; [done|].
    apply (within_setKey limit); [done|lia..].
Qed.

Lemma total_nonneg (entries : list (string * Z)) :
  Forall (λ e, Js.inherited e.1 = false ∧ (0 ≤ e.2)%Z) entries →
  (0 ≤ total entries)%Z.
Proof.
  induction 1 as [|e l [_ He] _ IH]; simpl; lia.
Qed.

Lemma sumEntries_returns (entries : list (string * Z)) :
  ∀ limit a,
    within limit a →
    Forall (λ e, Js.inherited e.1 = false ∧ (0 ≤ e.2)%Z) entries →
    (limit + total entries ≤ 2 ^ 53)%Z →
    ∃ a', sumEntries a entries = Some a'
          ∧ within (limit + total entries)%Z a'.
Proof.
  induction entries as [|e entries IH]; intros limit a Ha Hok Hlimit.
  { exists a. simpl. split; [done|]. by rewrite Z.add_0_r. }
  apply Forall_cons in Hok as [[Hname Hcount] Hok].
  pose proof (total_nonneg _ Hok) as Hrest.
  cbn [total sumEntries] in *.
  destruct (addOnto_returns limit a e Ha Hname Hcount) as (a1 & -> & Ha1);
    [lia|].
  destruct (IH _ _ Ha1 Hok) as (a' & -> & Ha'); [lia|].
  exists a'. split; [done|]. by rewrite Z.add_assoc.
Qed.

Lemma total_perm (entries entries' : list (string * Z)) :
  entries ≡ₚ entries' →
  total entries = total entries'.
Proof.
  induction 1 as [|e l l' _ IH|e e' l|l l' l'' _ IH _ IH']; simpl in *; lia.
Qed.

Lemma total_app (entries entries' : list (string * Z)) :
  total (entries ++ entries')
  = (total entries + total entries')%Z.
Proof. induction entries as [|e l IH]; simpl; lia. Qed.

Lemma sumOnto_returns (limit : Z) (a : Obj Z) (b : option (Obj Z)) :
  within limit a →
  Forall (λ e, Js.inherited e.1 = false ∧ (0 ≤ e.2)%Z) (default [] b) →
  (limit + total (default [] b) ≤ 2 ^ 53)%Z →
  ∃ a', sumOnto a b = Some a'
        ∧ within (limit + total (default [] b))%Z a'.
Proof.
  destruct b as [b|]; simpl.
  - intros Ha Hok Hlimit.
    rewrite (total_perm _ _ (symmetry (ownEntries_perm b))) in *.
    apply sumEntries_returns; [done| |done].
    by rewrite ownEntries_perm.
  - intros Ha _ _. exists a. split; [done|]. by rewrite Z.add_0_r.
Qed.

Lemma weekEntries_S (ds : DailyStats) (from n : nat) :
  weekEntries ds from (S n)
  = dayEntries (ds from) ++ weekEntries ds (S from) n.
Proof. reflexivity. Qed.

(** The loop can be followed to its end on counts that are
    countable. *)
Lemma readDays_returns (ds : DailyStats) (gap : nat) :
  (∀ day, day < gap → ds day ≠ None) →
  ∀ rounds daysAgo totals limit,
    daysAgo ≤ gap →
    (gap < daysAgo + rounds → ds gap = None) →
    within limit totals.1 →
    Forall (λ e, Js.inherited e.1 = false ∧ (0 ≤ e.2)%Z)
           (weekEntries ds daysAgo (gap - daysAgo)) →
    (limit + total (weekEntries ds daysAgo (gap - daysAgo))
     ≤ 2 ^ 53)%Z →
    ∃ totals', readDays ds rounds daysAgo totals = Some totals'.
Proof.
  intros Hdocs.
  induction rounds as [|rounds IH];
    intros daysAgo totals limit Hle Hgap Hin Hok Hlimit.
  { simpl. eauto. }
  cbn [readDays]. destruct (decide (daysAgo = gap)) as [->|Hne].
  - rewrite Hgap by lia.
    apply (IH _ _ limit); [done|intros; apply Hgap; lia|done..].
  - replace (gap - daysAgo) with (S (gap - S daysAgo)) in * by lia.
    rewrite weekEntries_S in *.
    apply Forall_app in Hok as [Hday Hrest].
    rewrite total_app in Hlimit.
    pose proof (total_nonneg _ Hday). pose proof (total_nonneg _ Hrest).
    specialize (Hdocs daysAgo ltac:(lia)).
    destruct (ds daysAgo) as [[stats|]|] eqn:Hdoc; [| |done];
      simpl decode; cbv iota; cbn [dayEntries] in *.
    + destruct (sumOnto_returns limit totals.1 (c stats) Hin Hday)
        as (totalC & -> & HtotalC); [lia|].
      apply (IH _ _ (limit + total (default [] (c stats)))%Z);
        [lia|intros; apply Hgap; lia|done..|lia].
    + apply (IH _ _ limit);
        [lia|intros; apply Hgap; lia|done..|simpl in *; lia].
Qed.

(** X20 (topPuzzlesForWeek and sumOnto of generateWeeklyEmail.ts, lines
    22-32 and 47-65).  When the days before the day [gap] all have a
    stats document, and the day [gap] has none unless seven days have
    been read, the total of every puzzle after the loop is the sum of
    its counts in the documents of the first [gap] days that decode.
    This holds for counts on which [+] is the sum of whole numbers:
    counts that are not negative and add up, all together, to at most
    2^53, for puzzle ids that are not names of properties of
    [Object.prototype]. *)
Theorem weekTotals_sums (ds : DailyStats) (gap : nat) :
  gap ≤ 7 →
  (∀ day, day < gap → ds day ≠ None) →
  (gap < 7 → ds gap = None) →
  countable (weekEntries ds 0 gap) →
  ∃ totals,
    weekTotals ds = Some totals
    ∧ ∀ k, default 0%Z (getKey totals.1 k) = sumDays ds k 0 gap.
Proof.
  intros Hweek Hdocs Hgap [Hok Hlimit]. unfold weekTotals.
  destruct (readDays_returns ds gap Hdocs 7 0 ([], []) 0)
    as [totals Htotals]; [lia|done|by intros k|..].
  { by rewrite Nat.sub_0_r. }
  { rewrite Nat.sub_0_r. lia. }
  exists totals. split; [done|]. intros k.
  apply (readDays_sums ds k gap Hdocs) in Htotals; [|lia|done].
  rewrite Htotals, Nat.sub_0_r, Nat.min_r by done. simpl. lia.
Qed.

(** The date that [toDate] gives is not before the time that
    [toMillis] gives. *)
Lemma toMillis_toDate (ts : Timestamp) :
  (AdminTimestamp.toMillis ts ≤ AdminTimestamp.toDate ts)%Z.
Proof.
  unfold AdminTimestamp.toMillis, AdminTimestamp.toDate.
  assert (AdminTimestamp.nanoseconds ts / 1000000
          ≤ (AdminTimestamp.nanoseconds ts + 500000) / 1000000)%Z; [|lia].
  apply Z.div_le_mono; lia.
Qed.

Lemma filter_spec {A} (keep : A → bool) (l : list A) (x : A) :
  x ∈ List.filter keep l ↔ x ∈ l ∧ keep x = true.
Proof. by rewrite !list_elem_of_In, filter_In. Qed.

Lemma filter_shorter {A} (keep : A → bool) (l : list A) :
  length (List.filter keep l) ≤ length l.
Proof.
  induction l as [|x l IH]; simpl; [done|]. destruct (keep x); simpl; lia.
Qed.

(** The two lists hold what the [reduce] was given, and nothing else. *)
Lemma partition_elem_of (vals : list (string * string * bool))
    (link text : string) :
  ∀ res,
    (link, text) ∈ (foldl bySize res vals).1 ++ (foldl bySize res vals).2
    ↔ (link, text) ∈ res.1 ++ res.2
      ∨ ∃ mini, (link, text, mini) ∈ vals.
Proof.
  induction vals as [|[[link' text'] mini'] vals IH]; intros res; simpl.
  { split; [by left|]. intros [?|[? ?%elem_of_nil]]; done. }
  rewrite IH. unfold bySize at 1 2. destruct mini'; cbn [fst snd].
  - rewrite !elem_of_app, list_elem_of_singleton. split.
    + intros [[?|[?|[= -> ->]]]|[mini ?]].
      * by left; left.
      * by left; right.
      * right. eexists. apply list_elem_of_here.
      * right. exists mini. by apply list_elem_of_further.
    + intros [[?|?]|[mini [[= -> -> ->]|?]%elem_of_cons]]; eauto 6.
  - rewrite !elem_of_app, list_elem_of_singleton. split.
    + intros [[[?|[= -> ->]]|?]|[mini ?]].
      * by left; left.
      * right. eexists. apply list_elem_of_here.
      * by left; right.
      * right. exists mini. by apply list_elem_of_further.
    + intros [[?|?]|[mini [[= -> -> ->]|?]%elem_of_cons]]; eauto 6.
Qed.

Lemma partition_length (vals : list (string * string * bool)) :
  ∀ res,
    length (foldl bySize res vals).1 + length (foldl bySize res vals).2
    = length res.1 + length res.2 + length vals.
Proof.
  induction vals as [|[[link' text'] mini'] vals IH]; intros res; simpl.
  { lia. }
  rewrite IH. unfold bySize.
  destruct mini'; cbn [fst snd]; rewrite length_app; simpl; lia.
Qed.

(** X21 (topPuzzlesForWeek of generateWeeklyEmail.ts, lines 66-117).  The
    two lists of the weekly email hold at most fifteen puzzles in all,
    and every puzzle listed has a total for the week, a document that
    decodes, is not private, and is not private until a time that is
    still to come. *)
Theorem topPuzzles_public (totalC : Obj Z)
    (puzzles : gmap string (DocumentData PuzzleT)) (now : Z) :
  length (topPuzzles totalC puzzles now).1
  + length (topPuzzles totalC puzzles now).2 ≤ 15
  ∧ ∀ link text,
      (link, text) ∈ (topPuzzles totalC puzzles now).1
                     ++ (topPuzzles totalC puzzles now).2 →
      ∃ id puzzle count,
        link = "https://crosshare.org/crosswords/" +:+ id
        ∧ (id, count) ∈ totalC
        ∧ puzzles !! id = Some (Shaped puzzle)
        ∧ pv puzzle ≠ Some true
        ∧ ∀ until, pvu puzzle = Some until →
                   (AdminTimestamp.toMillis until ≤ now)%Z.
Proof.
  unfold topPuzzles. split.
  - rewrite partition_length. simpl.
    etrans; [apply omap_length|].
    etrans; [apply filter_shorter|].
    rewrite length_fmap. change 15%Z with (0 + 15)%Z.
    etrans; [apply slice_length|]; lia.
  - intros link text Hin.
    apply partition_elem_of in Hin as [Hin|[mini Hin]].
    { by apply elem_of_nil in Hin. }
    apply list_elem_of_omap in Hin as (loaded & Hin & Hlisting).
    apply filter_spec in Hin as [Hin Hlistable].
    apply list_elem_of_fmap in Hin as ([id count] & -> & Hin).
    apply slice_subseteq in Hin. rewrite sort_perm in Hin.
    unfold loadPuzzle in *. cbn [fst] in *.
    destruct (puzzles !! id) as [[puzzle|]|] eqn:Hdoc; try done.
    exists id, puzzle, count. simpl in Hlisting, Hlistable.
    injection Hlisting as <- _ _. split; [done|]. split; [done|].
    split; [done|].
    case_bool_decide as Hpv; [done|]. split; [done|].
    intros liveAt Huntil. rewrite Huntil in Hlistable.
    destruct (Z.ltb_spec now (AdminTimestamp.toDate liveAt)); [done|].
    pose proof (toMillis_toDate liveAt). lia.
Qed.

End WeeklyEmail.

Section DailyBlocks.

Lemma alterAll_lookup (f : NotificationT → NotificationT)
    (ns : list NotificationT) (coll : gmap string NotificationT)
    (id : string) :
  (∀ n, f (f n) = f n) →
  foldl (λ coll n, alter f (NotificationBase.id (base n)) coll) coll ns !! id
  = if decide (id ∈ idsOf ns) then f <$> coll !! id else coll !! id.
Proof.
  intros Hidemp. unfold idsOf. revert coll.
  induction ns as [|n ns IH]; intros coll.
  { case_decide as Hin; [by apply elem_of_nil in Hin|done]. }
  rewrite fmap_cons. cbn [foldl]. rewrite IH.
  destruct (decide (NotificationBase.id (base n) = id)) as [<-|Hne].
  - rewrite lookup_alter_eq.
    case_decide as Hin; case_decide as Hin';
      try (exfalso; apply Hin'; apply list_elem_of_here).
    + destruct (coll !! _); simpl; [|done]. by rewrite Hidemp.
    + done.
  - rewrite lookup_alter_ne by done.
    case_decide as Hin; case_decide as Hin'; try done.
    + exfalso. apply Hin'. by apply list_elem_of_further.
    + exfalso. apply elem_of_cons in Hin' as [->|?]; done.
Qed.

Lemma markEmailed_idemp (n : NotificationT) :
  markEmailed (markEmailed n) = markEmailed n.
Proof. by destruct n. Qed.

(** The updates of documents that exist are all accepted. *)
Lemma list_find_missing (ns : list NotificationT)
    (coll : gmap string NotificationT) :
  (∀ n, n ∈ ns → is_Some (coll !! NotificationBase.id (base n))) →
  list_find (λ n, coll !! NotificationBase.id (base n) = None) ns = None.
Proof.
  intros Hdocs. apply list_find_None, Forall_forall. intros n Hn Hnone.
  destruct (Hdocs n Hn) as [doc Hdoc]. congruence.
Qed.

Lemma elem_of_concat {A} (x : A) (ls : list (list A)) :
  x ∈ concat ls ↔ ∃ l, x ∈ l ∧ l ∈ ls.
Proof.
  rewrite list_elem_of_In, in_concat. split.
  - intros (l & Hl & Hx). exists l. by rewrite !list_elem_of_In.
  - intros (l & Hx & Hl). exists l. by rewrite <- !list_elem_of_In.
Qed.

Lemma byUser_elem_of (unread : list NotificationT)
    (groups : list (string * list NotificationT)) (n : NotificationT) :
  byUser unread = Returns groups →
  n ∈ concat groups.*2 ↔ n ∈ unread.
Proof.
  intros Hgroups. rewrite (reduceBy_elem_of _ _ _ _ _ Hgroups). simpl.
  rewrite elem_of_nil. tauto.
Qed.

(** The notifications of a group have the key of the group. *)
Lemma pushTo_key (key : NotificationT → string) (x : NotificationT)
    (rv rv' : list (string * list NotificationT)) :
  pushTo (key x) x rv = Returns rv' →
  Forall (λ e, ∀ n, n ∈ e.2 → key n = e.1) rv →
  Forall (λ e, ∀ n, n ∈ e.2 → key n = e.1) rv'.
Proof.
  intros Hpush Hrv. revert rv' Hpush.
  induction Hrv as [|[k xs] rv Hxs Hrv IH]; intros rv'; cbn [pushTo].
  - destruct (Js.inherited (key x)); [done|]. intros [= <-].
    constructor; [|done]. by intros n ->%list_elem_of_singleton.
  - destruct (decide (k = key x)) as [->|Hne].
    + intros [= <-]. constructor; [|done]. cbn [fst snd] in *.
      intros n [Hn| ->%list_elem_of_singleton]%elem_of_app; auto.
    + destruct (pushTo (key x) x rv) as [rest|]; [|done]. intros [= <-].
      constructor; [done|]. by apply IH.
Qed.

Lemma reduceBy_key (key : NotificationT → string)
    (xs : list NotificationT) :
  ∀ rv groups,
    reduceBy key xs rv = Returns groups →
    Forall (λ e, ∀ n, n ∈ e.2 → key n = e.1) rv →
    Forall (λ e, ∀ n, n ∈ e.2 → key n = e.1) groups.
Proof.
  induction xs as [|x xs IH]; intros rv groups; simpl.
  { by intros [= <-]. }
  destruct (pushTo (key x) x rv) as [rv'|] eqn:Hpush; [|done].
  intros Hrest Hrv. apply (IH _ _ Hrest).
  by apply (pushTo_key key x rv).
Qed.

(** Every key met has one entry. *)
Lemma reduceBy_keys (key : NotificationT → string)
    (xs : list NotificationT) :
  ∀ rv groups,
    reduceBy key xs rv = Returns groups →
    NoDup rv.*1 →
    NoDup groups.*1
    ∧ ∀ u, u ∈ groups.*1 ↔ u ∈ rv.*1 ∨ ∃ n, n ∈ xs ∧ key n = u.
Proof.
  induction xs as [|x xs IH]; intros rv groups; simpl.
  { intros [= <-] Hrv. split; [done|]. intros u. split; [by left|].
    intros [?|(n & Hn%elem_of_nil & _)]; done. }
  destruct (pushTo (key x) x rv) as [rv'|] eqn:Hpush; [|done].
  intros Hrest Hrv.
  pose proof (pushTo_keys _ _ _ _ Hpush) as Hkeys'.
  destruct (IH _ _ Hrest) as [Hnd Hkeys].
  { rewrite Hkeys'. case_decide as Hin; [done|].
    apply NoDup_app. split; [done|]. split; [|apply NoDup_singleton].
    intros k Hk ->%list_elem_of_singleton. done. }
  split; [done|]. intros u. rewrite Hkeys, Hkeys'.
  case_decide as Hin.
  - split.
    + intros [?|(n & Hn & Hu)]; [by left|].
      right. exists n. split; [by apply list_elem_of_further|done].
    + intros [?|(n & [->|Hn]%elem_of_cons & Hu)]; [by left| |].
      * left. by rewrite <- Hu.
      * right. by exists n.
  - rewrite elem_of_app, list_elem_of_singleton. split.
    + intros [[?| ->]|(n & Hn & Hu)]; [by left| |].
      * right. exists x. split; [apply list_elem_of_here|done].
      * right. exists n. split; [by apply list_elem_of_further|done].
    + intros [?|(n & [->|Hn]%elem_of_cons & Hu)];
        [by left; left|by left; right|].
      right. by exists n.
Qed.

(** The users with an unread notification, each once. *)
Lemma usersOf_keys (unread : list NotificationT) :
  NoDup (usersOf unread)
  ∧ ∀ u, u ∈ usersOf unread
         ↔ ∃ n, n ∈ unread ∧ NotificationBase.u (base n) = u.
Proof.
  unfold usersOf. split; [apply fromSet_NoDup|].
  intros u. rewrite fromSet_elem_of, list_elem_of_fmap. split.
  - intros [(n & -> & Hn) _]. by exists n.
  - intros (n & Hn & <-). split; [by exists n|apply not_elem_of_nil].
Qed.

(** There is one entry for each of them. *)
Lemma byUser_users (unread : list NotificationT)
    (groups : list (string * list NotificationT)) :
  byUser unread = Returns groups →
  length groups = length (usersOf unread).
Proof.
  intros Hgroups.
  destruct (reduceBy_keys _ _ _ _ Hgroups) as [Hnd Hkeys]; [constructor|].
  destruct (usersOf_keys unread) as [Hnd' Hkeys'].
  rewrite <- (length_fmap fst groups). apply Permutation_length.
  apply NoDup_Permutation; [done..|].
  intros u. rewrite Hkeys, Hkeys'. simpl. rewrite elem_of_nil. tauto.
Qed.

End DailyBlocks.

Section DailyRunFacts.

Context (localeCompare : string → string → Z)
        (markdownToHtml : string → string).

Lemma storedPrefs_ext (db db' : Firestore) (userId : string) :
  coll_prefs db' = coll_prefs db → storedPrefs db' userId = storedPrefs db userId.
Proof. unfold storedPrefs. by intros ->. Qed.

(** What a call of [queueEmailForUser] does to the store: at most one
    mail, and the flag [r] of some of the notifications given. *)
Lemma queueEmailForUser_effect (userId : string)
    (notifications : list NotificationT) (db : Firestore) :
  ∃ mails toMark,
    length mails ≤ 1
    ∧ (∀ n, n ∈ toMark → n ∈ notifications)
    ∧ coll_mail (queueEmailForUser localeCompare markdownToHtml userId
                                   notifications db).2
      = coll_mail db ++ mails
    ∧ coll_n (queueEmailForUser localeCompare markdownToHtml userId
                                notifications db).2
      = foldl (λ coll n, alter markRead (NotificationBase.id (base n)) coll)
              (coll_n db) toMark
    ∧ coll_prefs (queueEmailForUser localeCompare markdownToHtml userId
                                    notifications db).2
      = coll_prefs db
    ∧ users (queueEmailForUser localeCompare markdownToHtml userId
                               notifications db).2
      = users db
    ∧ ((∀ n, n ∈ toMark →
             is_Some (coll_n db !! NotificationBase.id (base n))) →
       (∀ n, n ∈ notifications →
             wanted (storedPrefs db userId) n = true → clashes n = false) →
       (queueEmailForUser localeCompare markdownToHtml userId
                          notifications db).1 = Returns ()).
Proof.
  assert (∀ out,
          queueEmailForUser localeCompare markdownToHtml userId
                            notifications db = (out, db) →
          (out = Returns ()
           ∨ ∃ n, n ∈ notifications
                  ∧ wanted (storedPrefs db userId) n = true
                  ∧ clashes n = true) →
          ∃ mails toMark,
            length mails ≤ 1
            ∧ (∀ n, n ∈ toMark → n ∈ notifications)
            ∧ coll_mail (queueEmailForUser localeCompare markdownToHtml
                           userId notifications db).2
              = coll_mail db ++ mails
            ∧ coll_n (queueEmailForUser localeCompare markdownToHtml userId
                                        notifications db).2
              = foldl (λ coll n,
                         alter markRead (NotificationBase.id (base n)) coll)
                      (coll_n db) toMark
            ∧ coll_prefs (queueEmailForUser localeCompare markdownToHtml
                            userId notifications db).2
              = coll_prefs db
            ∧ users (queueEmailForUser localeCompare markdownToHtml userId
                                       notifications db).2
              = users db
            ∧ ((∀ n, n ∈ toMark →
                     is_Some (coll_n db !! NotificationBase.id (base n))) →
               (∀ n, n ∈ notifications →
                     wanted (storedPrefs db userId) n = true →
                     clashes n = false) →
               (queueEmailForUser localeCompare markdownToHtml userId
                                  notifications db).1 = Returns ()))
    as Hquiet.
  { intros out -> Hout. exists [], []. simpl. rewrite app_nil_r.
    split; [lia|]. split; [by intros n ?%elem_of_nil|].
    do 4 (split; [done|]). intros _ Hclean.
    destruct Hout as [->|(n & Hn & Hwanted & Hclash)]; [done|].
    rewrite (Hclean n Hn Hwanted) in Hclash. done. }
  destruct (unsubscribed (storedPrefs db userId) "all") eqn:Hall.
  { apply (Hquiet (Returns ())); [|by left].
    apply queueEmailForUser_quiet. by left. }
  destruct (users db !! userId ≫= email) as [toAddress|] eqn:Hmail.
  2: { apply (Hquiet (Returns ())); [|by left].
       apply queueEmailForUser_quiet. by right; left. }
  destruct (decide (toAddress = EmptyString)) as [->|Haddr].
  { apply (Hquiet (Returns ())); [|by left].
    apply queueEmailForUser_quiet. by right; right. }
  pose proof (queueEmailForUser_run localeCompare markdownToHtml userId
                toAddress notifications db) as Hrun.
  cbv zeta in Hrun. specialize (Hrun Hall Hmail Haddr).
  destruct (digestDraft (storedPrefs db userId)
              (Js.sort (λ n1 n2, localeCompare (NotificationBase.id (base n1))
                                               (NotificationBase.id (base n2)))
                       notifications)) as [d|err] eqn:Hd.
  2: { apply (Hquiet (Throws err)); [done|]. right.
       destruct (decide (Exists
                   (λ n, wanted (storedPrefs db userId) n = true
                         ∧ clashes n = true) notifications))
         as [Hclash|Hclean].
       - apply Exists_exists in Hclash as (n & Hn & Hwanted & Hclash).
         by exists n.
       - destruct (digestDraft_tells (storedPrefs db userId)
                     (Js.sort (λ n1 n2,
                                 localeCompare (NotificationBase.id (base n1))
                                               (NotificationBase.id (base n2)))
                              notifications)) as (d & Hd' & _);
           [|congruence].
         intros n Hn Hwanted. rewrite sort_perm in Hn.
         destruct (clashes n) eqn:Hclash; [|done].
         destruct Hclean. apply Exists_exists. by exists n. }
  apply digestDraft_returns_tells in Hd as [Hread _].
  destruct (decide (markdown d = EmptyString)) as [_|_].
  { apply (Hquiet (Returns ())); [done|by left]. }
  destruct Hrun as (mail & _ & _ & ->).
  exists [mail], (read d). split; [done|]. split.
  { intros n Hn. apply Hread in Hn as [Hn _]. by rewrite sort_perm in Hn. }
  unfold markAllRead. cbn [coll_n with_coll_mail].
  split; [by destruct (list_find _ _) as [[? ?]|]|].
  split; [by destruct (list_find _ _) as [[? ?]|]|].
  split; [by destruct (list_find _ _) as [[? ?]|]|].
  split; [by destruct (list_find _ _) as [[? ?]|]|].
  intros Hdocs _. by rewrite (list_find_missing (read d) (coll_n db) Hdocs).
Qed.

(** What the chain of one user does to the store, with the flags of
    the documents given by what they were. *)
Lemma queueEmailsFor_effect (entry : string * list NotificationT)
    (db : Firestore) :
  ∃ mails toMark toFlag,
    length mails ≤ 1
    ∧ (∀ n, n ∈ toMark → n ∈ entry.2)
    ∧ (∀ n, n ∈ toFlag → n ∈ entry.2)
    ∧ coll_mail (queueEmailsFor localeCompare markdownToHtml entry db).2
      = coll_mail db ++ mails
    ∧ coll_n (queueEmailsFor localeCompare markdownToHtml entry db).2
      = foldl (λ coll n, alter markEmailed (NotificationBase.id (base n)) coll)
              (foldl (λ coll n,
                        alter markRead (NotificationBase.id (base n)) coll)
                     (coll_n db) toMark)
              toFlag
    ∧ coll_prefs (queueEmailsFor localeCompare markdownToHtml entry db).2
      = coll_prefs db
    ∧ users (queueEmailsFor localeCompare markdownToHtml entry db).2
      = users db
    ∧ ((∀ n, n ∈ entry.2 →
             is_Some (coll_n db !! NotificationBase.id (base n))) →
       (∀ n, n ∈ entry.2 →
             wanted (storedPrefs db entry.1) n = true → clashes n = false) →
       (queueEmailsFor localeCompare markdownToHtml entry db).1 = Returns ()
       ∧ ∀ n, n ∈ entry.2 → n ∈ toFlag).
Proof.
  destruct (queueEmailForUser_effect entry.1 entry.2 db)
    as (mails & toMark & Hmails & HtoMark & Hmail & Hn & Hprefs & Husers
        & Hreturns).
  unfold queueEmailsFor, bind.
  destruct (queueEmailForUser localeCompare markdownToHtml entry.1 entry.2 db)
    as [[[]|err] db1] eqn:Hcall; cbn [fst snd] in *.
  - exists mails, toMark,
      (Js.sort (λ n1 n2, localeCompare (NotificationBase.id (base n1))
                                       (NotificationBase.id (base n2)))
               entry.2).
    split; [done|]. split; [done|].
    split; [intros n Hin; by rewrite sort_perm in Hin|].
    unfold markAllEmailed. cbn [coll_n coll_mail with_coll_n].
    split; [by destruct (list_find _ _) as [[? ?]|]|].
    split; [destruct (list_find _ _) as [[? ?]|]; unfold with_coll_n;
            cbn [snd coll_n]; by rewrite Hn|].
    split; [by destruct (list_find _ _) as [[? ?]|]|].
    split; [by destruct (list_find _ _) as [[? ?]|]|].
    intros Hdocs _. split; [|intros n Hin; by rewrite sort_perm].
    rewrite list_find_missing; [done|].
    intros n Hin. rewrite sort_perm in Hin. rewrite Hn.
    rewrite (alterAll_lookup markRead) by apply markRead_idemp.
    destruct (Hdocs n Hin) as [doc ->]. by case_decide.
  - exists mails, toMark, []. split; [done|]. split; [done|].
    split; [by intros n ?%elem_of_nil|]. do 4 (split; [done|]).
    intros Hdocs Hclean.
    assert (Throws err = Returns ()) as Habsurd; [|done].
    apply Hreturns; [|done]. intros n Hin. by apply Hdocs, HtoMark.
Qed.

Lemma emailed_markRead (doc : option NotificationT) :
  emailed (markRead <$> doc) = emailed doc.
Proof. by destruct doc as [[]|]. Qed.

Lemma emailed_markEmailed (doc : option NotificationT) :
  is_Some doc → emailed (markEmailed <$> doc) = Some true.
Proof. intros [[] ->]; done. Qed.

(** The documents after the updates of one chain. *)
Lemma flags_lookup (coll : gmap string NotificationT)
    (toMark toFlag : list NotificationT) (id : string) :
  (is_Some (foldl (λ coll n,
                     alter markEmailed (NotificationBase.id (base n)) coll)
                  (foldl (λ coll n,
                            alter markRead (NotificationBase.id (base n)) coll)
                         coll toMark)
                  toFlag !! id)
   ↔ is_Some (coll !! id))
  ∧ (emailed (coll !! id) = Some true →
     emailed (foldl (λ coll n,
                       alter markEmailed (NotificationBase.id (base n)) coll)
                    (foldl (λ coll n,
                              alter markRead (NotificationBase.id (base n))
                                    coll)
                           coll toMark)
                    toFlag !! id) = Some true)
  ∧ (id ∈ idsOf toFlag → is_Some (coll !! id) →
     emailed (foldl (λ coll n,
                       alter markEmailed (NotificationBase.id (base n)) coll)
                    (foldl (λ coll n,
                              alter markRead (NotificationBase.id (base n))
                                    coll)
                           coll toMark)
                    toFlag !! id) = Some true)
  ∧ (id ∉ idsOf toMark → id ∉ idsOf toFlag →
     foldl (λ coll n, alter markEmailed (NotificationBase.id (base n)) coll)
           (foldl (λ coll n,
                     alter markRead (NotificationBase.id (base n)) coll)
                  coll toMark)
           toFlag !! id
     = coll !! id).
Proof.
  rewrite (alterAll_lookup markEmailed) by apply markEmailed_idemp.
  rewrite (alterAll_lookup markRead) by apply markRead_idemp.
  destruct (coll !! id) as [doc|] eqn:Hdoc.
  - repeat case_decide; simpl; repeat split; try done;
      try (by intros; eexists); by destruct doc as [[]| [] | [] | []].
  - repeat case_decide; simpl; repeat split; try done;
      by intros [? ?].
Qed.

(** The chains of the users, one after the other. *)
Lemma queueAll_effect (entries : list (string * list NotificationT)) :
  ∀ (out : Outcome unit) (db : Firestore),
    let res := foldl (queueNext localeCompare markdownToHtml) (out, db)
                     entries in
    ∃ mails,
      coll_mail res.2 = coll_mail db ++ mails
      ∧ length mails ≤ length entries
      ∧ (∀ id, is_Some (coll_n res.2 !! id) ↔ is_Some (coll_n db !! id))
      ∧ (∀ id, emailed (coll_n db !! id) = Some true →
               emailed (coll_n res.2 !! id) = Some true)
      ∧ (∀ id,
           (∀ e n, e ∈ entries → n ∈ e.2 →
                   NotificationBase.id (base n) ≠ id) →
           coll_n res.2 !! id = coll_n db !! id)
      ∧ ((∀ e n, e ∈ entries → n ∈ e.2 →
                 is_Some (coll_n db !! NotificationBase.id (base n))) →
         (∀ e n, e ∈ entries → n ∈ e.2 →
                 wanted (storedPrefs db e.1) n = true → clashes n = false) →
         (out = Returns () → res.1 = Returns ())
         ∧ ∀ e n, e ∈ entries → n ∈ e.2 →
                  emailed (coll_n res.2 !! NotificationBase.id (base n))
                  = Some true).
Proof.
  induction entries as [|entry entries IH]; intros out db; cbv zeta.
  { exists []. simpl. rewrite app_nil_r. split; [done|]. split; [done|].
    split; [done|]. split; [done|]. split; [done|].
    intros _ _. split; [done|]. by intros e n ?%elem_of_nil. }
  cbn [foldl].
  destruct (queueEmailsFor_effect entry db)
    as (mails1 & toMark & toFlag & Hlen1 & HtoMark & HtoFlag & Hmail1 & Hn1
        & Hprefs1 & Husers1 & Hdocs1).
  destruct (IH (queueNext localeCompare markdownToHtml (out, db) entry).1
               (queueNext localeCompare markdownToHtml (out, db) entry).2)
    as (mails & Hmail & Hlen & Hdom & Hmono & Hframe & Hdocs).
  rewrite <- surjective_pairing in Hmail, Hdom, Hmono, Hframe, Hdocs.
  change (queueNext localeCompare markdownToHtml (out, db) entry).2
    with (queueEmailsFor localeCompare markdownToHtml entry db).2 in *.
  pose proof (λ id, flags_lookup (coll_n db) toMark toFlag id) as Hflags.
  rewrite <- Hn1 in Hflags.
  pose proof (λ id, proj1 (Hflags id)) as Hdom1.
  pose proof (λ id, proj1 (proj2 (Hflags id))) as Hmono1.
  pose proof (λ id, proj1 (proj2 (proj2 (Hflags id)))) as Hflag1.
  pose proof (λ id, proj2 (proj2 (proj2 (Hflags id)))) as Hframe1.
  clear Hflags.
  exists (mails1 ++ mails).
  split; [by rewrite Hmail, Hmail1, app_assoc|].
  split; [rewrite length_app; simpl; lia|].
  split; [intros id; rewrite Hdom; apply Hdom1|].
  split; [intros id Hid; by apply Hmono, Hmono1|].
  split.
  { intros id Hid. rewrite Hframe.
    - apply Hframe1.
      + intros (n & Heq & Hin)%list_elem_of_fmap.
        apply (Hid entry n); [apply list_elem_of_here|by apply HtoMark|done].
      + intros (n & Heq & Hin)%list_elem_of_fmap.
        apply (Hid entry n); [apply list_elem_of_here|by apply HtoFlag|done].
    - intros e n He Hn. apply (Hid e n); [by apply list_elem_of_further|done]. }
  intros Hall Hclean.
  destruct Hdocs1 as [Hout1 Hflagged].
  { intros n Hn. apply (Hall entry n); [apply list_elem_of_here|done]. }
  { intros n Hn. apply (Hclean entry n); [apply list_elem_of_here|done]. }
  destruct Hdocs as [Hout Hemailed].
  { intros e n He Hn. apply Hdom1.
    apply (Hall e n); [by apply list_elem_of_further|done]. }
  { intros e n He Hn. rewrite (storedPrefs_ext db _ e.1 Hprefs1).
    apply (Hclean e n); [by apply list_elem_of_further|done]. }
  split.
  - intros ->. apply Hout. unfold queueNext. cbn [fst snd]. done.
  - intros e n [->|He]%elem_of_cons Hn.
    + apply Hmono, Hflag1.
      * apply list_elem_of_fmap. exists n. split; [done|by apply Hflagged].
      * apply (Hall entry n); [apply list_elem_of_here|done].
    + by apply (Hemailed e n).
Qed.

(** X22 (queueEmails, lines 801-828).  When every unread notification
    that the query returns has its document, the run of [queueEmails]
    completes, and afterwards every one of them has the flag [e]:
    whether it was mailed or not, it is not taken up again by a later
    run; no other document of the collection is changed.  This holds
    provided that no user id is the name of a property of
    [Object.prototype], on which the [reduce] by user throws, and that
    no comment or reply of a kind that its user still subscribes to
    has such a name for its puzzle id, on which the digest of the user
    throws. *)
Theorem queueEmails_flags_all (unread : list NotificationT)
    (db : Firestore) :
  (∀ n, n ∈ unread → is_Some (coll_n db !! NotificationBase.id (base n))) →
  (∀ n, n ∈ unread → Js.inherited (NotificationBase.u (base n)) = false) →
  (∀ n, n ∈ unread →
        wanted (storedPrefs db (NotificationBase.u (base n))) n = true →
        clashes n = false) →
  (queueEmails localeCompare markdownToHtml (Right unread) db).1 = Returns ()
  ∧ (∀ n, n ∈ unread →
          emailed (coll_n (queueEmails localeCompare markdownToHtml
                                       (Right unread) db).2
                   !! NotificationBase.id (base n)) = Some true)
  ∧ ∀ id, id ∉ idsOf unread →
          coll_n (queueEmails localeCompare markdownToHtml
                              (Right unread) db).2 !! id
          = coll_n db !! id.
Proof.
  intros Hdocs Husers Hclean. unfold queueEmails, bind, lift.
  destruct (reduceBy_returns (λ x, NotificationBase.u (base x)) unread
              Husers []) as [groups Hgroups].
  fold (byUser unread) in Hgroups. rewrite Hgroups. unfold queueAll.
  destruct (queueAll_effect (Js.ownEntries groups) (Returns ()) db)
    as (mails & _ & _ & _ & _ & Hframe & Hall).
  assert (∀ e n, e ∈ Js.ownEntries groups → n ∈ e.2 →
                 n ∈ unread ∧ NotificationBase.u (base n) = e.1) as Hgroup.
  { intros e n He Hn. rewrite ownEntries_perm in He. split.
    - apply (byUser_elem_of unread groups n Hgroups), elem_of_concat.
      exists e.2. split; [done|]. by apply list_elem_of_fmap_2.
    - pose proof (reduceBy_key _ _ _ _ Hgroups (Forall_nil_2 _)) as Hkeys.
      rewrite Forall_forall in Hkeys. by apply (Hkeys e). }
  destruct Hall as [Hout Hemailed].
  { intros e n He Hn. apply Hdocs. by apply (Hgroup e). }
  { intros e n He Hn. destruct (Hgroup e n He Hn) as [Hin <-].
    by apply Hclean. }
  split; [by apply Hout|]. split.
  - intros n Hn.
    apply (byUser_elem_of unread groups n Hgroups), elem_of_concat in Hn
      as (group & Hn & (e & -> & He)%list_elem_of_fmap).
    apply (Hemailed e n); [|done]. by rewrite ownEntries_perm.
  - intros id Hid. apply Hframe. intros e n He Hn <-. apply Hid.
    apply list_elem_of_fmap. exists n. split; [done|]. by apply (Hgroup e).
Qed.

(** X23 (queueEmails, lines 801-828).  A run of [queueEmails] adds at
    most one mail for each user with unread notifications, whatever
    the store holds: the mails added are no more than these users. *)
Theorem queueEmails_mails (unread : list NotificationT) (db : Firestore) :
  (∃ mails,
     coll_mail (queueEmails localeCompare markdownToHtml
                            (Right unread) db).2
     = coll_mail db ++ mails
     ∧ length mails ≤ length (usersOf unread))
  ∧ NoDup (usersOf unread)
  ∧ ∀ u, u ∈ usersOf unread
         ↔ ∃ n, n ∈ unread ∧ NotificationBase.u (base n) = u.
Proof.
  split; [|apply usersOf_keys].
  unfold queueEmails, bind, lift.
  destruct (byUser unread) as [groups|err] eqn:Hgroups.
  - unfold queueAll.
    destruct (queueAll_effect (Js.ownEntries groups) (Returns ()) db)
      as (mails & Hmail & Hlen & _).
    exists mails. split; [done|].
    rewrite <- (byUser_users unread groups Hgroups).
    by rewrite (Permutation_length (ownEntries_perm groups)) in Hlen.
  - exists []. simpl. rewrite app_nil_r. split; [done|lia].
Qed.

(** X28 (queueEmails, lines 813-819).  When the user id of an unread
    notification is the name of a property of [Object.prototype], the
    [reduce] by user throws and the run ends there: no mail is queued
    and no notification gets the flag [e], for any user. *)
Theorem queueEmails_inherited_user (unread : list NotificationT)
    (db : Firestore) :
  (∃ n, n ∈ unread ∧ Js.inherited (NotificationBase.u (base n)) = true) →
  queueEmails localeCompare markdownToHtml (Right unread) db
  = (Throws (NotAFunction "push"), db).
Proof.
  intros Hclash. unfold queueEmails, bind, lift, byUser.
  rewrite reduceBy_throws; [done..|]. by intros k ?%elem_of_nil.
Qed.

End DailyRunFacts.

Section MoreSamples.

Import Sample SampleMore.

(** X1, at a concrete input: puzzle [A] is private until 200 and has its
    go-live time in the index; the call at time 150 returns. *)
Lemma getPuzzlesForPage_keeps_aligned_witness :
  aligned (persistedIndex
             (getPuzzlesForPage (λ puzzle, puzzle) "featured" "f"
                                (QBoolean true) 0 10 (ms 150) goesLive).2
             "featured")
  ∧ ∃ puzzles total,
      (getPuzzlesForPage (λ puzzle, puzzle) "featured" "f"
                         (QBoolean true) 0 10 (ms 150) goesLive).1
      = Returns (puzzles, total).
Proof.
  destruct (getPuzzlesForPage_keeps_aligned (λ puzzle, puzzle) "featured" "f"
              (QBoolean true) 0 10 (ms 150) goesLive) as [Hkept Hreturns].
  - unfold aligned. vm_compute. lia.
  - split; [exact Hkept|]. apply Hreturns.
    + vm_compute. discriminate.
    + vm_compute. exact I.
Defined.

(** X3, at a concrete input: pages of two puzzles over the index that
    comes to list [C,A,B]. *)
Lemma getPuzzlesForPage_bounds_witness :
  3 ≤ length (PuzzleIndex.i
                (persistedIndex
                   (getPuzzlesForPage (λ puzzle, puzzle) "featured" "f"
                                      (QBoolean true) 0 2 (ms 150)
                                      discoversC).2
                   "featured"))
  ∧ length [(puzzleAt 110, "C"); (puzzleAt 100, "A")] ≤ Z.to_nat 2.
Proof.
  destruct (getPuzzlesForPage_bounds (λ puzzle, puzzle) "featured" "f"
              (QBoolean true) 0 2 (ms 150) discoversC
              (getPuzzlesForPage (λ puzzle, puzzle) "featured" "f"
                                 (QBoolean true) 0 2 (ms 150) discoversC).2
              [(puzzleAt 110, "C"); (puzzleAt 100, "A")] 3)
    as [Htotal Hpage].
  - vm_compute. reflexivity.
  - split; [exact Htotal|]. apply Hpage. lia.
Defined.

(** X4, at a concrete input: two pages of two cover a list of three. *)
Lemma pageEntries_tile_witness :
  firstPages workingList 2 2 = take (2 * Z.to_nat 2) workingList.*1
  ∧ firstPages workingList 2 2 = workingList.*1.
Proof.
  destruct (pageEntries_tile workingList 2 2) as [Htake Hall]; [lia|].
  split; [exact Htake|]. apply Hall. vm_compute. lia.
Defined.

(** X5, at a concrete input: the query discovers [C], which is private;
    the page holds [A] and [B] only. *)
Lemma getPuzzlesForPage_hides_new_private_witness :
  "C" ∉ [(puzzleAt 100, "A"); (puzzleAt 90, "B")].*2.
Proof.
  apply (getPuzzlesForPage_hides_new_private (λ puzzle, puzzle) "featured"
           "f" (QBoolean true) 0 10 (ms 150) discoversPrivateC
           (getPuzzlesForPage (λ puzzle, puzzle) "featured" "f"
                              (QBoolean true) 0 10 (ms 150)
                              discoversPrivateC).2
           [(puzzleAt 100, "A"); (puzzleAt 90, "B")] 2
           (DBPuzzle.mk (ms 110) (Some true) None) "C").
  - vm_compute. reflexivity.
  - vm_compute. apply list_elem_of_here.
  - reflexivity.
Defined.

(** X6, at a concrete input: comments and a new puzzle are pending and
    the user unsubscribed from both kinds. *)
Lemma queueEmailForUser_nothing_wanted_witness :
  queueEmailForUser Js.defaultCompare (λ text, text) "u1"
                    DigestSample.notifications
                    (DigestSample.store ["comments"; "newpuzzles"])
  = (Returns (), DigestSample.store ["comments"; "newpuzzles"]).
Proof.
  apply (queueEmailForUser_nothing_wanted Js.defaultCompare (λ text, text)
           "u1" DigestSample.notifications
           (DigestSample.store ["comments"; "newpuzzles"])).
  intros n Hin. unfold DigestSample.notifications in Hin.
  rewrite !elem_of_cons in Hin.
  destruct Hin as [->|[->|[->|Hin]]];
    [reflexivity..|by apply elem_of_nil in Hin].
Defined.

(** X7, at a concrete input: the user unsubscribed from new puzzles
    only, and is sent the comments. *)
Lemma queueEmailForUser_queues_one_mail_witness :
  ∃ mail,
    coll_mail (queueEmailForUser Js.defaultCompare (λ text, text) "u1"
                 DigestSample.notifications
                 (DigestSample.store ["newpuzzles"])).2
    = coll_mail (DigestSample.store ["newpuzzles"]) ++ [mail]
    ∧ Mail.to mail = ["solver@example.org"]
    ∧ Mail.subject mail ≠ EmptyString.
Proof.
  apply (queueEmailForUser_queues_one_mail Js.defaultCompare (λ text, text)
           "u1" "solver@example.org" DigestSample.notifications
           (DigestSample.store ["newpuzzles"])).
  - reflexivity.
  - reflexivity.
  - discriminate.
  - exists (CommentNotification (DigestSample.unread "n2") "p1"
                                "Puzzle One" "Bob").
    split; [apply list_elem_of_here|reflexivity].
  - intros n Hin _. unfold DigestSample.notifications in Hin.
    rewrite !elem_of_cons in Hin.
    destruct Hin as [->|[->|[->|Hin]]];
      [vm_compute; reflexivity..|by apply elem_of_nil in Hin].
Defined.

(** X27, at a concrete input: the same user, with a reply on the
    puzzle ['constructor'] among the notifications. *)
Lemma queueEmailForUser_inherited_name_witness :
  queueEmailForUser Js.defaultCompare (λ text, text) "u1"
                    DigestSample.clashing
                    (DigestSample.store ["newpuzzles"])
  = (Throws (NotAFunction "push"), DigestSample.store ["newpuzzles"]).
Proof.
  apply (queueEmailForUser_inherited_name Js.defaultCompare (λ text, text)
           "u1" "solver@example.org" DigestSample.clashing
           (DigestSample.store ["newpuzzles"])).
  - reflexivity.
  - reflexivity.
  - discriminate.
  - exists (ReplyNotification (DigestSample.unread "n5") "constructor"
                              "Puzzle Three" "Eve").
    split; [|split; vm_compute; reflexivity].
    unfold DigestSample.clashing. apply elem_of_app. right.
    apply list_elem_of_here.
Defined.

(** X8, at a concrete input: the two comment notifications are marked
    as read, the notification of the new puzzle is not. *)
Lemma queueEmailForUser_marks_wanted_read_witness :
  (∀ id,
     coll_n (queueEmailForUser Js.defaultCompare (λ text, text) "u1"
               DigestSample.notifications
               (DigestSample.store ["newpuzzles"])).2 !! id
     = if decide (id ∈ idsOf (List.filter
                                (wanted (storedPrefs
                                           (DigestSample.store ["newpuzzles"])
                                           "u1"))
                                DigestSample.notifications))
       then markRead <$> coll_n (DigestSample.store ["newpuzzles"]) !! id
       else coll_n (DigestSample.store ["newpuzzles"]) !! id)
  ∧ (queueEmailForUser Js.defaultCompare (λ text, text) "u1"
       DigestSample.notifications (DigestSample.store ["newpuzzles"])).1
    = Returns ().
Proof.
  destruct (queueEmailForUser_marks_wanted_read Js.defaultCompare
              (λ text, text) "u1" "solver@example.org"
              DigestSample.notifications (DigestSample.store ["newpuzzles"]))
    as [Hmarks Hreturns].
  - reflexivity.
  - reflexivity.
  - discriminate.
  - exists (CommentNotification (DigestSample.unread "n2") "p1"
                                "Puzzle One" "Bob").
    split; [apply list_elem_of_here|reflexivity].
  - intros n Hin _. unfold DigestSample.notifications in Hin.
    rewrite !elem_of_cons in Hin.
    destruct Hin as [->|[->|[->|Hin]]];
      [vm_compute; reflexivity..|by apply elem_of_nil in Hin].
  - split; [exact Hmarks|]. apply Hreturns.
    intros n Hin _. unfold DigestSample.notifications in Hin.
    rewrite !elem_of_cons in Hin.
    destruct Hin as [->|[->|[->|Hin]]];
      [vm_compute; eauto..|by apply elem_of_nil in Hin].
Defined.

(** X10, at a concrete input: two comments of Bob and one of Al. *)
Lemma joinStringsWithAnd_set_witness :
  joinStringsWithAnd ["Bob"; "Al"; "Bob"] = joinStringsWithAnd ["Al"; "Bob"].
Proof.
  apply (joinStringsWithAnd_set ["Bob"; "Al"; "Bob"] ["Al"; "Bob"]).
  intros x. rewrite !elem_of_cons. tauto.
Defined.

(** X11, at a concrete input: a preview of three code units of a text
    of five: the texts kept are [hel...]. *)
Lemma chopTo_bound_witness :
  (Z.of_nat (Markdown.totalLength
               (Markdown.chopTo Markdown.sample (Some 3%Z))) ≤ 3 + 3)%Z
  ∧ Markdown.texts (Markdown.chopTo Markdown.sample (Some 3%Z))
    = [[104; 101; 108; 46; 46; 46]%N].
Proof.
  destruct (chopTo_bound Markdown.sample 3) as [Hbound Hcut]; [lia|].
  split; [exact Hbound|]. vm_compute. reflexivity.
Defined.

(** X12, at a concrete input: a preview of six code units of a text of
    five. *)
Lemma chopTo_short_witness :
  Markdown.chopTo Markdown.sample (Some 6%Z) = Markdown.sample.
Proof. apply (chopTo_short Markdown.sample 6). vm_compute. reflexivity. Defined.

(** A preview of exactly the length of the text drops what follows the
    text, here a line break, without an ellipsis. *)
Example chopTo_exact :
  Markdown.chopTo Markdown.sample (Some 5%Z)
  = [Markdown.Node "paragraph"
       (Markdown.Nodes
          [Markdown.Node "br" Markdown.NoContent [];
           Markdown.Node "text"
             (Markdown.Text [104; 101; 108; 108; 111]%N) []])
       []].
Proof. vm_compute. reflexivity. Qed.

(** The text before a word with a clue is in the property [pre] of
    its node: a preview of three code units cuts the word, and leaves
    the text before it as it is, uncounted. *)
Example chopTo_clued :
  Markdown.chopTo Markdown.sampleClued (Some 3%Z)
  = [Markdown.Node "cluedWord"
       (Markdown.Text [104; 101; 108; 46; 46; 46]%N)
       [("pre", Markdown.Nodes
                  [Markdown.Node "text"
                     (Markdown.Text [111; 104; 32]%N) []])]].
Proof. vm_compute. reflexivity. Qed.

(** The merge of the sample storage into the sample page: [c2] has
    been moderated and is dropped from the storage, [c3] is shown as a
    local comment and kept. *)
Example merge_sample :
  CommentList.merge CommentList.sampleComments CommentList.sampleStorage
  = Some (CommentList.sampleComments
            ++ [CommentList.localComment (CommentList.sampleStored "c3")],
          CommentList.Held [CommentList.sampleStored "c3"]).
Proof. vm_compute. reflexivity. Qed.

(** X14, at a concrete input: the sample storage after the merge. *)
Lemma merge_storage_witness :
  CommentList.Held [CommentList.sampleStored "c3"] = CommentList.sampleStorage
  ∨ ∃ held kept,
      CommentList.sampleStorage = CommentList.Held held
      ∧ sublist kept held
      ∧ length kept < length held
      ∧ CommentList.Held [CommentList.sampleStored "c3"]
        = if decide (length kept = 0) then CommentList.NoItem
          else CommentList.Held kept.
Proof.
  apply (merge_storage CommentList.sampleComments
           (CommentList.sampleComments
              ++ [CommentList.localComment (CommentList.sampleStored "c3")])
           CommentList.sampleStorage
           (CommentList.Held [CommentList.sampleStored "c3"])).
  vm_compute. reflexivity.
Defined.

(** X15, at a concrete input: the moderated comments of the sample page
    stay, and [c2], which is dropped, is one of them. *)
Lemma merge_moderated_witness :
  CommentList.moderated
    (CommentList.sampleComments
       ++ [CommentList.localComment (CommentList.sampleStored "c3")])
  = CommentList.moderated CommentList.sampleComments
  ∧ ∃ m, m ∈ CommentList.moderated CommentList.sampleComments
         ∧ Comments.id m = "c2".
Proof.
  destruct (merge_moderated CommentList.sampleComments
              (CommentList.sampleComments
                 ++ [CommentList.localComment
                       (CommentList.sampleStored "c3")])
              CommentList.sampleStorage
              (CommentList.Held [CommentList.sampleStored "c3"]))
    as [Hmods Hdropped].
  - vm_compute. reflexivity.
  - split; [exact Hmods|].
    apply (Hdropped
             [CommentList.sampleStored "c2"; CommentList.sampleStored "c3"]
             [CommentList.sampleStored "c3"]
             (CommentList.sampleStored "c2")).
    + reflexivity.
    + reflexivity.
    + apply list_elem_of_here.
    + rewrite list_elem_of_singleton. discriminate.
Defined.

(** X16, at a concrete input: the stored comment [c3] is found on the
    page after the merge. *)
Lemma merge_shows_witness :
  is_Some (CommentList.findCommentById
             (CommentList.sampleComments
                ++ [CommentList.localComment (CommentList.sampleStored "c3")])
             "c3").
Proof.
  destruct (merge_shows CommentList.sampleComments
              (CommentList.sampleComments
                 ++ [CommentList.localComment
                       (CommentList.sampleStored "c3")])
              CommentList.sampleStorage
              (CommentList.Held [CommentList.sampleStored "c3"]))
    as [_ Htop].
  - vm_compute. reflexivity.
  - apply (Htop
             [CommentList.sampleStored "c2"; CommentList.sampleStored "c3"]
             (CommentList.sampleStored "c3")).
    + reflexivity.
    + apply list_elem_of_further, list_elem_of_here.
    + reflexivity.
Defined.

(** X17, at a concrete input: the reply [m1] is approved, [m2] is
    marked for deletion, and the parent of the reply [m3] is not
    there. *)
Lemma moderateComments_fails_witness :
  Admin.c (Admin.moderateComments (Some Admin.sampleFailingQueue) ["m2"]
                                  Admin.sampleStore).2
  = Admin.c Admin.sampleStore
  ∧ ∃ before failing after,
      Admin.sampleFailingQueue = before ++ failing :: after
      ∧ Js.includes failing.1 ["m2"] = false
      ∧ is_Some (Comments.rt failing.2)
      ∧ ∀ id,
          Admin.cfm (Admin.moderateComments (Some Admin.sampleFailingQueue)
                                            ["m2"] Admin.sampleStore).2 !! id
          = if decide (id ∈ before.*1) then None
            else Admin.cfm Admin.sampleStore !! id.
Proof.
  apply (moderateComments_fails Admin.sampleFailingQueue ["m2"]
           Admin.sampleStore).
  vm_compute. reflexivity.
Defined.

(** The reply [m1], approved before the failure, is then neither in the
    queue nor among the comments of its puzzle. *)
Example moderateComments_loses_approved :
  Admin.cfm (Admin.moderateComments (Some Admin.sampleFailingQueue) ["m2"]
                                    Admin.sampleStore).2 !! "m1" = None
  ∧ "m1" ∉ Admin.published
             (Admin.moderateComments (Some Admin.sampleFailingQueue) ["m2"]
                                     Admin.sampleStore).2 "p1".
Proof.
  split; [vm_compute; reflexivity|].
  assert (Admin.published
            (Admin.moderateComments (Some Admin.sampleFailingQueue) ["m2"]
                                    Admin.sampleStore).2 "p1"
          = ["c1"]) as -> by (vm_compute; reflexivity).
  rewrite list_elem_of_singleton. discriminate.
Qed.

(** X18, at a concrete input: the reply [m1] is approved and [m2] is
    marked for deletion. *)
Lemma moderateComments_completes_witness :
  (∀ id,
     Admin.cfm (Admin.moderateComments (Some Admin.sampleQueue) ["m2"]
                                       Admin.sampleStore).2 !! id
     = if decide (id ∈ Admin.sampleQueue.*1) then None
       else Admin.cfm Admin.sampleStore !! id)
  ∧ ∀ puzzleId id,
      id ∈ Admin.published
             (Admin.moderateComments (Some Admin.sampleQueue) ["m2"]
                                     Admin.sampleStore).2 puzzleId
      ↔ id ∈ Admin.published Admin.sampleStore puzzleId
        ∨ Admin.approvedFor Admin.sampleStore Admin.sampleQueue ["m2"]
                            puzzleId id.
Proof.
  apply (moderateComments_completes Admin.sampleQueue ["m2"]
           Admin.sampleStore).
  vm_compute. reflexivity.
Defined.

(** X19, at a concrete input: there is no document for today, and the
    stats of the two days before count for nothing. *)
Lemma weekTotals_stops_at_gap_witness :
  Weekly.weekTotals Weekly.sampleStats = Weekly.weekTotals (λ _, None).
Proof.
  apply (weekTotals_stops_at_gap Weekly.sampleStats (λ _, None) 0).
  - reflexivity.
  - reflexivity.
  - intros day Hday. lia.
Defined.

(** X20, at a concrete input: stats for today and yesterday; the total
    of [p1] is 3 + 2. *)
Lemma weekTotals_sums_witness :
  ∃ totals,
    Weekly.weekTotals Weekly.sampleStats' = Some totals
    ∧ ∀ k, default 0%Z (Weekly.getKey totals.1 k)
           = Weekly.sumDays Weekly.sampleStats' k 0 2.
Proof.
  apply (weekTotals_sums Weekly.sampleStats' 2).
  - lia.
  - intros day Hday. destruct day as [|[|day]]; [done|done|lia].
  - reflexivity.
  - split; [|vm_compute; discriminate].
    repeat constructor; vm_compute; (reflexivity || discriminate).
Defined.

(** The totals of the sample. *)
Example weekTotals_sample :
  fst <$> Weekly.weekTotals Weekly.sampleStats'
  = Some [("p1", 5%Z); ("p2", 5%Z)].
Proof. vm_compute. reflexivity. Qed.

(** A count for the puzzle ['constructor'], and a count beyond 2^53:
    the totals are not followed. *)
Example weekTotals_unfollowed :
  Weekly.sumOnto [] (Some [("constructor", 1%Z)]) = None
  ∧ Weekly.sumOnto [("p1", 2 ^ 53)%Z] (Some [("p1", 1%Z)]) = None.
Proof. split; vm_compute; reflexivity. Qed.

(** The weekly email of the sample: [p1], a mini, is listed with its
    total of five; [p2], with the same total, is private and is left
    out. *)
Example topPuzzlesForWeek_sample :
  Weekly.topPuzzlesForWeek Weekly.sampleStats' Weekly.samplePuzzles 1000
  = Some ([], [("https://crosshare.org/crosswords/p1", "One by Mike")]).
Proof. vm_compute. reflexivity. Qed.

(** With no stats document for today, nothing is listed. *)
Example topPuzzlesForWeek_gap :
  Weekly.topPuzzlesForWeek Weekly.sampleStats Weekly.samplePuzzles 1000
  = Some ([], []).
Proof. vm_compute. reflexivity. Qed.

(** X22, at a concrete input: [u1] is mailed the comments, [u2] has no
    address; all four notifications have the flag [e] afterwards. *)
Lemma queueEmails_flags_all_witness :
  (queueEmails Js.defaultCompare (λ text, text) (Right DailySample.unread)
               DailySample.store).1 = Returns ()
  ∧ (∀ n, n ∈ DailySample.unread →
          emailed (coll_n (queueEmails Js.defaultCompare (λ text, text)
                                       (Right DailySample.unread)
                                       DailySample.store).2
                   !! NotificationBase.id (base n)) = Some true)
  ∧ ∀ id, id ∉ idsOf DailySample.unread →
          coll_n (queueEmails Js.defaultCompare (λ text, text)
                              (Right DailySample.unread)
                              DailySample.store).2 !! id
          = coll_n DailySample.store !! id.
Proof.
  apply (queueEmails_flags_all Js.defaultCompare (λ text, text)
           DailySample.unread DailySample.store).
  - intros n Hin.
    unfold DailySample.unread, DigestSample.notifications in Hin.
    simpl in Hin. rewrite !elem_of_cons in Hin.
    destruct Hin as [->|[->|[->|[->|Hin]]]];
      [vm_compute; eauto..|by apply elem_of_nil in Hin].
  - intros n Hin.
    unfold DailySample.unread, DigestSample.notifications in Hin.
    simpl in Hin. rewrite !elem_of_cons in Hin.
    destruct Hin as [->|[->|[->|[->|Hin]]]];
      [vm_compute; reflexivity..|by apply elem_of_nil in Hin].
  - intros n Hin _.
    unfold DailySample.unread, DigestSample.notifications in Hin.
    simpl in Hin. rewrite !elem_of_cons in Hin.
    destruct Hin as [->|[->|[->|[->|Hin]]]];
      [vm_compute; reflexivity..|by apply elem_of_nil in Hin].
Defined.

(** The keys that are array indices come first in [Object.entries],
    in ascending order; ['07'] and a number from 2^32 - 1 on are none. *)
Example ownEntries_order :
  (Js.ownEntries [("b", 1); ("10", 2); ("07", 3); ("2", 4);
                  ("4294967295", 5); ("a", 6); ("0", 7)]).*1
  = ["0"; "2"; "10"; "b"; "07"; "4294967295"; "a"].
Proof. vm_compute. reflexivity. Qed.

(** The character U+1F600, which is two code units from U+D83D on,
    comes before the character U+E000 in the order of [sort()],
    although its bytes come after. *)
Example defaultCompare_units :
  Js.defaultCompare
    (String "240" (String "159" (String "152" (String "128" EmptyString))))
    (String "238" (String "128" (String "128" EmptyString)))
  = (-1)%Z.
Proof. vm_compute. reflexivity. Qed.

(** A comment for the puzzle ['constructor'], approved: the run is
    not followed, and nothing has changed at that point. *)
Example moderateComments_constructor :
  Admin.moderateComments
    (Some [("m1", Comments.mkComment [104; 105]%N "uid1" "Mike" 42 false
                    (AdminTimestamp.fromMillis 1000) "constructor" None
                    None)])
    [] Admin.sampleStore
  = (Admin.OnInheritedProperty, Admin.sampleStore).
Proof. vm_compute. reflexivity. Qed.

(** X28, at a concrete input: the notifications of the sample and one
    for the user ['toString']. *)
Lemma queueEmails_inherited_user_witness :
  queueEmails Js.defaultCompare (λ text, text)
              (Right (DailySample.unread ++ [DailySample.clashingUser]))
              DailySample.store
  = (Throws (NotAFunction "push"), DailySample.store).
Proof.
  apply (queueEmails_inherited_user Js.defaultCompare (λ text, text)
           (DailySample.unread ++ [DailySample.clashingUser])
           DailySample.store).
  exists DailySample.clashingUser. split; [|vm_compute; reflexivity].
  apply elem_of_app. right. apply list_elem_of_here.
Defined.

(** The run of the sample: one mail, to [u1]; the comments of [u1] are
    read, the new puzzle that [u1] unsubscribed from and the
    notification of [u2] are not, and will not be mailed later. *)
Example queueEmails_sample :
  let db' := (queueEmails Js.defaultCompare (λ text, text)
                          (Right DailySample.unread) DailySample.store).2 in
  Mail.to <$> coll_mail db' = [["solver@example.org"]]
  ∧ (NotificationBase.r ∘ base <$> coll_n db') !! "n2" = Some true
  ∧ (NotificationBase.r ∘ base <$> coll_n db') !! "n1" = Some false
  ∧ (NotificationBase.r ∘ base <$> coll_n db') !! "n4" = Some false
  ∧ (NotificationBase.e ∘ base <$> coll_n db') !! "n1" = Some true
  ∧ (NotificationBase.e ∘ base <$> coll_n db') !! "n4" = Some true.
Proof. repeat split; vm_compute; reflexivity. Qed.

(** X24, at a concrete input: the comment [c3] is added to an empty
    storage and merged into the sample page. *)
Lemma remember_merge_shows_witness :
  ∃ shown storage',
    CommentList.merge CommentList.sampleComments
      (CommentList.remember CommentList.NoItem
                            (CommentList.sampleStored "c3"))
    = Some (shown, storage')
    ∧ is_Some (CommentList.findCommentById shown "c3").
Proof.
  apply (remember_merge_shows CommentList.sampleComments CommentList.NoItem
           (CommentList.sampleStored "c3")).
  - discriminate.
  - discriminate.
  - reflexivity.
Defined.

(** X25, at a concrete input: the page of the user [u7] at a store
    whose query discovers the puzzle [C]. *)
Lemma pages_keep_apart_witness :
  coll_i (getPuzzlesForConstructorPage (λ puzzle, puzzle) "u7"
            0 10 (ms 150) discoversC).2 !! "featured"
  = coll_i discoversC !! "featured"
  ∧ coll_i (getPuzzlesForFeatured (λ puzzle, puzzle) 0 10
                                  (ms 150) discoversC).2 !! "u7"
    = coll_i discoversC !! "u7".
Proof.
  destruct (pages_keep_apart (λ puzzle, puzzle) "u7" 0 10 (ms 150)
              discoversC) as (Hfeatured & Huser & _).
  - discriminate.
  - by split.
Defined.

(** X26, at a concrete input: the call at time 150 fails on [A], and so
    does a call for the second page at time 999. *)
Lemma getPuzzlesForPage_failure_stays_witness :
  orphan (persistedIndex
            (getPuzzlesForPage (λ puzzle, puzzle) "featured" "f"
                               (QBoolean true) 0 10 (ms 150) misaligned).2
            "featured") "A" = true
  ∧ ∃ pid',
      (getPuzzlesForPage (λ puzzle, puzzle) "featured" "f" (QBoolean true)
                         1 5 (ms 999)
                         (getPuzzlesForPage (λ puzzle, puzzle) "featured" "f"
                            (QBoolean true) 0 10 (ms 150) misaligned).2).1
      = Throws (MissingFromPvut pid').
Proof.
  apply (getPuzzlesForPage_failure_stays (λ puzzle, puzzle) "featured" "f"
           (QBoolean true) 0 10 1 5 (ms 150) (ms 999) misaligned
           (getPuzzlesForPage (λ puzzle, puzzle) "featured" "f"
                              (QBoolean true) 0 10 (ms 150) misaligned).2
           "A").
  - vm_compute. exact I.
  - vm_compute. reflexivity.
  - vm_compute. exact I.
Defined.

End MoreSamples.
